(** * KVT engine and JanusGraph KCV adapter: a shallow embedding

    The development follows the C++ sources:
    - [janusgraph-inmemory/kvt.backup/kvt_mem.h]: the serialized engine
      [KVTManagerWrapperSimple];
    - [janusgraph-kvt/kvt/kvt_mem.h]: error codes, batch types and the default
      [KVTManagerWrapperInterface::batch_execute];
    - [janusgraph-kvt/kvt_adaptor/janusgraph_kvt_adapter.h] and
      [janusgraph-inmemory/kvt/janusgraph/janusgraph_kvt_adapter.h]: column
      framing and the two adapter layouts.
    The commit of the optimistic engine, whose body is not among these
    sources, is modelled from the specification.

    A [std::string] is a Rocq [string]; its order is the byte-wise
    lexicographic order [String.compare].  Unsigned machine integers are [Z]
    with the wrap-around written out.  Reference (out) parameters of the C++
    functions are passed in and returned. *)

From Stdlib Require Import ZArith String Ascii List Lia Bool.
From Stdlib Require OrderedTypeEx.
From stdpp Require Import gmap strings list fin_maps pretty.

Open Scope string_scope.
Open Scope list_scope.
Open Scope Z_scope.

(** ** Machine integers and [std::to_string] *)

Definition uint32_wrap (z : Z) : Z := z mod 2 ^ 32.
Definition uint64_wrap (z : Z) : Z := z mod 2 ^ 64.

(** [std::to_string] on an unsigned integer: its decimal digits. *)
Definition to_string (z : Z) : string := pretty z.

(** [std::string(n, c)]: [n] copies of [c]. *)
Fixpoint string_fill (n : nat) (c : ascii) : string :=
  match n with
  | O => EmptyString
  | S n' => String c (string_fill n' c)
  end.

(** The one-character string [std::string(1, c)]. *)
Definition string1 (c : ascii) : string := String c EmptyString.

Definition NUL : ascii := Ascii.zero.

(** ** [std::map<std::string, V>]

    An ordered map is the list of its bindings in ascending key order; an
    iterator is a position in that list and [end()] is its length. *)

Module StdMap.
Section ordered_map.
Context {V : Type}.

Fixpoint find (k : string) (m : list (string * V)) : option V :=
  match m with
  | [] => None
  | (k', v) :: m' =>
      match String.compare k k' with
      | Eq => Some v
      | Lt => None
      | Gt => find k m'
      end
  end.

(** [m[k] = v]: insert or overwrite. *)
Fixpoint assign (k : string) (v : V) (m : list (string * V)) : list (string * V) :=
  match m with
  | [] => [(k, v)]
  | (k', v') :: m' =>
      match String.compare k k' with
      | Eq => (k', v) :: m'
      | Lt => (k, v) :: (k', v') :: m'
      | Gt => (k', v') :: assign k v m'
      end
  end.

(** [m.insert({k, v})]: a binding that is already present is kept. *)
Fixpoint insert (k : string) (v : V) (m : list (string * V)) : list (string * V) :=
  match m with
  | [] => [(k, v)]
  | (k', v') :: m' =>
      match String.compare k k' with
      | Eq => (k', v') :: m'
      | Lt => (k, v) :: (k', v') :: m'
      | Gt => (k', v') :: insert k v m'
      end
  end.

(** [m.insert(first, last)] over a range of bindings. *)
Definition insert_range (r : list (string * V)) (m : list (string * V)) : list (string * V) :=
  fold_left (fun acc kv => insert (fst kv) (snd kv) acc) r m.

Fixpoint erase (k : string) (m : list (string * V)) : list (string * V) :=
  match m with
  | [] => []
  | (k', v') :: m' =>
      match String.compare k k' with
      | Eq => m'
      | Lt => (k', v') :: m'
      | Gt => (k', v') :: erase k m'
      end
  end.

(** Position of the first binding whose key is not less than [k]. *)
Fixpoint lower_bound (k : string) (m : list (string * V)) : nat :=
  match m with
  | [] => 0%nat
  | (k', _) :: m' =>
      if String.ltb k' k then S (lower_bound k m') else 0%nat
  end.

(** Position of the first binding whose key is greater than [k]. *)
Fixpoint upper_bound (k : string) (m : list (string * V)) : nat :=
  match m with
  | [] => 0%nat
  | (k', _) :: m' =>
      if String.ltb k k' then 0%nat else S (upper_bound k m')
  end.

Definition keys (m : list (string * V)) : list string := map fst m.

(** The binding's key is within the closed range from [a] to [b]. *)
Definition in_range (a b : string) (kv : string * V) : bool :=
  String.leb a (fst kv) && String.leb (fst kv) b.

(** [k] is below the first key of [m], if any. *)
Definition head_above (k : string) (m : list (string * V)) : bool :=
  match m with
  | [] => true
  | (k', _) :: _ => String.ltb k k'
  end.

(** Strictly ascending keys: the representation invariant of the map. *)
Fixpoint ordered (m : list (string * V)) : bool :=
  match m with
  | [] => true
  | (k, _) :: m' =>
      match m' with
      | [] => true
      | (k', _) :: _ => String.ltb k k' && ordered m'
      end
  end.
End ordered_map.
End StdMap.

(** ** The serialized engine: [KVTManagerWrapperSimple] (kvt.backup/kvt_mem.h)

    Only one transaction is live at a time.  [write_set] is a
    [std::unordered_map], [delete_set] a [std::unordered_set]. *)

Module Simple.

Record KVTManagerWrapperSimple := mkSimple {
  table_data : list (string * string);
  table_to_id : gmap string Z;
  next_table_id : Z;
  next_tx_id : Z;
  current_tx_id : Z;
  write_set : gmap string string;
  delete_set : gset string
}.

Definition make_table_key (table_name key : string) : string :=
  table_name +:+ string1 NUL +:+ key.

(** The constructor. *)
Definition init : KVTManagerWrapperSimple :=
  {| table_data := [];
     table_to_id := ∅;
     next_table_id := 1;
     next_tx_id := 1;
     current_tx_id := 0;
     write_set := ∅;
     delete_set := ∅ |}.

Definition not_found_msg (tx_id : Z) : string :=
  "Transaction " +:+ to_string tx_id +:+ " not found".

Definition key_not_found_msg (key : string) : string :=
  "Key " +:+ key +:+ " not found".

(** [table_to_id] stores [uint32_t] values, so the 64-bit counter is
    truncated when it is recorded. *)
Definition create_table (s : KVTManagerWrapperSimple)
    (table_name partition_method error_msg : string)
  : KVTManagerWrapperSimple * (Z * string) :=
  match table_to_id s !! table_name with
  | Some _ => (s, (0, "Table " +:+ table_name +:+ " already exists"))
  | None =>
      let next' := uint64_wrap (next_table_id s + 1) in
      ({| table_data := table_data s;
          table_to_id := <[table_name := uint32_wrap (next_table_id s)]> (table_to_id s);
          next_table_id := next';
          next_tx_id := next_tx_id s;
          current_tx_id := current_tx_id s;
          write_set := write_set s;
          delete_set := delete_set s |},
       (uint64_wrap (next' - 1), error_msg))
  end.

Definition start_transaction (s : KVTManagerWrapperSimple) (error_msg : string)
  : KVTManagerWrapperSimple * (Z * string) :=
  if negb (current_tx_id s =? 0) then
    (s, (0, "A transaction is already running"))
  else
    ({| table_data := table_data s;
        table_to_id := table_to_id s;
        next_table_id := next_table_id s;
        next_tx_id := uint64_wrap (next_tx_id s + 1);
        current_tx_id := next_tx_id s;
        write_set := write_set s;
        delete_set := delete_set s |},
     (next_tx_id s, error_msg)).

(** [table_data.insert(write_set.begin(), write_set.end())] followed by the
    erasure of every key of [delete_set]. *)
Definition commit_transaction (s : KVTManagerWrapperSimple) (tx_id : Z)
    (error_msg : string) : KVTManagerWrapperSimple * (bool * string) :=
  if negb (current_tx_id s =? tx_id) then
    (s, (false, not_found_msg tx_id))
  else
    let inserted := StdMap.insert_range (map_to_list (write_set s)) (table_data s) in
    let erased := fold_left (fun acc key => StdMap.erase key acc)
                            (elements (delete_set s)) inserted in
    ({| table_data := erased;
        table_to_id := table_to_id s;
        next_table_id := next_table_id s;
        next_tx_id := next_tx_id s;
        current_tx_id := 0;
        write_set := ∅;
        delete_set := ∅ |},
     (true, error_msg)).

Definition rollback_transaction (s : KVTManagerWrapperSimple) (tx_id : Z)
    (error_msg : string) : KVTManagerWrapperSimple * (bool * string) :=
  if negb (current_tx_id s =? tx_id) then
    (s, (false, not_found_msg tx_id))
  else
    ({| table_data := table_data s;
        table_to_id := table_to_id s;
        next_table_id := next_table_id s;
        next_tx_id := next_tx_id s;
        current_tx_id := 0;
        write_set := ∅;
        delete_set := ∅ |},
     (true, error_msg)).

(** [get] returns the success flag and the contents of the two reference
    parameters [value] and [error_msg] on return. *)
Definition get (s : KVTManagerWrapperSimple) (tx_id : Z)
    (table_name key value error_msg : string)
  : KVTManagerWrapperSimple * (bool * string * string) :=
  if negb (tx_id =? 0) && negb (current_tx_id s =? tx_id) then
    (s, (false, value, not_found_msg tx_id))
  else
    let table_key := make_table_key table_name key in
    let lookup_table :=
      match StdMap.find table_key (table_data s) with
      | None => (s, (false, value, key_not_found_msg key))
      | Some v => (s, (true, v, error_msg))
      end in
    if negb (tx_id =? 0) then
      match write_set s !! table_key with
      | Some v => (s, (true, v, error_msg))
      | None =>
          if bool_decide (table_key ∈ delete_set s) then
            (s, (false, value, key_not_found_msg key))
          else lookup_table
      end
    else lookup_table.

Definition set (s : KVTManagerWrapperSimple) (tx_id : Z)
    (table_name key value error_msg : string)
  : KVTManagerWrapperSimple * (bool * string) :=
  if negb (tx_id =? 0) && negb (current_tx_id s =? tx_id) then
    (s, (false, not_found_msg tx_id))
  else
    let table_key := make_table_key table_name key in
    if tx_id =? 0 then
      ({| table_data := StdMap.assign table_key value (table_data s);
          table_to_id := table_to_id s;
          next_table_id := next_table_id s;
          next_tx_id := next_tx_id s;
          current_tx_id := current_tx_id s;
          write_set := write_set s;
          delete_set := delete_set s |},
       (true, error_msg))
    else
      ({| table_data := table_data s;
          table_to_id := table_to_id s;
          next_table_id := next_table_id s;
          next_tx_id := next_tx_id s;
          current_tx_id := current_tx_id s;
          write_set := <[table_key := value]> (write_set s);
          delete_set := delete_set s ∖ {[table_key]} |},
       (true, error_msg)).

Definition del (s : KVTManagerWrapperSimple) (tx_id : Z)
    (table_name key error_msg : string)
  : KVTManagerWrapperSimple * (bool * string) :=
  if negb (tx_id =? 0) && negb (current_tx_id s =? tx_id) then
    (s, (false, not_found_msg tx_id))
  else
    let table_key := make_table_key table_name key in
    if tx_id =? 0 then
      ({| table_data := StdMap.erase table_key (table_data s);
          table_to_id := table_to_id s;
          next_table_id := next_table_id s;
          next_tx_id := next_tx_id s;
          current_tx_id := current_tx_id s;
          write_set := write_set s;
          delete_set := delete_set s |},
       (true, error_msg))
    else
      ({| table_data := table_data s;
          table_to_id := table_to_id s;
          next_table_id := next_table_id s;
          next_tx_id := next_tx_id s;
          current_tx_id := current_tx_id s;
          write_set := delete table_key (write_set s);
          delete_set := delete_set s ∪ {[table_key]} |},
       (true, error_msg)).

(** [write_set[k]] on the unordered map: a missing key is default-inserted. *)
Definition write_set_index (ws : gmap string string) (k : string)
  : gmap string string * string :=
  match ws !! k with
  | Some v => (ws, v)
  | None => (<[k := ""]> ws, "")
  end.

(** The loop of [scan].  [rest] is the part of [table_data] from position
    [itr] on.  The loop leaves when [itr] meets [end_itr] or the limit is
    reached; stepping over [end()] without meeting [end_itr] has no defined
    behaviour and yields [None]. *)
Fixpoint scan_loop (rest : list (string * string)) (itr end_itr : nat)
    (num_item_limit : Z) (ds : gset string) (ws : gmap string string)
    (results : list (string * string))
  : option (gmap string string * list (string * string)) :=
  if (itr =? end_itr)%nat then Some (ws, results)
  else if negb (Z.of_nat (length results) <? num_item_limit) then Some (ws, results)
  else
    match rest with
    | [] => None
    | (k, v) :: rest' =>
        if bool_decide (k ∈ ds) then
          scan_loop rest' (S itr) end_itr num_item_limit ds ws results
        else
          match ws !! k with
          | Some _ =>
              let '(ws', w) := write_set_index ws k in
              scan_loop rest' (S itr) end_itr num_item_limit ds ws' (results ++ [(k, w)])
          | None =>
              scan_loop rest' (S itr) end_itr num_item_limit ds ws (results ++ [(k, v)])
          end
    end.

(** The guard of [scan] reads [tx_id == 0 && current_tx_id != tx_id]. *)
Definition scan (s : KVTManagerWrapperSimple) (tx_id : Z)
    (table_name key_start key_end : string) (num_item_limit : Z)
    (results : list (string * string)) (error_msg : string)
  : option (KVTManagerWrapperSimple * (bool * list (string * string) * string)) :=
  if (tx_id =? 0) && negb (current_tx_id s =? tx_id) then
    Some (s, (false, results, not_found_msg tx_id))
  else
    let table_key := make_table_key table_name key_start in
    let table_key_end := make_table_key table_name key_end in
    let itr := StdMap.lower_bound table_key (table_data s) in
    let end_itr := StdMap.upper_bound table_key_end (table_data s) in
    match scan_loop (drop itr (table_data s)) itr end_itr num_item_limit
                    (delete_set s) (write_set s) [] with
    | None => None
    | Some (ws', results') =>
        Some ({| table_data := table_data s;
                 table_to_id := table_to_id s;
                 next_table_id := next_table_id s;
                 next_tx_id := next_tx_id s;
                 current_tx_id := current_tx_id s;
                 write_set := ws';
                 delete_set := delete_set s |},
              (true, results', error_msg))
    end.

(** The calls of the engine's interface, and the states a sequence of calls
    can reach from the constructor's state. *)
Inductive call :=
  | CreateTable (table_name partition_method : string)
  | StartTransaction
  | CommitTransaction (tx_id : Z)
  | RollbackTransaction (tx_id : Z)
  | Get (tx_id : Z) (table_name key : string)
  | Set_ (tx_id : Z) (table_name key value : string)
  | Del (tx_id : Z) (table_name key : string)
  | Scan (tx_id : Z) (table_name key_start key_end : string) (num_item_limit : Z).

Definition step (s : KVTManagerWrapperSimple) (c : call) : option KVTManagerWrapperSimple :=
  match c with
  | CreateTable t pm => Some (fst (create_table s t pm ""))
  | StartTransaction => Some (fst (start_transaction s ""))
  | CommitTransaction tx => Some (fst (commit_transaction s tx ""))
  | RollbackTransaction tx => Some (fst (rollback_transaction s tx ""))
  | Get tx t k => Some (fst (get s tx t k "" ""))
  | Set_ tx t k v => Some (fst (set s tx t k v ""))
  | Del tx t k => Some (fst (del s tx t k ""))
  | Scan tx t ks ke n => option_map fst (scan s tx t ks ke n [] "")
  end.

Fixpoint run (s : KVTManagerWrapperSimple) (cs : list call) : option KVTManagerWrapperSimple :=
  match cs with
  | [] => Some s
  | c :: cs' =>
      match step s c with
      | Some s' => run s' cs'
      | None => None
      end
  end.

Definition reachable (s : KVTManagerWrapperSimple) : Prop :=
  exists cs, run init cs = Some s.

(** Invariant I1 (no key is both written and deleted) and the emptiness of
    the buffers while no transaction is live. *)
Definition buffers_consistent (s : KVTManagerWrapperSimple) : Prop :=
  (forall k, k ∈ delete_set s -> write_set s !! k = None)
  /\ (current_tx_id s = 0 -> write_set s = ∅ /\ delete_set s = ∅).

(** What a scan shows of the committed bindings [l]: a key of the delete-set
    is left out, and a key of the write-set carries the buffered value. *)
Fixpoint scan_view (ds : gset string) (ws : gmap string string)
    (l : list (string * string)) : list (string * string) :=
  match l with
  | [] => []
  | (k, v) :: l' =>
      if bool_decide (k ∈ ds) then scan_view ds ws l'
      else
        match ws !! k with
        | Some w => (k, w) :: scan_view ds ws l'
        | None => (k, v) :: scan_view ds ws l'
        end
  end.

(** A [get], [set] or [del] issued under transaction [tx]. *)
Definition buffered_call (tx : Z) (c : call) : bool :=
  match c with
  | Get tx' _ _ => tx' =? tx
  | Set_ tx' _ _ _ => tx' =? tx
  | Del tx' _ _ => tx' =? tx
  | _ => false
  end.

(** The state [s] with other buffers. *)
Definition with_buffers (s : KVTManagerWrapperSimple)
    (ws : gmap string string) (ds : gset string) : KVTManagerWrapperSimple :=
  {| table_data := table_data s;
     table_to_id := table_to_id s;
     next_table_id := next_table_id s;
     next_tx_id := next_tx_id s;
     current_tx_id := current_tx_id s;
     write_set := ws;
     delete_set := ds |}.

End Simple.

(** ** Error codes, batch types and the interface (janusgraph-kvt/kvt/kvt_mem.h) *)

Module Kvt.

Inductive KVTError :=
  | SUCCESS
  | KVT_NOT_INITIALIZED
  | TABLE_ALREADY_EXISTS
  | TABLE_NOT_FOUND
  | INVALID_PARTITION_METHOD
  | TRANSACTION_NOT_FOUND
  | TRANSACTION_ALREADY_RUNNING
  | KEY_NOT_FOUND
  | KEY_IS_DELETED
  | KEY_IS_LOCKED
  | TRANSACTION_HAS_STALE_DATA
  | ONE_SHOT_WRITE_NOT_ALLOWED
  | ONE_SHOT_DELETE_NOT_ALLOWED
  | BATCH_NOT_FULLY_SUCCESS
  | UNKNOWN_ERROR.

#[global] Instance KVTError_eq_dec : EqDecision KVTError.
Proof. solve_decision. Defined.

Inductive KVT_OPType := OP_UNKNOWN | OP_GET | OP_SET | OP_DEL.

Record KVTOp := mkOp {
  op : KVT_OPType;
  table_name : string;
  key : string;
  value : string
}.

(** [result_value] is the field [value] of [KVTOpResult]. *)
Record KVTOpResult := mkOpResult {
  error : KVTError;
  result_value : string
}.

(** The virtual data operations that [batch_execute] dispatches to, over an
    engine state [M].  Each returns the new state, the error code and the
    contents of its reference parameters ([value], [error_msg]). *)
Class KVTManagerWrapperInterface (M : Type) := {
  get : M -> Z -> string -> string -> string -> string -> M * (KVTError * string * string);
  set : M -> Z -> string -> string -> string -> string -> M * (KVTError * string);
  del : M -> Z -> string -> string -> string -> M * (KVTError * string)
}.

Section batch.
Context {M : Type} `{KVTManagerWrapperInterface M}.

(** The [switch] of the loop body: the per-op result and [op_error]. *)
Definition batch_op (m : M) (tx_id : Z) (o : KVTOp) : M * (KVTOpResult * string) :=
  match op o with
  | OP_GET =>
      let '(m', (e, v, op_error)) := get m tx_id (table_name o) (key o) "" "" in
      (m', ({| error := e; result_value := v |}, op_error))
  | OP_SET =>
      let '(m', (e, op_error)) := set m tx_id (table_name o) (key o) (value o) "" in
      (m', ({| error := e; result_value := "" |}, op_error))
  | OP_DEL =>
      let '(m', (e, op_error)) := del m tx_id (table_name o) (key o) "" in
      (m', ({| error := e; result_value := "" |}, op_error))
  | OP_UNKNOWN =>
      (m, ({| error := UNKNOWN_ERROR; result_value := "" |}, "Unknown operation type"))
  end.

(** The [for] loop, from index [i] on. *)
Fixpoint batch_loop (ops : list KVTOp) (i : Z) (m : M) (tx_id : Z)
    (all_success : bool) (concatenated_errors : string)
    (batch_results : list KVTOpResult)
  : M * (bool * string * list KVTOpResult) :=
  match ops with
  | [] => (m, (all_success, concatenated_errors, batch_results))
  | o :: ops' =>
      let '(m', (result, op_error)) := batch_op m tx_id o in
      let failed := negb (bool_decide (error result = SUCCESS)) in
      let all_success' := if failed then false else all_success in
      let concatenated_errors' :=
        if failed && negb (String.eqb op_error "") then
          concatenated_errors +:+ "op[" +:+ to_string i +:+ "]: " +:+ op_error +:+ "; "
        else concatenated_errors in
      batch_loop ops' (i + 1) m' tx_id all_success' concatenated_errors'
                 (batch_results ++ [result])
  end.

Definition batch_execute (m : M) (tx_id : Z) (batch_ops : list KVTOp)
    (batch_results : list KVTOpResult) (error_msg : string)
  : M * (KVTError * list KVTOpResult * string) :=
  let '(m', (all_success, concatenated_errors, results)) :=
    batch_loop batch_ops 0 m tx_id true "" [] in
  if all_success then (m', (SUCCESS, results, error_msg))
  else (m', (BATCH_NOT_FULLY_SUCCESS, results, concatenated_errors)).

(** The operations [ops] run one after the other: the final engine state
    and the per-op results in order. *)
Fixpoint run_ops (ops : list KVTOp) (m : M) (tx_id : Z) : M * list KVTOpResult :=
  match ops with
  | [] => (m, [])
  | o :: ops' =>
      let '(m', (result, _)) := batch_op m tx_id o in
      let '(m'', results) := run_ops ops' m' tx_id in
      (m'', result :: results)
  end.

Definition succeeded (r : KVTOpResult) : bool := bool_decide (error r = SUCCESS).

(** The reading of the specification, written down apart from the loop:
    "executes each op in sequence, producing a per-op result with its own
    error code".  An operation's own result is the code of the engine call
    that its kind names, with the value read for a get; its state is the one
    that call leaves; its message is the one that call gives.  An operation
    of no known kind calls nothing and has the code [UNKNOWN_ERROR]. *)
Definition own_result (m : M) (tx_id : Z) (o : KVTOp) : KVTOpResult :=
  match op o with
  | OP_GET =>
      {| error := fst (fst (snd (get m tx_id (table_name o) (key o) "" "")));
         result_value := snd (fst (snd (get m tx_id (table_name o) (key o) "" ""))) |}
  | OP_SET =>
      {| error := fst (snd (set m tx_id (table_name o) (key o) (value o) ""));
         result_value := "" |}
  | OP_DEL =>
      {| error := fst (snd (del m tx_id (table_name o) (key o) ""));
         result_value := "" |}
  | OP_UNKNOWN => {| error := UNKNOWN_ERROR; result_value := "" |}
  end.

Definition own_message (m : M) (tx_id : Z) (o : KVTOp) : string :=
  match op o with
  | OP_GET => snd (snd (get m tx_id (table_name o) (key o) "" ""))
  | OP_SET => snd (snd (set m tx_id (table_name o) (key o) (value o) ""))
  | OP_DEL => snd (snd (del m tx_id (table_name o) (key o) ""))
  | OP_UNKNOWN => "Unknown operation type"
  end.

Definition engine_after_op (m : M) (tx_id : Z) (o : KVTOp) : M :=
  match op o with
  | OP_GET => fst (get m tx_id (table_name o) (key o) "" "")
  | OP_SET => fst (set m tx_id (table_name o) (key o) (value o) "")
  | OP_DEL => fst (del m tx_id (table_name o) (key o) "")
  | OP_UNKNOWN => m
  end.

(** The engine after the operations [ops], one after the other. *)
Definition engine_after (ops : list KVTOp) (m : M) (tx_id : Z) : M :=
  fold_left (fun m' o => engine_after_op m' tx_id o) ops m.

(** The entry of a failed operation with a message in the batch's message:
    ["op[<index>]: <message>; "]; the report of a batch is the entries of
    its operations in order, the indices counted from [i]. *)
Definition failure_entry (m : M) (tx_id : Z) (i : Z) (o : KVTOp) : string :=
  if negb (bool_decide (error (own_result m tx_id o) = SUCCESS))
     && negb (String.eqb (own_message m tx_id o) "")
  then "op[" +:+ to_string i +:+ "]: " +:+ own_message m tx_id o +:+ "; "
  else "".

Fixpoint failure_report (ops : list KVTOp) (i : Z) (m : M) (tx_id : Z) : string :=
  match ops with
  | [] => ""
  | o :: ops' =>
      failure_entry m tx_id i o
      +:+ failure_report ops' (i + 1) (engine_after_op m tx_id o) tx_id
  end.
End batch.

End Kvt.

(** ** Column framing (namespace [serialization] of both adapter headers) *)

Module Serialization.

Inductive exn :=
  | runtime_error (what : string)
  | invalid_argument (what : string).

Inductive result (A : Type) :=
  | Ok (a : A)
  | Throw (e : exn).
Arguments Ok {A} a.
Arguments Throw {A} e.

Record ColumnValue := mkCV {
  column : string;
  value : string
}.

(** [std::string::substr(0, n)] and [substr(n)]; also a read of [n] bytes at a
    pointer and the pointer advanced by [n]. *)
Fixpoint string_take (n : nat) (s : string) : string :=
  match n, s with
  | S n', String c s' => String c (string_take n' s')
  | _, _ => ""
  end.

Fixpoint string_drop (n : nat) (s : string) : string :=
  match n, s with
  | S n', String _ s' => string_drop n' s'
  | _, _ => s
  end.

(** [ColumnValue::operator<] compares the columns only. *)
Definition cv_lt (a b : ColumnValue) : bool := String.ltb (column a) (column b).

(** [std::is_sorted]: no element is less than its predecessor. *)
Fixpoint is_sorted (l : list ColumnValue) : bool :=
  match l with
  | [] => true
  | a :: tl =>
      match tl with
      | [] => true
      | b :: _ => negb (cv_lt b a) && is_sorted tl
      end
  end.

Definition byte_of (z : Z) : ascii := ascii_of_N (Z.to_N (z mod 256)).

(** The four bytes of a [uint32_t] in memory (little-endian host). *)
Definition uint32_bytes (n : Z) : string :=
  String (byte_of n)
    (String (byte_of (n / 256))
      (String (byte_of (n / 65536))
        (String (byte_of (n / 16777216)) ""))).

(** [memcpy] of four bytes into a [uint32_t]. *)
Definition read_uint32 (s : string) : Z :=
  match s with
  | String a (String b (String c (String d _))) =>
      Z.of_N (N_of_ascii a) + 256 * Z.of_N (N_of_ascii b)
      + 65536 * Z.of_N (N_of_ascii c) + 16777216 * Z.of_N (N_of_ascii d)
  | _ => 0
  end.

Definition size (s : string) : Z := Z.of_nat (String.length s).

(** One iteration of the writing loop: what it appends to the stream.  The
    lengths are narrowed to [uint32_t] and that many bytes are written. *)
Definition write_pair (cv : ColumnValue) : string :=
  let col_len := uint32_wrap (size (column cv)) in
  let val_len := uint32_wrap (size (value cv)) in
  uint32_bytes col_len +:+ string_take (Z.to_nat col_len) (column cv)
  +:+ uint32_bytes val_len +:+ string_take (Z.to_nat val_len) (value cv).

Fixpoint write_pairs (columns : list ColumnValue) (ss : string) : string :=
  match columns with
  | [] => ss
  | cv :: tl => write_pairs tl (ss +:+ write_pair cv)
  end.

(** What the writing loop appends for [columns], and the whole frame: the
    count followed by the pairs. *)
Fixpoint frame_body (columns : list ColumnValue) : string :=
  match columns with
  | [] => ""
  | cv :: tl => write_pair cv +:+ frame_body tl
  end.

Definition frame (columns : list ColumnValue) : string :=
  uint32_bytes (uint32_wrap (Z.of_nat (length columns))) +:+ frame_body columns.

Definition serialize_columns (columns : list ColumnValue) : result string :=
  let num_columns := uint32_wrap (Z.of_nat (length columns)) in
  if negb (0 <? num_columns) then
    Throw (runtime_error "Number of columns must be greater than 0")
  else
    let ss := uint32_bytes num_columns in
    if negb (is_sorted columns) then
      Throw (runtime_error "Columns Must Be sorted before serialization")
    else Ok (write_pairs columns ss).

(** One iteration of the reading loop.  [rem] is the input from [ptr] to
    [end]; [None] is a [break]. *)
Definition read_pair (rem : string) : option (ColumnValue * string) :=
  if size rem <? 4 then None
  else
    let col_len := read_uint32 rem in
    let rem1 := string_drop 4 rem in
    if size rem1 <? col_len then None
    else
      let column := string_take (Z.to_nat col_len) rem1 in
      let rem2 := string_drop (Z.to_nat col_len) rem1 in
      if size rem2 <? 4 then None
      else
        let val_len := read_uint32 rem2 in
        let rem3 := string_drop 4 rem2 in
        if size rem3 <? val_len then None
        else
          let value := string_take (Z.to_nat val_len) rem3 in
          let rem4 := string_drop (Z.to_nat val_len) rem3 in
          Some ({| column := column; value := value |}, rem4).

(** The reading loop with [n] iterations left. *)
Fixpoint read_pairs (n : nat) (rem : string) (result : list ColumnValue)
  : list ColumnValue :=
  match n with
  | O => result
  | S n' =>
      match read_pair rem with
      | None => result
      | Some (cv, rem') => read_pairs n' rem' (result ++ [cv])
      end
  end.

Definition deserialize_columns (data : string) : result (list ColumnValue) :=
  if String.eqb data "" then Throw (runtime_error "Data is empty")
  else if size data <? 4 then Ok []
  else
    let num_columns := read_uint32 data in
    let result := read_pairs (Z.to_nat num_columns) (string_drop 4 data) [] in
    match result with
    | [] => Ok result
    | _ :: _ =>
        if negb (is_sorted result) then
          Throw (runtime_error "Columns Must Be sorted before deserialization")
        else Ok result
    end.

(** Columns strictly ascending: sorted by column, all columns distinct. *)
Fixpoint strictly_sorted (l : list ColumnValue) : bool :=
  match l with
  | [] => true
  | a :: tl =>
      match tl with
      | [] => true
      | b :: _ => cv_lt a b && strictly_sorted tl
      end
  end.

(** The sizes that the [uint32_t] fields of a frame can hold. *)
Definition fits_uint32 (cv : ColumnValue) : Prop :=
  size (column cv) < 2 ^ 32 /\ size (value cv) < 2 ^ 32.

Definition frame_fits (columns : list ColumnValue) : Prop :=
  Z.of_nat (length columns) < 2 ^ 32 /\ Forall fits_uint32 columns.

(** [std::string::find(char)]: the first position of [c], [None] for [npos]. *)
Fixpoint find_char (c : ascii) (s : string) : option nat :=
  match s with
  | EmptyString => None
  | String c' s' =>
      if Ascii.eqb c' c then Some O else option_map S (find_char c s')
  end.

(** [pos != std::string::npos] *)
Definition found (pos : option nat) : bool :=
  match pos with
  | Some _ => true
  | None => false
  end.

Section composite.
Variable KEY_COLUMN_SEPARATOR : ascii.

Definition make_composite_key (key column : string) : result string :=
  if found (find_char KEY_COLUMN_SEPARATOR key)
     || found (find_char KEY_COLUMN_SEPARATOR column)
     || String.eqb key ""
     || String.eqb column ""
  then Throw (invalid_argument "Key or column contains separator or is empty")
  else Ok (key +:+ string1 KEY_COLUMN_SEPARATOR +:+ column).

Definition split_composite_key (composite_key : string) : result (string * string) :=
  match find_char KEY_COLUMN_SEPARATOR composite_key with
  | Some pos => Ok (string_take pos composite_key, string_drop (S pos) composite_key)
  | None => Throw (invalid_argument "Composite key is invalid")
  end.

(** The loop of [get_all_columns] over the scan results. *)
Fixpoint collect_columns (key : string) (scan_results : list (string * string))
    (result : list ColumnValue) : Serialization.result (list ColumnValue) :=
  match scan_results with
  | [] => Ok result
  | (composite_key, value) :: tl =>
      match split_composite_key composite_key with
      | Throw e => Throw e
      | Ok (extracted_key, column) =>
          if negb (String.eqb extracted_key key) then
            Throw (runtime_error "Composite key is not extracted correctly")
          else collect_columns key tl (result ++ [{| column := column; value := value |}])
      end
  end.

(** [char(KEY_COLUMN_SEPARATOR + 1)] *)
Definition separator_succ : ascii :=
  ascii_of_N ((N_of_ascii KEY_COLUMN_SEPARATOR + 1) mod 256).
End composite.

End Serialization.

(** ** [KVTManagerWrapperBase] (janusgraph-kvt/kvt/kvt_mem.h)

    The part that the locking and the optimistic engine share: the tables,
    the transactions and the two counters.  A failed [assert] ends the
    program; the helpers return [None] there. *)

Module Base.
Import Kvt.
Import Serialization.

Record Entry := mkEntry {
  data : string;
  metadata : Z
}.

(** [entries] is the field [data] of [Table]. *)
Record Table := mkTable {
  id : Z;
  name : string;
  partition_method : string;
  entries : list (string * Entry)
}.

Record Transaction := mkTransaction {
  tx_id : Z;
  read_set : list (string * Entry);
  write_set : list (string * Entry);
  delete_set : gset string
}.

Record KVTManagerWrapperBase := mkBase {
  tables : gmap string Table;
  transactions : gmap Z Transaction;
  tablename_to_id : gmap string Z;
  next_table_id : Z;
  next_tx_id : Z
}.

Definition make_table_key (table_name key : string) : option string :=
  if String.eqb table_name "" || found (find_char NUL table_name) then None
  else if String.eqb key "" || found (find_char NUL key) then None
  else Some (table_name +:+ string1 NUL +:+ key).

Definition parse_table_key (table_key : string) : option (string * string) :=
  match find_char NUL table_key with
  | None => None
  | Some separator_pos =>
      Some (string_take separator_pos table_key, string_drop (S separator_pos) table_key)
  end.

Definition get_table (m : KVTManagerWrapperBase) (table_name : string) : option Table :=
  tables m !! table_name.

Definition get_transaction (m : KVTManagerWrapperBase) (tx_id : Z) : option Transaction :=
  transactions m !! tx_id.

(** The constructor. *)
Definition init : KVTManagerWrapperBase :=
  {| tables := ∅; transactions := ∅; tablename_to_id := ∅;
     next_table_id := 1; next_tx_id := 1 |}.

(** [create_table] returns the error code and the contents of [table_id] and
    [error_msg] on return. *)
Definition create_table (m : KVTManagerWrapperBase)
    (table_name partition_method : string) (table_id : Z) (error_msg : string)
  : KVTManagerWrapperBase * (KVTError * Z * string) :=
  match tables m !! table_name with
  | Some _ =>
      (m, (TABLE_ALREADY_EXISTS, table_id, "Table '" +:+ table_name +:+ "' already exists"))
  | None =>
      if negb (String.eqb partition_method "hash")
         && negb (String.eqb partition_method "range") then
        (m, (INVALID_PARTITION_METHOD, table_id,
             "Invalid partition method. Must be 'hash' or 'range'"))
      else
        let table_id_val := next_table_id m in
        ({| tables := <[table_name := {| id := table_id_val; name := table_name;
                                         partition_method := partition_method;
                                         entries := [] |}]> (tables m);
            transactions := transactions m;
            tablename_to_id := <[table_name := table_id_val]> (tablename_to_id m);
            next_table_id := uint64_wrap (next_table_id m + 1);
            next_tx_id := next_tx_id m |},
         (SUCCESS, table_id_val, error_msg))
  end.

Definition start_transaction (m : KVTManagerWrapperBase) (tx_id : Z) (error_msg : string)
  : KVTManagerWrapperBase * (KVTError * Z * string) :=
  let tx_id_val := next_tx_id m in
  ({| tables := tables m;
      transactions := <[tx_id_val := {| tx_id := tx_id_val; read_set := [];
                                        write_set := []; delete_set := ∅ |}]>
                        (transactions m);
      tablename_to_id := tablename_to_id m;
      next_table_id := next_table_id m;
      next_tx_id := uint64_wrap (next_tx_id m + 1) |},
   (SUCCESS, tx_id_val, error_msg)).

(** The two calls that the base class implements, and a sequence of them
    run from the constructor's state. *)
Inductive call :=
  | CreateTable (table_name partition_method : string)
  | StartTransaction.

Definition step (m : KVTManagerWrapperBase) (c : call) : KVTManagerWrapperBase :=
  match c with
  | CreateTable t pm => fst (create_table m t pm 0 "")
  | StartTransaction => fst (start_transaction m 0 "")
  end.

Definition run (cs : list call) : KVTManagerWrapperBase := fold_left step cs init.

(** What [n] calls of the base class keep true of the engine. *)
Definition base_invariant (n : Z) (m : KVTManagerWrapperBase) : Prop :=
  (1 <= next_table_id m <= 1 + n)
  /\ (1 <= next_tx_id m <= 1 + n)
  /\ (forall t, tablename_to_id m !! t = id <$> tables m !! t)
  /\ (forall t tbl, tables m !! t = Some tbl ->
        name tbl = t
        /\ (partition_method tbl = "hash" \/ partition_method tbl = "range")
        /\ 1 <= id tbl < next_table_id m)
  /\ (forall t1 t2 tbl1 tbl2,
        tables m !! t1 = Some tbl1 -> tables m !! t2 = Some tbl2 ->
        id tbl1 = id tbl2 -> t1 = t2)
  /\ (forall i tx, transactions m !! i = Some tx ->
        tx_id tx = i /\ 1 <= i < next_tx_id m).

End Base.

(** ** The global entry points (janusgraph-inmemory/kvt/kvt_mem.cpp)

    [g_kvt_manager] is a [std::unique_ptr<KVTManagerWrapper>], and
    [KVTManagerWrapper] is a [typedef] of the serialized engine; the pointer
    is null, here [None], before [kvt_initialize] and after [kvt_shutdown]. *)

Module Global.
Import Simple.



Definition not_initialized_msg : string := "KVT system not initialized".

(** A failed allocation, which makes [kvt_initialize] return [false], is
    left out. *)
Definition kvt_initialize (g : option KVTManagerWrapperSimple)
  : option KVTManagerWrapperSimple * bool :=
  (Some init, true).

Definition kvt_shutdown (g : option KVTManagerWrapperSimple) : option KVTManagerWrapperSimple :=
  None.

Definition kvt_create_table (g : option KVTManagerWrapperSimple)
    (table_name partition_method error_msg : string)
  : option KVTManagerWrapperSimple * (Z * string) :=
  match g with
  | None => (g, (0, not_initialized_msg))
  | Some m =>
      let '(m', r) := create_table m table_name partition_method error_msg in (Some m', r)
  end.

Definition kvt_start_transaction (g : option KVTManagerWrapperSimple) (error_msg : string)
  : option KVTManagerWrapperSimple * (Z * string) :=
  match g with
  | None => (g, (0, not_initialized_msg))
  | Some m => let '(m', r) := start_transaction m error_msg in (Some m', r)
  end.

Definition kvt_get (g : option KVTManagerWrapperSimple) (tx_id : Z)
    (table_name key value error_msg : string)
  : option KVTManagerWrapperSimple * (bool * string * string) :=
  match g with
  | None => (g, (false, value, not_initialized_msg))
  | Some m => let '(m', r) := get m tx_id table_name key value error_msg in (Some m', r)
  end.

Definition kvt_set (g : option KVTManagerWrapperSimple) (tx_id : Z)
    (table_name key value error_msg : string)
  : option KVTManagerWrapperSimple * (bool * string) :=
  match g with
  | None => (g, (false, not_initialized_msg))
  | Some m => let '(m', r) := set m tx_id table_name key value error_msg in (Some m', r)
  end.

Definition kvt_del (g : option KVTManagerWrapperSimple) (tx_id : Z)
    (table_name key error_msg : string)
  : option KVTManagerWrapperSimple * (bool * string) :=
  match g with
  | None => (g, (false, not_initialized_msg))
  | Some m => let '(m', r) := del m tx_id table_name key error_msg in (Some m', r)
  end.

(** As for the engine's [scan], [None] stands for the undefined behaviour of
    its loop. *)
Definition kvt_scan (g : option KVTManagerWrapperSimple) (tx_id : Z)
    (table_name key_start key_end : string) (num_item_limit : Z)
    (results : list (string * string)) (error_msg : string)
  : option (option KVTManagerWrapperSimple * (bool * list (string * string) * string)) :=
  match g with
  | None => Some (g, (false, results, not_initialized_msg))
  | Some m =>
      match scan m tx_id table_name key_start key_end num_item_limit results error_msg with
      | None => None
      | Some (m', r) => Some (Some m', r)
      end
  end.

Definition kvt_commit_transaction (g : option KVTManagerWrapperSimple) (tx_id : Z)
    (error_msg : string) : option KVTManagerWrapperSimple * (bool * string) :=
  match g with
  | None => (g, (false, not_initialized_msg))
  | Some m => let '(m', r) := commit_transaction m tx_id error_msg in (Some m', r)
  end.

Definition kvt_rollback_transaction (g : option KVTManagerWrapperSimple) (tx_id : Z)
    (error_msg : string) : option KVTManagerWrapperSimple * (bool * string) :=
  match g with
  | None => (g, (false, not_initialized_msg))
  | Some m => let '(m', r) := rollback_transaction m tx_id error_msg in (Some m', r)
  end.

(** The global engine [g] holds [m] up to the transaction's two buffers. *)
Definition only_buffers_differ (m : KVTManagerWrapperSimple)
    (g : option KVTManagerWrapperSimple) : Prop :=
  exists ws ds, g = Some (with_buffers m ws ds).

End Global.

(** ** [JanusGraphKVTAdapter::get_all_columns], in-memory adapter
    (janusgraph-inmemory/kvt/janusgraph/janusgraph_kvt_adapter.h)

    The engine behind [kvt_scan] and [kvt_get] is a parameter: a state [E]
    and the two entry points, which return their success flag and the
    contents of their reference parameters. *)

Module InMemoryAdapter.
Import Serialization.

Definition KEY_COLUMN_SEPARATOR : ascii := Ascii.zero.

Section adapter.
Context {E : Type}.
Variable kvt_scan :
  E -> Z -> string -> string -> string -> Z -> list (string * string) -> string ->
  E * (bool * list (string * string) * string).
Variable kvt_get :
  E -> Z -> string -> string -> string -> string -> E * (bool * string * string).

Definition get_all_columns (g_use_composite_key_method : bool) (e : E)
    (tx_id : Z) (table_name key error_msg : string)
  : E * (result (list ColumnValue) * string) :=
  if g_use_composite_key_method then
    match make_composite_key KEY_COLUMN_SEPARATOR key "" with
    | Throw ex => (e, (Throw ex, error_msg))
    | Ok start_key =>
        let end_key := key +:+ string1 (separator_succ KEY_COLUMN_SEPARATOR) in
        let '(e', (ok, scan_results, error_msg')) :=
          kvt_scan e tx_id table_name start_key end_key 10000 [] error_msg in
        if ok then
          (e', (collect_columns KEY_COLUMN_SEPARATOR key scan_results [], error_msg'))
        else (e', (Ok [], error_msg'))
    end
  else
    let '(e', (ok, serialized, error_msg')) :=
      kvt_get e tx_id table_name key "" error_msg in
    if ok then (e', (deserialize_columns serialized, error_msg'))
    else (e', (Ok [], error_msg')).
End adapter.

(** The other operations of the adapter.  A function that can throw returns
    a [result]; the engine state and the message are those at the throw. *)
Section column_operations.
Context {E : Type}.
Variable kvt_scan :
  E -> Z -> string -> string -> string -> Z -> list (string * string) -> string ->
  E * (bool * list (string * string) * string).
Variable kvt_get :
  E -> Z -> string -> string -> string -> string -> E * (bool * string * string).
Variable kvt_set :
  E -> Z -> string -> string -> string -> string -> E * (bool * string).
Variable kvt_del :
  E -> Z -> string -> string -> string -> E * (bool * string).

(** [std::lower_bound] with the comparator [cv.column < col].  Every call is
    made on a range that [std::is_sorted] has accepted, which the comparator
    partitions; the result is then the first position whose column is not
    below [col]. *)
Fixpoint lower_bound (columns : list ColumnValue) (col : string) : nat :=
  match columns with
  | [] => O
  | cv :: tl =>
      if String.ltb (Serialization.column cv) col then S (lower_bound tl col) else O
  end.

(** [it != columns.end() && it->column == column] *)
Definition at_column (columns : list ColumnValue) (it : nat) (col : string)
  : option ColumnValue :=
  match columns !! it with
  | Some cv => if String.eqb (Serialization.column cv) col then Some cv else None
  | None => None
  end.

(** [columns.emplace(it, column, value)] *)
Definition emplace (columns : list ColumnValue) (it : nat) (cv : ColumnValue)
  : list ColumnValue :=
  take it columns ++ cv :: drop it columns.

(** The binary search of [set_column] and what follows it: the value of the
    column found is replaced, a column not found is put in at its place. *)
Definition upsert (columns : list ColumnValue) (col val : string) : list ColumnValue :=
  let it := lower_bound columns col in
  match at_column columns it col with
  | Some cv => <[it := {| column := Serialization.column cv; value := val |}]> columns
  | None => emplace columns it {| column := col; value := val |}
  end.

(** The update-or-add step of [set_column]. *)
Definition update_or_add (columns : list ColumnValue) (col val : string)
  : result (list ColumnValue) :=
  match columns with
  | [] => Ok [{| column := col; value := val |}]
  | _ :: _ =>
      if negb (is_sorted columns) then Throw (runtime_error "Columns are not sorted")
      else Ok (upsert columns col val)
  end.

Definition set_column (g_use_composite_key_method : bool) (e : E)
    (tx_id : Z) (table_name key col val error_msg : string)
  : E * (result bool * string) :=
  if String.eqb key "" || String.eqb col "" then
    (e, (Ok false, "Key and column cannot be empty"))
  else if g_use_composite_key_method then
    match make_composite_key KEY_COLUMN_SEPARATOR key col with
    | Throw ex => (e, (Throw ex, error_msg))
    | Ok composite_key =>
        let '(e', (ok, error_msg')) :=
          kvt_set e tx_id table_name composite_key val error_msg in
        (e', (Ok ok, error_msg'))
    end
  else
    let '(e1, (existing, error_msg1)) :=
      get_all_columns kvt_scan kvt_get g_use_composite_key_method e
                      tx_id table_name key error_msg in
    match existing with
    | Throw ex => (e1, (Throw ex, error_msg1))
    | Ok columns =>
        match update_or_add columns col val with
        | Throw ex => (e1, (Throw ex, error_msg1))
        | Ok columns' =>
            match serialize_columns columns' with
            | Throw ex => (e1, (Throw ex, error_msg1))
            | Ok serialized =>
                let '(e2, (ok, error_msg2)) :=
                  kvt_set e1 tx_id table_name key serialized error_msg1 in
                (e2, (Ok ok, error_msg2))
            end
        end
    end.

(** [get_column] returns its flag and the contents of [value] and
    [error_msg] on return. *)
Definition get_column (g_use_composite_key_method : bool) (e : E)
    (tx_id : Z) (table_name key col val error_msg : string)
  : E * (result bool * string * string) :=
  if String.eqb key "" || String.eqb col "" then
    (e, (Ok false, val, "Key and column cannot be empty"))
  else if g_use_composite_key_method then
    match make_composite_key KEY_COLUMN_SEPARATOR key col with
    | Throw ex => (e, (Throw ex, val, error_msg))
    | Ok composite_key =>
        let '(e', (ok, val', error_msg')) :=
          kvt_get e tx_id table_name composite_key val error_msg in
        (e', (Ok ok, val', error_msg'))
    end
  else
    let '(e1, (ok, serialized, error_msg1)) :=
      kvt_get e tx_id table_name key "" error_msg in
    if negb ok then (e1, (Ok false, val, error_msg1))
    else
      match deserialize_columns serialized with
      | Throw ex => (e1, (Throw ex, val, error_msg1))
      | Ok columns =>
          match at_column columns (lower_bound columns col) col with
          | Some cv => (e1, (Ok true, Serialization.value cv, error_msg1))
          | None => (e1, (Ok false, val, "Column not found: " +:+ col))
          end
      end.

Definition delete_column (g_use_composite_key_method : bool) (e : E)
    (tx_id : Z) (table_name key col error_msg : string)
  : E * (result bool * string) :=
  if String.eqb key "" || String.eqb col "" then
    (e, (Ok false, "Key and column cannot be empty"))
  else if g_use_composite_key_method then
    match make_composite_key KEY_COLUMN_SEPARATOR key col with
    | Throw ex => (e, (Throw ex, error_msg))
    | Ok composite_key =>
        let '(e', (ok, error_msg')) := kvt_del e tx_id table_name composite_key error_msg in
        (e', (Ok ok, error_msg'))
    end
  else
    let '(e1, (existing, error_msg1)) :=
      get_all_columns kvt_scan kvt_get g_use_composite_key_method e
                      tx_id table_name key error_msg in
    match existing with
    | Throw ex => (e1, (Throw ex, error_msg1))
    | Ok columns =>
        if negb (is_sorted columns) then
          (e1, (Throw (runtime_error "Columns are not sorted"), error_msg1))
        else
          let it := lower_bound columns col in
          match at_column columns it col with
          | None => (e1, (Ok false, "Column not found: " +:+ col))
          | Some _ =>
              match delete it columns with
              | [] =>
                  let '(e2, (ok, error_msg2)) :=
                    kvt_del e1 tx_id table_name key error_msg1 in
                  (e2, (Ok ok, error_msg2))
              | remaining =>
                  match serialize_columns remaining with
                  | Throw ex => (e1, (Throw ex, error_msg1))
                  | Ok serialized =>
                      let '(e2, (ok, error_msg2)) :=
                        kvt_set e1 tx_id table_name key serialized error_msg1 in
                      (e2, (Ok ok, error_msg2))
                  end
              end
          end
    end.

(** The loop of [delete_key] in the composite-key layout. *)
Fixpoint delete_composite_keys (columns : list ColumnValue) (e : E)
    (tx_id : Z) (table_name key error_msg : string) : E * (result bool * string) :=
  match columns with
  | [] => (e, (Ok true, error_msg))
  | cv :: tl =>
      match make_composite_key KEY_COLUMN_SEPARATOR key (Serialization.column cv) with
      | Throw ex => (e, (Throw ex, error_msg))
      | Ok composite_key =>
          let '(e', (ok, error_msg')) :=
            kvt_del e tx_id table_name composite_key error_msg in
          if negb ok then (e', (Ok false, error_msg'))
          else delete_composite_keys tl e' tx_id table_name key error_msg'
      end
  end.

Definition delete_key (g_use_composite_key_method : bool) (e : E)
    (tx_id : Z) (table_name key error_msg : string) : E * (result bool * string) :=
  if String.eqb key "" then (e, (Ok false, "Key cannot be empty"))
  else if g_use_composite_key_method then
    let '(e1, (existing, error_msg1)) :=
      get_all_columns kvt_scan kvt_get g_use_composite_key_method e
                      tx_id table_name key error_msg in
    match existing with
    | Throw ex => (e1, (Throw ex, error_msg1))
    | Ok columns => delete_composite_keys columns e1 tx_id table_name key error_msg1
    end
  else
    let '(e', (ok, error_msg')) := kvt_del e tx_id table_name key error_msg in
    (e', (Ok ok, error_msg')).

(** The loop of [set_columns] in the composite-key layout. *)
Fixpoint set_composite_keys (columns : list ColumnValue) (e : E)
    (tx_id : Z) (table_name key error_msg : string) : E * (result bool * string) :=
  match columns with
  | [] => (e, (Ok true, error_msg))
  | cv :: tl =>
      match make_composite_key KEY_COLUMN_SEPARATOR key (Serialization.column cv) with
      | Throw ex => (e, (Throw ex, error_msg))
      | Ok composite_key =>
          let '(e', (ok, error_msg')) :=
            kvt_set e tx_id table_name composite_key (Serialization.value cv) error_msg in
          if negb ok then (e', (Ok false, error_msg'))
          else set_composite_keys tl e' tx_id table_name key error_msg'
      end
  end.

(** [column_map[cv.column] = cv.value] for every element, in order; the map
    is a [std::map]. *)
Definition assign_columns (columns : list ColumnValue)
    (column_map : list (string * string)) : list (string * string) :=
  fold_left (fun acc cv =>
               StdMap.assign (Serialization.column cv) (Serialization.value cv) acc)
            columns column_map.

Definition set_columns (g_use_composite_key_method : bool) (e : E)
    (tx_id : Z) (table_name key : string) (columns : list ColumnValue)
    (error_msg : string) : E * (result bool * string) :=
  if String.eqb key "" || bool_decide (columns = []) then
    (e, (Ok false, "Key and columns cannot be empty"))
  else if bool_decide (columns = []) then
    (e, (Ok false, "Columns vector cannot be empty"))
  else if g_use_composite_key_method then
    set_composite_keys columns e tx_id table_name key error_msg
  else
    let '(e1, (existing_result, error_msg1)) :=
      get_all_columns kvt_scan kvt_get g_use_composite_key_method e
                      tx_id table_name key error_msg in
    match existing_result with
    | Throw ex => (e1, (Throw ex, error_msg1))
    | Ok existing =>
        let column_map := assign_columns columns (assign_columns existing []) in
        let merged := map (fun '(col, val) => {| column := col; value := val |})
                          column_map in
        match serialize_columns merged with
        | Throw ex => (e1, (Throw ex, error_msg1))
        | Ok serialized =>
            let '(e2, (ok, error_msg2)) :=
              kvt_set e1 tx_id table_name key serialized error_msg1 in
            (e2, (Ok ok, error_msg2))
        end
    end.

(** The operations of the adapter as data, and the engine after one of them,
    whether it returned [true], returned [false] or threw. *)
Inductive operation :=
  | SetColumn (key col val : string)
  | GetColumn (key col : string)
  | DeleteColumn (key col : string)
  | GetAllColumns (key : string)
  | DeleteKey (key : string)
  | SetColumns (key : string) (columns : list ColumnValue).

Definition run_operation (g_use_composite_key_method : bool) (tx_id : Z)
    (table_name : string) (e : E) (o : operation) : E :=
  match o with
  | SetColumn key col val =>
      fst (set_column g_use_composite_key_method e tx_id table_name key col val "")
  | GetColumn key col =>
      fst (get_column g_use_composite_key_method e tx_id table_name key col "" "")
  | DeleteColumn key col =>
      fst (delete_column g_use_composite_key_method e tx_id table_name key col "")
  | GetAllColumns key =>
      fst (get_all_columns kvt_scan kvt_get g_use_composite_key_method e
                           tx_id table_name key "")
  | DeleteKey key =>
      fst (delete_key g_use_composite_key_method e tx_id table_name key "")
  | SetColumns key columns =>
      fst (set_columns g_use_composite_key_method e tx_id table_name key columns "")
  end.

End column_operations.

(** The value that the columns hold for [col]: what the search of
    [get_column] finds. *)
Definition column_value (columns : list ColumnValue) (col : string) : option string :=
  Serialization.value <$> at_column columns (lower_bound columns col) col.

(** The value of the last element of [columns] that has the column [col]. *)
Fixpoint last_value (columns : list ColumnValue) (col : string) : option string :=
  match columns with
  | [] => None
  | cv :: tl =>
      match last_value tl col with
      | Some v => Some v
      | None =>
          if String.eqb (Serialization.column cv) col then Some (Serialization.value cv)
          else None
      end
  end.

(** The list that [set_columns] stores in the serialized layout. *)
Definition merge_columns (existing columns : list ColumnValue) : list ColumnValue :=
  map (fun '(col, val) => {| column := col; value := val |})
      (assign_columns columns (assign_columns existing [])).

End InMemoryAdapter.

(** ** [JanusGraphKVTAdapter::get_all_columns], table-id adapter
    (janusgraph-kvt/kvt_adaptor/janusgraph_kvt_adapter.h) *)

Module KvtAdapter.
Import Serialization.
Import Kvt.

(** ASCII 0x1F, the unit separator. *)
Definition KEY_COLUMN_SEPARATOR : ascii := ascii_of_N 31.

Section adapter.
Context {E : Type}.
Variable kvt_scan :
  E -> Z -> Z -> string -> string -> Z -> list (string * string) -> string ->
  E * (KVTError * list (string * string) * string).
Variable kvt_get :
  E -> Z -> Z -> string -> string -> string -> E * (KVTError * string * string).

Definition get_all_columns (g_use_composite_key_method : bool) (e : E)
    (tx_id table_id : Z) (key error_msg : string)
  : E * (result (list ColumnValue) * string) :=
  if g_use_composite_key_method then
    let start_key := key +:+ string1 KEY_COLUMN_SEPARATOR in
    let end_key := key +:+ string1 (separator_succ KEY_COLUMN_SEPARATOR) in
    let '(e', (err, scan_results, error_msg')) :=
      kvt_scan e tx_id table_id start_key end_key 10000 [] error_msg in
    if bool_decide (err = SUCCESS) then
      (e', (collect_columns KEY_COLUMN_SEPARATOR key scan_results [], error_msg'))
    else (e', (Ok [], error_msg'))
  else
    let '(e', (err, serialized, error_msg')) :=
      kvt_get e tx_id table_id key "" error_msg in
    if bool_decide (err = SUCCESS) then (e', (deserialize_columns serialized, error_msg'))
    else (e', (Ok [], error_msg')).
End adapter.

(** *** [batch_execute]

    The fields [key], [column] and [value] of [JanusGraphBatchOp], and
    [value] and [error_msg] of [JanusGraphBatchResult], carry a prefix here.
    [KVTIdOp] is the [KVTOp] of the table-id interface, with the fields the
    adapter fills in: [op], [table_id], [key], [value]. *)

Inductive OpType := GET_COLUMN | SET_COLUMN | DELETE_COLUMN.

Record JanusGraphBatchOp := mkBatchOp {
  type : OpType;
  jg_key : string;
  jg_column : string;
  jg_value : string
}.

Record JanusGraphBatchResult := mkBatchResult {
  success : bool;
  jg_result_value : string;
  jg_error_msg : string
}.

Record KVTIdOp := mkIdOp {
  id_op : KVT_OPType;
  table_id : Z;
  id_key : string;
  id_value : string
}.

(** The [switch] of the conversion loop, with the composite key at hand. *)
Definition to_kvt_op (table_id : Z) (jg_op : JanusGraphBatchOp) (composite_key : string)
  : KVTIdOp :=
  match type jg_op with
  | GET_COLUMN =>
      {| id_op := OP_GET; table_id := table_id; id_key := composite_key; id_value := "" |}
  | SET_COLUMN =>
      {| id_op := OP_SET; table_id := table_id; id_key := composite_key;
         id_value := jg_value jg_op |}
  | DELETE_COLUMN =>
      {| id_op := OP_DEL; table_id := table_id; id_key := composite_key; id_value := "" |}
  end.

(** How the conversion loop ends: with the engine's operations, with the
    refusal of the serialized layout, or with an exception. *)
Inductive conversion :=
  | Converted (kvt_ops : list KVTIdOp)
  | Unsupported
  | Invalid (ex : exn).

Fixpoint convert_ops (g_use_composite_key_method : bool) (table_id : Z)
    (jg_ops : list JanusGraphBatchOp) (kvt_ops : list KVTIdOp) : conversion :=
  match jg_ops with
  | [] => Converted kvt_ops
  | jg_op :: tl =>
      if g_use_composite_key_method then
        match make_composite_key KEY_COLUMN_SEPARATOR (jg_key jg_op) (jg_column jg_op) with
        | Throw ex => Invalid ex
        | Ok composite_key =>
            convert_ops g_use_composite_key_method table_id tl
                        (kvt_ops ++ [to_kvt_op table_id jg_op composite_key])
        end
      else Unsupported
  end.

(** One converted result. *)
Definition to_jg_result (jg_op : JanusGraphBatchOp) (i : nat) (r : KVTOpResult)
  : JanusGraphBatchResult :=
  let success := bool_decide (error r = SUCCESS) in
  {| success := success;
     jg_result_value :=
       match type jg_op with
       | GET_COLUMN => if success then result_value r else ""
       | _ => ""
       end;
     jg_error_msg :=
       if negb success then "Operation " +:+ to_string (Z.of_nat i) +:+ " failed"
       else "" |}.

(** The loop over [kvt_results] from index [i] on; [jg_ops[i]] beyond the
    end of [jg_ops] has no defined behaviour, hence [None]. *)
Fixpoint convert_results (jg_ops : list JanusGraphBatchOp)
    (kvt_results : list KVTOpResult) (i : nat)
    (jg_results : list JanusGraphBatchResult) : option (list JanusGraphBatchResult) :=
  match kvt_results with
  | [] => Some jg_results
  | r :: tl =>
      match jg_ops !! i with
      | None => None
      | Some jg_op =>
          convert_results jg_ops tl (S i) (jg_results ++ [to_jg_result jg_op i r])
      end
  end.

Section batch.
Context {E : Type}.
Variable kvt_batch_execute :
  E -> Z -> list KVTIdOp -> list KVTOpResult -> string ->
  E * (KVTError * list KVTOpResult * string).

Definition batch_execute (g_use_composite_key_method : bool) (e : E)
    (tx_id table_id : Z) (jg_ops : list JanusGraphBatchOp)
    (jg_results : list JanusGraphBatchResult) (error_msg : string)
  : option (E * (result bool * list JanusGraphBatchResult * string)) :=
  match convert_ops g_use_composite_key_method table_id jg_ops [] with
  | Invalid ex => Some (e, (Throw ex, jg_results, error_msg))
  | Unsupported =>
      Some (e, (Ok false, jg_results,
                "Batch operations not yet fully supported for serialized column method"))
  | Converted kvt_ops =>
      let '(e', (result, kvt_results, error_msg')) :=
        kvt_batch_execute e tx_id kvt_ops [] error_msg in
      match convert_results jg_ops kvt_results 0 [] with
      | None => None
      | Some jg_results' =>
          Some (e', (Ok (bool_decide (result = SUCCESS)
                         || bool_decide (result = BATCH_NOT_FULLY_SUCCESS)),
                     jg_results', error_msg'))
      end
  end.
End batch.

End KvtAdapter.

(** ** The optimistic engine's commit

    [KVTManagerWrapperOCC] is declared in janusgraph-kvt/kvt/kvt_mem.h; the
    bodies of its methods are not part of the sources at hand. *)

Module OCC.
Import Kvt.

(** [KVTManagerWrapperBase::Entry]: under OCC [metadata] is the version. *)
Record Entry := mkEntry {
  data : string;
  metadata : Z
}.

(** What a transaction saw of a key when it first touched it: the entry's
    version, or that the key had no entry. *)
Inductive observation :=
  | ObservedVersion (version : Z)
  | ObservedAbsent.

#[global] Instance observation_eq_dec : EqDecision observation.
Proof. solve_decision. Defined.

(** A buffered write: the new value and, for a key lifted from the read-set
    (or first seen absent), the observation carried forward. *)
Record Write := mkWrite {
  new_value : string;
  observed : option observation
}.

(** A fully-qualified key is the pair of table id and key. *)
Record Transaction := mkTx {
  tx_id : Z;
  read_set : gmap (Z * string) observation;
  write_set : gmap (Z * string) Write;
  delete_set : gset (Z * string)
}.

Record KVTManagerWrapperOCC := mkOCC {
  store : gmap (Z * string) Entry;
  transactions : gmap Z Transaction;
  next_tx_id : Z
}.

(** An observation is still valid when the current entry carries the observed
    version, or when a key observed absent is still absent. *)
Definition still_valid (current : option Entry) (o : observation) : bool :=
  match o, current with
  | ObservedVersion v, Some e => metadata e =? v
  | ObservedVersion _, None => false
  | ObservedAbsent, None => true
  | ObservedAbsent, Some _ => false
  end.

(** A write is checked only when it carries an observation. *)
Definition write_still_valid (current : option Entry) (w : Write) : bool :=
  match observed w with
  | Some o => still_valid current o
  | None => true
  end.

(** The validation phase: a pass over the read-set, then over the write-set. *)
Definition validate (st : gmap (Z * string) Entry) (tx : Transaction) : bool :=
  forallb (fun ko => still_valid (st !! fst ko) (snd ko)) (map_to_list (read_set tx))
  && forallb (fun kw => write_still_valid (st !! fst kw) (snd kw))
             (map_to_list (write_set tx)).

Definition observed_version (w : Write) : Z :=
  match observed w with
  | Some (ObservedVersion v) => v
  | _ => 0
  end.

Definition current_version (current : option Entry) : Z :=
  match current with
  | Some e => metadata e
  | None => 0
  end.

(** Install one write with version [max(observed, current) + 1]. *)
Definition install_write (st : gmap (Z * string) Entry) (kw : (Z * string) * Write)
  : gmap (Z * string) Entry :=
  let '(k, w) := kw in
  <[k := {| data := new_value w;
            metadata := Z.max (observed_version w) (current_version (st !! k)) + 1 |}]> st.

Definition install (st : gmap (Z * string) Entry) (tx : Transaction)
  : gmap (Z * string) Entry :=
  let written := fold_left install_write (map_to_list (write_set tx)) st in
  fold_left (fun acc k => delete k acc) (elements (delete_set tx)) written.

(** The observation a transaction holds for key [k]: in its read-set, or
    lifted into its write-set. *)
Definition holds_observation (tx : Transaction) (k : Z * string) (o : observation) : Prop :=
  read_set tx !! k = Some o
  \/ exists w, write_set tx !! k = Some w /\ observed w = Some o.

(** The observation no longer matches the store: the entry's version differs
    from the observed one, or a key observed absent now has an entry. *)
Definition changed_since (current : option Entry) (o : observation) : Prop :=
  match o with
  | ObservedVersion v => exists e, current = Some e /\ metadata e <> v
  | ObservedAbsent => exists e, current = Some e
  end.

(** Modelled from the spec: the body of
    [KVTManagerWrapperOCC::commit_transaction], which is only declared in the
    header.  Section 4.4: validate every key of the read-set and every
    observation lifted into the write-set against the current entries; on a
    mismatch return [TRANSACTION_HAS_STALE_DATA] and discard the context
    without installing; otherwise install the writes, erase the deletions and
    discard the context.  Section 4.2: an unknown id fails with
    [TRANSACTION_NOT_FOUND]. *)
Definition commit_transaction (m : KVTManagerWrapperOCC) (id : Z) (error_msg : string)
  : KVTManagerWrapperOCC * (KVTError * string) :=
  match transactions m !! id with
  | None =>
      (m, (TRANSACTION_NOT_FOUND, "Transaction " +:+ to_string id +:+ " not found"))
  | Some tx =>
      if validate (store m) tx then
        ({| store := install (store m) tx;
            transactions := delete id (transactions m);
            next_tx_id := next_tx_id m |},
         (SUCCESS, error_msg))
      else
        ({| store := store m;
            transactions := delete id (transactions m);
            next_tx_id := next_tx_id m |},
         (TRANSACTION_HAS_STALE_DATA,
          "Transaction " +:+ to_string id +:+ " has stale data"))
  end.

End OCC.

(** * Properties *)

(** ** The ordered map *)

Section std_map.
Context {V : Type}.
Implicit Types (m : list (string * V)) (k : string) (v : V).

Lemma compare_refl k : String.compare k k = Eq.
Proof. apply OrderedTypeEx.String_as_OT.cmp_eq. reflexivity. Qed.

Lemma compare_gt_lt a b : String.compare a b = Gt -> String.compare b a = Lt.
Proof. rewrite (String.compare_antisym b a). intros ->. reflexivity. Qed.

Lemma compare_lt_gt a b : String.compare a b = Lt -> String.compare b a = Gt.
Proof. rewrite (String.compare_antisym b a). intros ->. reflexivity. Qed.

Lemma compare_lt_trans a b c :
  String.compare a b = Lt -> String.compare b c = Lt -> String.compare a c = Lt.
Proof.
  intros Hab Hbc. apply OrderedTypeEx.String_as_OT.cmp_lt.
  apply OrderedTypeEx.String_as_OT.cmp_lt in Hab, Hbc.
  eapply OrderedTypeEx.String_as_OT.lt_trans; eauto.
Qed.

Lemma ltb_compare a b : String.ltb a b = true <-> String.compare a b = Lt.
Proof. unfold String.ltb. destruct (String.compare a b); split; congruence. Qed.

Lemma ordered_cons k v m :
  StdMap.ordered ((k, v) :: m) = StdMap.head_above k m && StdMap.ordered m.
Proof. destruct m as [|[k' v'] m']; reflexivity. Qed.

Lemma ordered_tail k v m : StdMap.ordered ((k, v) :: m) = true -> StdMap.ordered m = true.
Proof. rewrite ordered_cons. intros H. apply andb_prop in H. tauto. Qed.

Lemma ordered_head k v m :
  StdMap.ordered ((k, v) :: m) = true -> StdMap.head_above k m = true.
Proof. rewrite ordered_cons. intros H. apply andb_prop in H. tauto. Qed.

Lemma head_above_trans k0 k m :
  String.compare k0 k = Lt -> StdMap.head_above k m = true ->
  StdMap.head_above k0 m = true.
Proof.
  destruct m as [|[k' v'] m']; [reflexivity|]. cbn. intros H0 H1.
  apply ltb_compare. apply ltb_compare in H1. eapply compare_lt_trans; eauto.
Qed.

(** A key at or below a bound under the head of [m] is not in [m]. *)
Lemma find_below k k0 m :
  StdMap.head_above k0 m = true ->
  String.compare k k0 = Lt \/ k = k0 ->
  StdMap.find k m = None.
Proof.
  destruct m as [|[k1 v1] m']; [reflexivity|]. cbn. intros Hh Hk.
  apply ltb_compare in Hh.
  replace (String.compare k k1) with Lt; [reflexivity|].
  symmetry. destruct Hk as [Hk | ->]; [eapply compare_lt_trans; eauto | exact Hh].
Qed.

Lemma keys_above k0 k m :
  StdMap.ordered m = true -> StdMap.head_above k0 m = true ->
  k ∈ StdMap.keys m -> String.compare k0 k = Lt.
Proof.
  revert k0. induction m as [|[k1 v1] m IH]; intros k0 Ho Hh Hk.
  - apply elem_of_nil in Hk. contradiction.
  - cbn in Hh. apply ltb_compare in Hh.
    apply elem_of_cons in Hk as [->|Hk]; [exact Hh|].
    eapply compare_lt_trans; [exact Hh|].
    apply IH; [eapply ordered_tail; eauto | eapply ordered_head; eauto | exact Hk].
Qed.

(** In an ordered map every key of the list is found. *)
Lemma find_keys k m :
  StdMap.ordered m = true -> k ∈ StdMap.keys m -> is_Some (StdMap.find k m).
Proof.
  induction m as [|[k1 v1] m IH]; intros Ho Hk.
  - apply elem_of_nil in Hk. contradiction.
  - cbn. apply elem_of_cons in Hk as [->|Hk].
    + rewrite compare_refl. eauto.
    + rewrite (compare_lt_gt k1 k).
      * apply IH; [eapply ordered_tail; eauto | exact Hk].
      * eapply keys_above; [eapply ordered_tail; eauto | eapply ordered_head; eauto | exact Hk].
Qed.

Lemma find_insert_same k v m :
  StdMap.find k (StdMap.insert k v m)
  = match StdMap.find k m with
    | Some v0 => Some v0
    | None => Some v
    end.
Proof.
  induction m as [|[k' v'] m' IH]; cbn.
  - rewrite compare_refl. reflexivity.
  - destruct (String.compare k k') eqn:E; cbn; rewrite ?E, ?compare_refl; auto.
Qed.

Lemma find_insert_other k2 k v m :
  k2 <> k -> StdMap.find k2 (StdMap.insert k v m) = StdMap.find k2 m.
Proof.
  intros Hne. induction m as [|[k' v'] m' IH]; cbn.
  - destruct (String.compare k2 k) eqn:E; auto.
    apply String.compare_eq_iff in E. contradiction.
  - destruct (String.compare k k') eqn:E; cbn; auto.
    + destruct (String.compare k2 k) eqn:E2; auto.
      * apply String.compare_eq_iff in E2. contradiction.
      * rewrite (compare_lt_trans _ _ _ E2 E). reflexivity.
    + destruct (String.compare k2 k'); auto.
Qed.

Lemma head_above_insert k0 k v m :
  StdMap.head_above k0 m = true -> String.compare k0 k = Lt ->
  StdMap.head_above k0 (StdMap.insert k v m) = true.
Proof.
  destruct m as [|[k' v'] m']; cbn; intros Hh Hk.
  - apply ltb_compare. exact Hk.
  - destruct (String.compare k k'); cbn; auto. apply ltb_compare. exact Hk.
Qed.

Lemma ordered_insert k v m :
  StdMap.ordered m = true -> StdMap.ordered (StdMap.insert k v m) = true.
Proof.
  induction m as [|[k' v'] m' IH]; intros Ho; [reflexivity|].
  cbn [StdMap.insert]. destruct (String.compare k k') eqn:E.
  - exact Ho.
  - rewrite ordered_cons, Ho. cbn. rewrite (proj2 (ltb_compare k k') E). reflexivity.
  - rewrite ordered_cons. rewrite IH by (eapply ordered_tail; eauto).
    rewrite head_above_insert; [reflexivity | eapply ordered_head; eauto |].
    apply compare_gt_lt. exact E.
Qed.

Lemma find_assign_same k v m : StdMap.find k (StdMap.assign k v m) = Some v.
Proof.
  induction m as [|[k' v'] m' IH]; cbn.
  - rewrite compare_refl. reflexivity.
  - destruct (String.compare k k') eqn:E; cbn; rewrite ?E, ?compare_refl; auto.
Qed.

Lemma find_assign_other k2 k v m :
  k2 <> k -> StdMap.find k2 (StdMap.assign k v m) = StdMap.find k2 m.
Proof.
  intros Hne. induction m as [|[k' v'] m' IH]; cbn.
  - destruct (String.compare k2 k) eqn:E; auto.
    apply String.compare_eq_iff in E. contradiction.
  - destruct (String.compare k k') eqn:E; cbn; auto.
    + apply String.compare_eq_iff in E. subst k'.
      destruct (String.compare k2 k) eqn:E2; auto.
      apply String.compare_eq_iff in E2. contradiction.
    + destruct (String.compare k2 k) eqn:E2; auto.
      * apply String.compare_eq_iff in E2. contradiction.
      * rewrite (compare_lt_trans _ _ _ E2 E). reflexivity.
    + destruct (String.compare k2 k'); auto.
Qed.

Lemma head_above_assign k0 k v m :
  StdMap.head_above k0 m = true -> String.compare k0 k = Lt ->
  StdMap.head_above k0 (StdMap.assign k v m) = true.
Proof.
  destruct m as [|[k' v'] m']; cbn; intros Hh Hk.
  - apply ltb_compare. exact Hk.
  - destruct (String.compare k k'); cbn; auto. apply ltb_compare. exact Hk.
Qed.

Lemma ordered_assign k v m :
  StdMap.ordered m = true -> StdMap.ordered (StdMap.assign k v m) = true.
Proof.
  induction m as [|[k' v'] m' IH]; intros Ho; [reflexivity|].
  cbn [StdMap.assign]. destruct (String.compare k k') eqn:E.
  - rewrite ordered_cons in *. exact Ho.
  - rewrite ordered_cons, Ho. cbn. rewrite (proj2 (ltb_compare k k') E). reflexivity.
  - rewrite ordered_cons. rewrite IH by (eapply ordered_tail; eauto).
    rewrite head_above_assign; [reflexivity | eapply ordered_head; eauto |].
    apply compare_gt_lt. exact E.
Qed.

Lemma find_erase_same k m :
  StdMap.ordered m = true -> StdMap.find k (StdMap.erase k m) = None.
Proof.
  induction m as [|[k' v'] m' IH]; intros Ho; [reflexivity|].
  cbn [StdMap.erase]. destruct (String.compare k k') eqn:E.
  - apply String.compare_eq_iff in E. subst k'.
    eapply find_below; [eapply ordered_head; eauto | auto].
  - cbn. rewrite E. reflexivity.
  - cbn. rewrite E. apply IH. eapply ordered_tail; eauto.
Qed.

Lemma find_erase_other k2 k m :
  k2 <> k -> StdMap.ordered m = true ->
  StdMap.find k2 (StdMap.erase k m) = StdMap.find k2 m.
Proof.
  intros Hne. induction m as [|[k' v'] m' IH]; intros Ho; [reflexivity|].
  cbn [StdMap.erase]. destruct (String.compare k k') eqn:E; [|reflexivity|].
  - apply String.compare_eq_iff in E. subst k'. cbn.
    destruct (String.compare k2 k) eqn:E2; auto.
    + apply String.compare_eq_iff in E2. contradiction.
    + eapply find_below; [eapply ordered_head; eauto | auto].
  - cbn. destruct (String.compare k2 k'); auto. apply IH. eapply ordered_tail; eauto.
Qed.

Lemma ordered_erase k m :
  StdMap.ordered m = true -> StdMap.ordered (StdMap.erase k m) = true.
Proof.
  induction m as [|[k' v'] m' IH]; intros Ho; [reflexivity|].
  cbn [StdMap.erase]. destruct (String.compare k k') eqn:E.
  - eapply ordered_tail; eauto.
  - exact Ho.
  - rewrite ordered_cons. rewrite IH by (eapply ordered_tail; eauto).
    rewrite Bool.andb_true_r.
    pose proof (ordered_head _ _ _ Ho) as Hh. pose proof (ordered_tail _ _ _ Ho) as Ht.
    destruct m' as [|[k1 v1] m1]; [reflexivity|].
    cbn [StdMap.erase]. destruct (String.compare k k1) eqn:E1; cbn; auto.
    cbn in Hh. apply ltb_compare in Hh.
    eapply head_above_trans; [exact Hh | eapply ordered_head; eauto].
Qed.

(** The range insertion keeps committed bindings and adds, for a key that
    has none, the first binding of the range. *)
Lemma find_insert_range k (r : list (string * V)) : forall m,
  StdMap.find k (StdMap.insert_range r m)
  = match StdMap.find k m with
    | Some v0 => Some v0
    | None => (list_to_map r : gmap string V) !! k
    end.
Proof.
  unfold StdMap.insert_range.
  induction r as [|[k1 v1] r IH]; intros m; cbn [fold_left fst snd].
  - rewrite list_to_map_nil, lookup_empty. destruct (StdMap.find k m); reflexivity.
  - rewrite IH, list_to_map_cons. destruct (decide (k = k1)) as [->|Hne].
    + rewrite find_insert_same, lookup_insert_eq.
      destruct (StdMap.find k1 m); reflexivity.
    + rewrite find_insert_other, lookup_insert_ne by congruence. reflexivity.
Qed.

Lemma ordered_insert_range (r : list (string * V)) : forall m,
  StdMap.ordered m = true -> StdMap.ordered (StdMap.insert_range r m) = true.
Proof.
  unfold StdMap.insert_range.
  induction r as [|[k1 v1] r IH]; intros m Ho; cbn [fold_left]; [exact Ho|].
  apply IH, ordered_insert, Ho.
Qed.

Lemma ordered_erase_all (ks : list string) : forall m,
  StdMap.ordered m = true ->
  StdMap.ordered (fold_left (fun acc key => StdMap.erase key acc) ks m) = true.
Proof.
  induction ks as [|k1 ks IH]; intros m Ho; cbn [fold_left]; [exact Ho|].
  apply IH, ordered_erase, Ho.
Qed.

Lemma find_erase_all k (ks : list string) : forall m,
  StdMap.ordered m = true ->
  StdMap.find k (fold_left (fun acc key => StdMap.erase key acc) ks m)
  = if bool_decide (k ∈ ks) then None else StdMap.find k m.
Proof.
  induction ks as [|k1 ks IH]; intros m Ho; cbn [fold_left].
  - rewrite bool_decide_eq_false_2; [reflexivity | apply not_elem_of_nil].
  - rewrite IH by (apply ordered_erase, Ho).
    destruct (decide (k = k1)) as [->|Hne].
    + rewrite (bool_decide_eq_true_2 (k1 ∈ k1 :: ks)) by apply list_elem_of_here.
      rewrite find_erase_same by exact Ho. destruct (bool_decide _); reflexivity.
    + rewrite find_erase_other by auto.
      destruct (bool_decide (k ∈ ks)) eqn:Hin.
      * apply bool_decide_eq_true_1 in Hin.
        rewrite bool_decide_eq_true_2; [reflexivity | apply list_elem_of_further, Hin].
      * apply bool_decide_eq_false_1 in Hin.
        rewrite bool_decide_eq_false_2; [reflexivity|].
        intros Hc. apply elem_of_cons in Hc as [?|?]; contradiction.
Qed.

Lemma leb_ltb a b : String.leb a b = negb (String.ltb b a).
Proof.
  unfold String.leb, String.ltb. rewrite (String.compare_antisym a b).
  destruct (String.compare b a); reflexivity.
Qed.

Lemma lower_bound_le a m : (StdMap.lower_bound a m <= length m)%nat.
Proof.
  induction m as [|[k v] m IH]; cbn; [lia|]. destruct (String.ltb k a); lia.
Qed.

Lemma upper_bound_le b m : (StdMap.upper_bound b m <= length m)%nat.
Proof.
  induction m as [|[k v] m IH]; cbn; [lia|]. destruct (String.ltb b k); lia.
Qed.

Lemma filter_above a b k m :
  StdMap.ordered m = true -> StdMap.head_above k m = true ->
  String.compare b k = Lt ->
  List.filter (StdMap.in_range a b) m = [].
Proof.
  revert k. induction m as [|[k1 v1] m IH]; intros k Ho Hh Hb; [reflexivity|].
  cbn in Hh. apply ltb_compare in Hh.
  pose proof (compare_lt_trans _ _ _ Hb Hh) as Hb1.
  cbn [List.filter]. unfold StdMap.in_range at 1. cbn [fst].
  rewrite (leb_ltb k1 b), (proj2 (ltb_compare b k1) Hb1), Bool.andb_false_r.
  eapply IH; [eapply ordered_tail; eauto | eapply ordered_head; eauto | exact Hb1].
Qed.

(** Between [lower_bound a] and [upper_bound b] lie exactly the bindings
    whose key is in the closed range from [a] to [b]. *)
Lemma bounds_segment a b m :
  StdMap.ordered m = true -> String.leb a b = true ->
  (StdMap.lower_bound a m <= StdMap.upper_bound b m)%nat
  /\ take (StdMap.upper_bound b m - StdMap.lower_bound a m)
          (drop (StdMap.lower_bound a m) m)
     = List.filter (StdMap.in_range a b) m.
Proof.
  intros Ho Hab. rewrite leb_ltb in Hab. apply Bool.negb_true_iff in Hab.
  induction m as [|[k v] m IH]; [split; [cbn; lia | reflexivity]|].
  pose proof (ordered_tail _ _ _ Ho) as Ht. pose proof (ordered_head _ _ _ Ho) as Hh.
  specialize (IH Ht). destruct IH as [IHle IHseg].
  cbn [StdMap.lower_bound StdMap.upper_bound List.filter].
  unfold StdMap.in_range at 1. cbn [fst]. rewrite (leb_ltb a k), (leb_ltb k b).
  destruct (String.ltb k a) eqn:Hka.
  - assert (Hbk : String.ltb b k = false).
    { destruct (String.ltb b k) eqn:Hbk; [|reflexivity].
      apply ltb_compare in Hbk, Hka.
      pose proof (compare_lt_trans _ _ _ Hbk Hka) as Hba.
      apply ltb_compare in Hba. congruence. }
    rewrite Hbk. cbn [negb andb]. split; [lia|].
    cbn [drop]. replace (S _ - S _)%nat with
      (StdMap.upper_bound b m - StdMap.lower_bound a m)%nat by lia.
    exact IHseg.
  - cbn [negb andb]. destruct (String.ltb b k) eqn:Hbk; cbn [negb].
    + split; [lia|]. cbn [take drop Nat.sub].
      symmetry. eapply filter_above; [exact Ht | exact Hh | apply ltb_compare, Hbk].
    + split; [lia|]. cbn [drop Nat.sub take]. f_equal.
      assert (Hlb : StdMap.lower_bound a m = 0%nat).
      { destruct m as [|[k1 v1] m1]; [reflexivity|]. cbn.
        destruct (String.ltb k1 a) eqn:Hk1; [|reflexivity].
        cbn in Hh. apply ltb_compare in Hh, Hk1.
        pose proof (compare_lt_trans _ _ _ Hh Hk1) as Hc.
        apply ltb_compare in Hc. congruence. }
      rewrite Hlb in IHseg. rewrite Nat.sub_0_r in IHseg. exact IHseg.
Qed.

Lemma compare_append_l p a b :
  String.compare (p +:+ a) (p +:+ b) = String.compare a b.
Proof.
  induction p as [|c p IH]; [reflexivity|].
  change (String c p +:+ a) with (String c (p +:+ a)).
  change (String c p +:+ b) with (String c (p +:+ b)).
  cbn [String.compare]. rewrite IH.
  replace (Ascii.compare c c) with Eq; [reflexivity|].
  symmetry. unfold Ascii.compare. apply N.compare_refl.
Qed.

End std_map.

(** ** The serialized engine *)

Section simple_engine.
Import Simple.

Lemma scan_loop_write_set rest : forall itr end_itr lim ds ws results ws' results',
  scan_loop rest itr end_itr lim ds ws results = Some (ws', results') -> ws' = ws.
Proof.
  induction rest as [|[k v] rest IH]; intros itr end_itr lim ds ws results ws' results';
    cbn [scan_loop].
  - destruct (itr =? end_itr)%nat; [intros [= <- _]; reflexivity|].
    destruct (negb _); [intros [= <- _]; reflexivity | discriminate].
  - destruct (itr =? end_itr)%nat; [intros [= <- _]; reflexivity|].
    destruct (negb _); [intros [= <- _]; reflexivity |].
    destruct (bool_decide _); [apply IH|].
    unfold write_set_index.
    destruct (ws !! k) eqn:Hk; apply IH.
Qed.

Lemma scan_state s tx_id t ks ke lim results e s' out :
  scan s tx_id t ks ke lim results e = Some (s', out) -> s' = s.
Proof.
  unfold scan. destruct (_ && _); [intros [= <- _]; reflexivity|].
  destruct (scan_loop _ _ _ _ _ _ _) as [[ws' r']|] eqn:Hl; [|discriminate].
  apply scan_loop_write_set in Hl. subst ws'.
  intros [= <- _]. destruct s; reflexivity.
Qed.

Lemma idle_guard s tx_id :
  current_tx_id s = 0 -> tx_id <> 0 ->
  negb false && negb (current_tx_id s =? tx_id) = false -> False.
Proof.
  intros Hc Htx Hg. rewrite Hc in Hg.
  destruct (Z.eqb_spec 0 tx_id); [congruence | discriminate].
Qed.

Lemma step_consistent s c s' :
  buffers_consistent s -> step s c = Some s' -> buffers_consistent s'.
Proof.
  intros [Hdisj Hidle]. destruct c; cbn [step].
  - intros [= <-]. unfold create_table.
    destruct (table_to_id s !! table_name); split; cbn; auto.
  - intros [= <-]. unfold start_transaction.
    destruct (current_tx_id s =? 0) eqn:Hc; cbn; [|split; auto].
    apply Z.eqb_eq in Hc. destruct (Hidle Hc) as [Hw Hd].
    split; cbn; [intros k Hk; rewrite Hw; apply lookup_empty | auto].
  - intros [= <-]. unfold commit_transaction.
    destruct (current_tx_id s =? tx_id); cbn; [|split; auto].
    split; cbn; [intros k Hk; apply lookup_empty | auto].
  - intros [= <-]. unfold rollback_transaction.
    destruct (current_tx_id s =? tx_id); cbn; [|split; auto].
    split; cbn; [intros k Hk; apply lookup_empty | auto].
  - intros [= <-]. unfold get.
    repeat (match goal with |- context [if ?b then _ else _] => destruct b end
            || match goal with |- context [match ?o with Some _ => _ | None => _ end] =>
                 destruct o end); cbn; split; auto.
  - intros [= <-]. unfold set.
    destruct (negb (tx_id =? 0) && negb (current_tx_id s =? tx_id)) eqn:Hg;
      [split; auto|].
    destruct (Z.eqb_spec tx_id 0) as [Htx|Htx]; cbn; [split; auto|].
    split; cbn.
    + intros k Hk. apply elem_of_difference in Hk as [Hk Hne].
      rewrite lookup_insert_ne; [auto|].
      intros Heq. apply Hne, elem_of_singleton. symmetry. exact Heq.
    + intros Hc. exfalso. apply (idle_guard _ _ Hc Htx Hg).
  - intros [= <-]. unfold del.
    destruct (negb (tx_id =? 0) && negb (current_tx_id s =? tx_id)) eqn:Hg;
      [split; auto|].
    destruct (Z.eqb_spec tx_id 0) as [Htx|Htx]; cbn; [split; auto|].
    split; cbn.
    + intros k Hk. destruct (decide (k = make_table_key table_name key)) as [->|Hne].
      * apply lookup_delete_eq.
      * rewrite lookup_delete_ne by congruence. apply Hdisj.
        apply elem_of_union in Hk as [Hk|Hk]; [exact Hk|].
        apply elem_of_singleton in Hk. contradiction.
    + intros Hc. exfalso. apply (idle_guard _ _ Hc Htx Hg).
  - destruct (scan s tx_id table_name key_start key_end num_item_limit [] "")
      as [[s1 out]|] eqn:Hs; cbn; [|discriminate].
    intros [= <-]. apply scan_state in Hs. subst s1. split; auto.
Qed.

Lemma reachable_consistent s : reachable s -> buffers_consistent s.
Proof.
  intros [cs Hrun].
  assert (Hinit : buffers_consistent init).
  { split; cbn; [intros k Hk; apply lookup_empty | auto]. }
  revert Hrun Hinit. generalize init as s0.
  induction cs as [|c cs IH]; intros s0 Hrun Hs0; cbn in Hrun.
  - injection Hrun as <-. exact Hs0.
  - destruct (step s0 c) as [s1|] eqn:Hstep; [|discriminate].
    eapply IH; [exact Hrun|]. eapply step_consistent; eauto.
Qed.

Lemma step_ordered s c s' :
  StdMap.ordered (table_data s) = true -> step s c = Some s' ->
  StdMap.ordered (table_data s') = true.
Proof.
  intros Ho. destruct c; cbn [step].
  - intros [= <-]. unfold create_table. destruct (table_to_id s !! table_name); exact Ho.
  - intros [= <-]. unfold start_transaction. destruct (negb _); exact Ho.
  - intros [= <-]. unfold commit_transaction. destruct (negb _); [exact Ho|].
    cbn. apply ordered_erase_all, ordered_insert_range, Ho.
  - intros [= <-]. unfold rollback_transaction. destruct (negb _); exact Ho.
  - intros [= <-]. unfold get.
    repeat (match goal with
            | |- context [if ?b then _ else _] => destruct b
            | |- context [match ?o with Some _ => _ | None => _ end] => destruct o
            end); exact Ho.
  - intros [= <-]. unfold set. destruct (_ && _); [exact Ho|].
    destruct (tx_id =? 0); cbn; [apply ordered_assign, Ho | exact Ho].
  - intros [= <-]. unfold del. destruct (_ && _); [exact Ho|].
    destruct (tx_id =? 0); cbn; [apply ordered_erase, Ho | exact Ho].
  - destruct (scan s tx_id table_name key_start key_end num_item_limit [] "")
      as [[s1 out]|] eqn:Hs; cbn; [|discriminate].
    intros [= <-]. apply scan_state in Hs. subst s1. exact Ho.
Qed.

Lemma reachable_ordered s : reachable s -> StdMap.ordered (table_data s) = true.
Proof.
  intros [cs Hrun].
  assert (Hinit : StdMap.ordered (table_data init) = true) by reflexivity.
  revert Hrun Hinit. generalize init as s0.
  induction cs as [|c cs IH]; intros s0 Hrun Hs0; cbn in Hrun.
  - injection Hrun as <-. exact Hs0.
  - destruct (step s0 c) as [s1|] eqn:Hstep; [|discriminate].
    eapply IH; [exact Hrun|]. eapply step_ordered; eauto.
Qed.

(** *** Reads *)

(** C10: [get] is free of side effects.  Whatever the transaction id, the
    table and the key, and whether the call succeeds or fails, the engine
    state after the call is the state before it: committed data, write-set,
    delete-set, current-transaction slot and both id counters.  (The
    serialized engine has no lock and no read-set to update.) *)
Theorem get_leaves_state_unchanged s tx_id table_name key value error_msg :
  fst (get s tx_id table_name key value error_msg) = s.
Proof.
  unfold get.
  destruct (negb (tx_id =? 0) && negb (current_tx_id s =? tx_id)); [reflexivity|].
  destruct (negb (tx_id =? 0)).
  - destruct (write_set s !! make_table_key table_name key); [reflexivity|].
    destruct (bool_decide _); [reflexivity|].
    destruct (StdMap.find _ _); reflexivity.
  - destruct (StdMap.find _ _); reflexivity.
Qed.

Lemma get_deleted s tx_id table_name key value error_msg :
  tx_id <> 0 -> current_tx_id s = tx_id ->
  make_table_key table_name key ∈ delete_set s ->
  write_set s !! make_table_key table_name key = None ->
  get s tx_id table_name key value error_msg
  = (s, (false, value, key_not_found_msg key)).
Proof.
  intros Htx Hcur Hdel Hws. unfold get.
  destruct (Z.eqb_spec tx_id 0); [contradiction|].
  destruct (Z.eqb_spec (current_tx_id s) tx_id); [|contradiction].
  cbn. rewrite Hws. rewrite bool_decide_eq_true_2 by exact Hdel. reflexivity.
Qed.

(** C4, as the engine has it.  For a live transaction ([tx_id] not 0) of a
    reachable engine state and a key in its delete-set, [get] fails: it
    returns [false], leaves [value] alone and sets the message to
    ["Key <key> not found"], the very report it gives for a key that was
    never stored; the serialized engine has no separate report for a deleted
    key.  In particular this is the outcome of [get] right after [del] in the
    same transaction. *)
Theorem get_of_deleted_key_reports_not_found s tx_id table_name key value error_msg :
  reachable s -> tx_id <> 0 -> current_tx_id s = tx_id ->
  (make_table_key table_name key ∈ delete_set s ->
   get s tx_id table_name key value error_msg
   = (s, (false, value, key_not_found_msg key)))
  /\ (forall e0,
        let s' := fst (del s tx_id table_name key e0) in
        make_table_key table_name key ∈ delete_set s'
        /\ get s' tx_id table_name key value error_msg
           = (s', (false, value, key_not_found_msg key))).
Proof.
  intros Hreach Htx Hcur. split.
  - intros Hdel. apply get_deleted; auto.
    destruct (reachable_consistent _ Hreach) as [Hdisj _]. auto.
  - intros e0 s'. subst s'. unfold del.
    destruct (Z.eqb_spec tx_id 0); [contradiction|].
    destruct (Z.eqb_spec (current_tx_id s) tx_id); [|contradiction].
    cbn [negb andb fst].
    assert (Hin : make_table_key table_name key
                  ∈ delete_set s ∪ {[make_table_key table_name key]}).
    { apply elem_of_union. right. apply elem_of_singleton. reflexivity. }
    split; [exact Hin|].
    apply get_deleted; cbn; auto.
    + apply lookup_delete_eq.
Qed.

Lemma get_of_deleted_key_reports_not_found_witness :
  let s := fst (del (fst (start_transaction init "")) 1 "t" "k" "") in
  make_table_key "t" "k" ∈ delete_set s
  /\ get s 1 "t" "k" "" "" = (s, (false, "", key_not_found_msg "k")).
Proof.
  intros s.
  assert (Hr : reachable s).
  { exists [StartTransaction; Del 1 "t" "k"]. reflexivity. }
  assert (Hin : make_table_key "t" "k" ∈ delete_set s).
  { apply (bool_decide_unpack _). vm_compute. exact I. }
  split; [exact Hin|].
  apply (proj1 (get_of_deleted_key_reports_not_found s 1 "t" "k" "" ""
                  Hr ltac:(lia) eq_refl) Hin).
Defined.

(** C4 as stated does not hold: after [del] in transaction 1 the failure of
    [get] is word for word the failure for a key that was never stored, so a
    deleted key is not told apart from a missing one. *)
Lemma get_of_deleted_key_counterexample :
  let s0 := fst (start_transaction init "") in
  let s1 := fst (del s0 1 "t" "k" "") in
  bool_decide (make_table_key "t" "k" ∈ delete_set s1) = true
  /\ snd (get s1 1 "t" "k" "" "") = (false, "", "Key k not found")
  /\ snd (get s0 1 "t" "k" "" "") = (false, "", "Key k not found").
Proof. vm_compute. auto. Qed.

(** *** Commit *)

(** What a successful commit leaves in the table store, key by key: a key of
    the delete-set has no value; any other key keeps its committed value if
    it had one, and otherwise takes the value buffered in the write-set. *)
Lemma commit_transaction_table_data s error_msg k :
  StdMap.ordered (table_data s) = true ->
  StdMap.find k (table_data (fst (commit_transaction s (current_tx_id s) error_msg)))
  = if bool_decide (k ∈ delete_set s) then None
    else match StdMap.find k (table_data s) with
         | Some v0 => Some v0
         | None => write_set s !! k
         end.
Proof.
  intros Ho. unfold commit_transaction. rewrite Z.eqb_refl. cbn [negb fst table_data].
  rewrite find_erase_all by (apply ordered_insert_range, Ho).
  rewrite find_insert_range, list_to_map_to_list.
  rewrite (bool_decide_ext (k ∈ elements (delete_set s)) (k ∈ delete_set s))
    by apply elem_of_elements.
  reflexivity.
Qed.

(** In a reachable state a buffered write to a key with a committed value
    does not survive the commit: the store keeps the old value. *)
Lemma commit_drops_overwrite s error_msg k v0 v :
  reachable s ->
  StdMap.find k (table_data s) = Some v0 ->
  write_set s !! k = Some v ->
  StdMap.find k (table_data (fst (commit_transaction s (current_tx_id s) error_msg)))
  = Some v0.
Proof.
  intros Hr Hold Hnew.
  rewrite commit_transaction_table_data by (apply reachable_ordered, Hr).
  destruct (reachable_consistent _ Hr) as [Hdisj _].
  rewrite bool_decide_eq_false_2.
  - rewrite Hold. reflexivity.
  - intros Hin. specialize (Hdisj _ Hin). congruence.
Qed.

(** C1 at its failing input.  One-shot [set] stores ["v1"] under key ["k"];
    transaction 1 buffers ["v2"] for the same key and commits successfully;
    the committed value is still ["v1"], because [std::map::insert] keeps a
    binding that is already present. *)
Lemma commit_keeps_committed_value :
  let s1 := fst (set init 0 "t" "k" "v1" "") in
  let s2 := fst (start_transaction s1 "") in
  let s3 := fst (set s2 1 "t" "k" "v2" "") in
  let s4 := fst (commit_transaction s3 1 "") in
  write_set s3 !! make_table_key "t" "k" = Some "v2"
  /\ fst (snd (commit_transaction s3 1 "")) = true
  /\ snd (get s3 1 "t" "k" "" "") = (true, "v2", "")
  /\ snd (get s4 0 "t" "k" "" "") = (true, "v1", "").
Proof. vm_compute. auto. Qed.

(** *** Scan *)

Lemma scan_loop_keys rest : forall itr end_itr lim ds ws results ws' results',
  scan_loop rest itr end_itr lim ds ws results = Some (ws', results') ->
  forall k, k ∈ map fst results' -> k ∈ map fst results \/ k ∈ map fst rest.
Proof.
  induction rest as [|[k0 v0] rest IH]; intros itr end_itr lim ds ws results ws' results';
    cbn [scan_loop].
  - destruct (itr =? end_itr)%nat; [intros [= _ <-]; auto|].
    destruct (negb _); [intros [= _ <-]; auto | discriminate].
  - destruct (itr =? end_itr)%nat; [intros [= _ <-]; auto|].
    destruct (negb _); [intros [= _ <-]; auto |].
    assert (Hstep : forall w results0 ws0,
      scan_loop rest (S itr) end_itr lim ds ws0 (results ++ results0) = Some (ws', results') ->
      results0 = [] \/ results0 = [(k0, w)] ->
      forall k, k ∈ map fst results' ->
                k ∈ map fst results \/ k ∈ map fst ((k0, v0) :: rest)).
    { intros w results0 ws0 Hl Hr k Hk.
      destruct (IH _ _ _ _ _ _ _ _ Hl k Hk) as [H|H].
      - rewrite map_app in H. apply elem_of_app in H as [H|H]; [auto|].
        right. destruct Hr as [-> | ->]; cbn in H.
        + apply elem_of_nil in H. contradiction.
        + apply list_elem_of_singleton in H. subst k. apply list_elem_of_here.
      - right. apply list_elem_of_further, H. }
    destruct (bool_decide _).
    + intros Hl. apply (Hstep "" [] ws); [rewrite app_nil_r; exact Hl | auto].
    + unfold write_set_index. destruct (ws !! k0) eqn:Hk0; intros Hl.
      * apply (Hstep s [(k0, s)] ws); auto.
      * apply (Hstep v0 [(k0, v0)] ws); auto.
Qed.

(** Every key reported by [scan] is a key of the committed table data. *)
Lemma scan_reports_committed_keys s tx_id t ks ke lim e s' ok results e' :
  scan s tx_id t ks ke lim [] e = Some (s', (ok, results, e')) ->
  forall k, k ∈ map fst results -> k ∈ StdMap.keys (table_data s).
Proof.
  unfold scan.
  destruct (_ && _);
    [intros [= _ _ <- _] k Hk; apply elem_of_nil in Hk; contradiction|].
  destruct (scan_loop _ _ _ _ _ _ _) as [[ws' r']|] eqn:Hl; [|discriminate].
  intros [= _ _ <- _] k Hk.
  destruct (scan_loop_keys _ _ _ _ _ _ _ _ _ Hl k Hk) as [H|H];
    [apply elem_of_nil in H; contradiction|].
  unfold StdMap.keys. apply list_elem_of_fmap in H as ([k' v'] & -> & Hin).
  apply list_elem_of_fmap. exists (k', v'). split; [reflexivity|].
  exact (subseteq_drop _ _ _ Hin).
Qed.

(** In a reachable state a scan never reports a key that has no committed
    value, whatever the write-set holds for it. *)
Lemma scan_omits_uncommitted_keys s tx_id t ks ke lim e s' ok results e' k v :
  reachable s ->
  StdMap.find k (table_data s) = None ->
  scan s tx_id t ks ke lim [] e = Some (s', (ok, results, e')) ->
  (k, v) ∉ results.
Proof.
  intros Hr Hnone Hscan Hin.
  assert (Hk : k ∈ map fst results).
  { apply list_elem_of_fmap. exists (k, v). split; [reflexivity | exact Hin]. }
  pose proof (scan_reports_committed_keys _ _ _ _ _ _ _ _ _ _ _ Hscan k Hk) as Hkeys.
  destruct (find_keys k (table_data s) (reachable_ordered _ Hr) Hkeys) as [v0 Hv0].
  congruence.
Qed.

(** C2 at its failing input.  On range table ["r"], transaction 1 buffers
    ["2"] for the new key ["b"]; the key is in the write-set and not in the
    committed data; the scan of ["a"] to ["c"] by the same transaction
    succeeds with no item. *)
Lemma scan_misses_buffered_new_key :
  let s0 := fst (create_table init "r" "range" "") in
  let s1 := fst (start_transaction s0 "") in
  let s2 := fst (set s1 1 "r" "b" "2" "") in
  write_set s2 !! make_table_key "r" "b" = Some "2"
  /\ StdMap.find (make_table_key "r" "b") (table_data s2) = None
  /\ option_map snd (scan s2 1 "r" "a" "c" 10 [] "") = Some (true, [], "").
Proof. vm_compute. auto. Qed.

Lemma scan_loop_idle rest : forall itr end_itr lim results,
  (itr <= end_itr)%nat -> (end_itr - itr <= length rest)%nat ->
  scan_loop rest itr end_itr lim ∅ ∅ results
  = Some (∅, results ++ take (Z.to_nat lim - length results) (take (end_itr - itr) rest)).
Proof.
  induction rest as [|[k v] rest IH]; intros itr end_itr lim results Hle Hlen;
    cbn [scan_loop].
  - cbn in Hlen. replace (itr =? end_itr)%nat with true
      by (symmetry; apply Nat.eqb_eq; lia).
    rewrite take_nil, take_nil, app_nil_r. reflexivity.
  - destruct (Nat.eqb_spec itr end_itr) as [->|Hne].
    { rewrite Nat.sub_diag. cbn [take]. rewrite take_nil, app_nil_r. reflexivity. }
    destruct (Z.ltb_spec (Z.of_nat (length results)) lim) as [Hlim|Hlim]; cbn [negb].
    2:{ replace (Z.to_nat lim - length results)%nat with 0%nat by lia.
        cbn [take]. rewrite app_nil_r. reflexivity. }
    rewrite bool_decide_eq_false_2 by apply not_elem_of_empty.
    rewrite lookup_empty.
    cbn [length] in Hlen.
    rewrite IH by lia. rewrite length_app. cbn [length].
    replace (end_itr - itr)%nat with (S (end_itr - S itr)) by lia.
    replace (Z.to_nat lim - length results)%nat
      with (S (Z.to_nat lim - (length results + 1))) by lia.
    cbn [take]. rewrite <- app_assoc. reflexivity.
Qed.

(** The part of C3 that holds.  In a reachable state with no live
    transaction, a one-shot scan with [key_start] not above [key_end]
    succeeds, changes nothing, and returns the committed bindings whose
    table-qualified key lies in the closed range from
    [make_table_key table_name key_start] to
    [make_table_key table_name key_end], in ascending key order, cut to
    [num_item_limit] items.  The keys returned are the table-qualified ones. *)
Lemma one_shot_scan_committed_range s table_name key_start key_end lim error_msg :
  reachable s -> current_tx_id s = 0 -> String.leb key_start key_end = true ->
  scan s 0 table_name key_start key_end lim [] error_msg
  = Some (s, (true,
              take (Z.to_nat lim)
                   (List.filter
                      (StdMap.in_range (make_table_key table_name key_start)
                                       (make_table_key table_name key_end))
                      (table_data s)),
              error_msg)).
Proof.
  intros Hr Hidle Hle.
  destruct (proj2 (reachable_consistent _ Hr) Hidle) as [Hws Hds].
  pose proof (reachable_ordered _ Hr) as Ho.
  assert (Hkeys : String.leb (make_table_key table_name key_start)
                             (make_table_key table_name key_end) = true).
  { unfold String.leb, make_table_key in *.
    rewrite compare_append_l, compare_append_l. exact Hle. }
  destruct (bounds_segment _ _ _ Ho Hkeys) as [Hbounds Hseg].
  unfold scan. rewrite Hidle. cbn [Z.eqb negb andb].
  rewrite Hws, Hds, scan_loop_idle.
  - cbn [length app]. rewrite Nat.sub_0_r, Hseg.
    destruct s; cbn in *. subst. reflexivity.
  - exact Hbounds.
  - rewrite length_drop.
    pose proof (upper_bound_le (make_table_key table_name key_end) (table_data s)).
    lia.
Qed.

(** C3 at its failing input, scenario S4.  With no live transaction, after
    the three one-shot writes to range table ["r"], [scan(0, r, "a", "b", 10)]
    succeeds with two items in key order, but each returned key is the
    table-qualified key (table name, NUL, key), not ["a"] and ["b"]. *)
Lemma one_shot_scan_returns_table_keys :
  let s0 := fst (create_table init "r" "range" "") in
  let s1 := fst (set s0 0 "r" "a" "1" "") in
  let s2 := fst (set s1 0 "r" "b" "2" "") in
  let s3 := fst (set s2 0 "r" "c" "3" "") in
  current_tx_id s3 = 0
  /\ option_map snd (scan s3 0 "r" "a" "b" 10 [] "")
     = Some (true, [(make_table_key "r" "a", "1"); (make_table_key "r" "b", "2")], "")
  /\ option_map snd (scan s3 0 "r" "a" "b" 10 [] "")
     <> Some (true, [("a", "1"); ("b", "2")], "").
Proof. vm_compute. split; [reflexivity|]. split; [reflexivity|]. discriminate. Qed.

End simple_engine.

(** ** String concatenation *)

Lemma append_cons x a b : String x a +:+ b = String x (a +:+ b).
Proof. reflexivity. Qed.

Lemma append_nil_l b : "" +:+ b = b.
Proof. reflexivity. Qed.

Lemma length_append a b :
  String.length (a +:+ b) = (String.length a + String.length b)%nat.
Proof.
  induction a as [|c a IH]; [reflexivity|].
  rewrite append_cons. cbn. rewrite IH. reflexivity.
Qed.

Lemma append_assoc a b c : (a +:+ b) +:+ c = a +:+ (b +:+ c).
Proof.
  induction a as [|x a IH]; [reflexivity|].
  rewrite !append_cons, IH. reflexivity.
Qed.

Lemma append_nil_r a : a +:+ "" = a.
Proof.
  induction a as [|x a IH]; [reflexivity|].
  rewrite append_cons, IH. reflexivity.
Qed.

(** ** Batch execution *)

Section batch_execution.
Import Kvt.
Context {M : Type} `{KVTManagerWrapperInterface M}.

Lemma batch_loop_run_ops (tx_id : Z) (ops : list KVTOp) :
  forall i (m : M) all_success concatenated_errors batch_results,
  exists errors,
    batch_loop ops i m tx_id all_success concatenated_errors batch_results
    = (fst (run_ops ops m tx_id),
       (all_success && forallb succeeded (snd (run_ops ops m tx_id)),
        errors,
        batch_results ++ snd (run_ops ops m tx_id))).
Proof.
  induction ops as [|o ops IH]; intros i m all_success conc res; cbn [batch_loop run_ops].
  - exists conc. cbn. rewrite Bool.andb_true_r, app_nil_r. reflexivity.
  - destruct (batch_op m tx_id o) as [m' [r op_error]] eqn:Hop.
    destruct (IH (i + 1) m'
                 (if negb (bool_decide (error r = SUCCESS)) then false else all_success)
                 (if negb (bool_decide (error r = SUCCESS)) && negb (String.eqb op_error "")
                  then conc +:+ "op[" +:+ to_string i +:+ "]: " +:+ op_error +:+ "; "
                  else conc)
                 (res ++ [r])) as [errors ->].
    exists errors. destruct (run_ops ops m' tx_id) as [m'' rs]. cbn [fst snd forallb].
    rewrite <- app_assoc. cbn [app]. unfold succeeded at 2.
    destruct (bool_decide (error r = SUCCESS)); cbn [negb andb];
      destruct all_success; reflexivity.
Qed.

Lemma batch_execute_run_ops (m : M) tx_id batch_ops batch_results error_msg :
  fst (batch_execute m tx_id batch_ops batch_results error_msg)
  = fst (run_ops batch_ops m tx_id)
  /\ snd (fst (snd (batch_execute m tx_id batch_ops batch_results error_msg)))
     = snd (run_ops batch_ops m tx_id)
  /\ fst (fst (snd (batch_execute m tx_id batch_ops batch_results error_msg)))
     = if forallb succeeded (snd (run_ops batch_ops m tx_id))
       then SUCCESS else BATCH_NOT_FULLY_SUCCESS.
Proof.
  unfold batch_execute.
  destruct (batch_loop_run_ops tx_id batch_ops 0 m true "" []) as [errors ->].
  cbn [andb app].
  destruct (forallb succeeded (snd (run_ops batch_ops m tx_id))); cbn; auto.
Qed.

Lemma run_ops_length (tx_id : Z) (ops : list KVTOp) : forall m : M,
  length (snd (run_ops ops m tx_id)) = length ops.
Proof.
  induction ops as [|o ops IH]; intros m; cbn [run_ops]; [reflexivity|].
  destruct (batch_op m tx_id o) as [m' [r e]].
  specialize (IH m'). destruct (run_ops ops m' tx_id) as [m'' rs].
  cbn in *. congruence.
Qed.

Lemma run_ops_lookup (tx_id : Z) (ops : list KVTOp) : forall (m : M) (i : nat),
  snd (run_ops ops m tx_id) !! i
  = (fun o => fst (snd (batch_op (fst (run_ops (take i ops) m tx_id)) tx_id o)))
      <$> ops !! i.
Proof.
  induction ops as [|o ops IH]; intros m i; cbn [run_ops].
  - destruct i; reflexivity.
  - destruct (batch_op m tx_id o) as [m' [r e]] eqn:Hop.
    specialize (IH m'). destruct (run_ops ops m' tx_id) as [m'' rs] eqn:Hrun.
    destruct i as [|i]; cbn [take run_ops lookup fst snd].
    + cbn. rewrite Hop. reflexivity.
    + rewrite Hop. cbn in IH. 
      destruct (run_ops (take i ops) m' tx_id) as [mi ri] eqn:Hi.
      cbn [fst snd]. specialize (IH i). rewrite Hi in IH. exact IH.
Qed.

Lemma batch_op_own (m : M) tx_id o :
  batch_op m tx_id o
  = (engine_after_op m tx_id o, (own_result m tx_id o, own_message m tx_id o)).
Proof.
  unfold batch_op, engine_after_op, own_result, own_message.
  destruct (op o).
  - reflexivity.
  - destruct (get m tx_id (table_name o) (key o) "" "") as [m' [[e v] msg]]. reflexivity.
  - destruct (set m tx_id (table_name o) (key o) (value o) "") as [m' [e msg]]. reflexivity.
  - destruct (del m tx_id (table_name o) (key o) "") as [m' [e msg]]. reflexivity.
Qed.

Lemma run_ops_engine_after (tx_id : Z) (ops : list KVTOp) : forall m : M,
  fst (run_ops ops m tx_id) = engine_after ops m tx_id.
Proof.
  unfold engine_after.
  induction ops as [|o ops IH]; intros m; cbn [run_ops fold_left]; [reflexivity|].
  rewrite batch_op_own. rewrite <- IH.
  destruct (run_ops ops (engine_after_op m tx_id o) tx_id). reflexivity.
Qed.

Lemma batch_loop_report (tx_id : Z) (ops : list KVTOp) :
  forall i (m : M) all_success concatenated_errors batch_results,
  snd (fst (snd (batch_loop ops i m tx_id all_success concatenated_errors batch_results)))
  = concatenated_errors +:+ failure_report ops i m tx_id.
Proof.
  induction ops as [|o ops IH]; intros i m all_success conc res;
    cbn [batch_loop failure_report].
  - cbn. rewrite append_nil_r. reflexivity.
  - rewrite batch_op_own, IH. unfold failure_entry.
    destruct (negb (bool_decide (error (own_result m tx_id o) = SUCCESS))
              && negb (String.eqb (own_message m tx_id o) "")).
    + rewrite append_assoc. reflexivity.
    + rewrite append_nil_l. reflexivity.
Qed.

Lemma batch_execute_message (m : M) tx_id batch_ops batch_results error_msg :
  snd (snd (batch_execute m tx_id batch_ops batch_results error_msg))
  = if forallb succeeded (snd (run_ops batch_ops m tx_id)) then error_msg
    else failure_report batch_ops 0 m tx_id.
Proof.
  unfold batch_execute.
  pose proof (batch_loop_report tx_id batch_ops 0 m true "" []) as Hrep.
  destruct (batch_loop_run_ops tx_id batch_ops 0 m true "" []) as [errors Hloop].
  rewrite Hloop in Hrep |- *. cbn [fst snd andb] in *.
  rewrite append_nil_l in Hrep. subst errors.
  destruct (forallb succeeded (snd (run_ops batch_ops m tx_id))); reflexivity.
Qed.

(** C5: [batch_execute] runs the operations in sequence and produces
    exactly one result per operation, in operation order, each carrying that
    operation's own error code: the [i]-th result holds the code of the
    engine call that the kind of the [i]-th operation names ([get], [set] or
    [del], or [UNKNOWN_ERROR] for no known kind), made on the engine as the
    operations before it left it, also when one of them failed, together
    with the value read for a get.  The returned code is [SUCCESS] exactly
    when every per-op result is [SUCCESS], and [BATCH_NOT_FULLY_SUCCESS]
    otherwise; [error_msg] is left alone in the first case and holds the
    numbered messages of the failed operations in the second. *)
Theorem batch_execute_per_op_results (m : M) (tx_id : Z) (batch_ops : list KVTOp)
    (batch_results : list KVTOpResult) (error_msg : string) :
  let out := batch_execute m tx_id batch_ops batch_results error_msg in
  let ret := fst (fst (snd out)) in
  let results := snd (fst (snd out)) in
  fst out = engine_after batch_ops m tx_id
  /\ length results = length batch_ops
  /\ (forall (i : nat) (o : KVTOp),
        batch_ops !! i = Some o ->
        results !! i = Some (own_result (engine_after (take i batch_ops) m tx_id) tx_id o))
  /\ (ret = SUCCESS <-> Forall (fun r => error r = SUCCESS) results)
  /\ (ret = SUCCESS \/ ret = BATCH_NOT_FULLY_SUCCESS)
  /\ snd (snd out)
     = if bool_decide (ret = SUCCESS) then error_msg
       else failure_report batch_ops 0 m tx_id.
Proof.
  intros out ret results. subst out ret results.
  rewrite batch_execute_message.
  destruct (batch_execute_run_ops m tx_id batch_ops batch_results error_msg)
    as (-> & -> & ->).
  split; [apply run_ops_engine_after|].
  split; [apply run_ops_length|].
  split.
  { intros i o Hi. rewrite run_ops_lookup, Hi. cbn [fmap option_fmap option_map].
    rewrite batch_op_own, run_ops_engine_after. reflexivity. }
  split; [|split].
  - destruct (forallb succeeded (snd (run_ops batch_ops m tx_id))) eqn:Hall.
    + split; [|reflexivity]. intros _.
      apply Forall_forall. intros r Hr.
      rewrite forallb_forall in Hall.
      apply list_elem_of_In in Hr. specialize (Hall r Hr).
      unfold succeeded in Hall. apply bool_decide_eq_true_1 in Hall. exact Hall.
    + split; [discriminate|]. intros Hf. exfalso.
      assert (forallb succeeded (snd (run_ops batch_ops m tx_id)) = true); [|congruence].
      apply forallb_forall. intros r Hr. unfold succeeded.
      apply bool_decide_eq_true_2. rewrite Forall_forall in Hf.
      apply Hf. apply list_elem_of_In. exact Hr.
  - destruct (forallb succeeded _); auto.
  - destruct (forallb succeeded _); reflexivity.
Qed.

End batch_execution.

(** ** Column framing *)

Section framing.
Import Serialization.

(** *** Strings *)

Lemma string_take_0 a : string_take 0 a = "".
Proof. destruct a; reflexivity. Qed.

Lemma string_drop_0 a : string_drop 0 a = a.
Proof. destruct a; reflexivity. Qed.

Lemma string_take_app a b : string_take (String.length a) (a +:+ b) = a.
Proof.
  induction a as [|x a IH]; [apply string_take_0|].
  rewrite append_cons. cbn. rewrite IH. reflexivity.
Qed.

Lemma string_drop_app a b : string_drop (String.length a) (a +:+ b) = b.
Proof.
  induction a as [|x a IH]; [apply string_drop_0|].
  rewrite append_cons. cbn. exact IH.
Qed.

Lemma string_take_all a : string_take (String.length a) a = a.
Proof. rewrite <- (append_nil_r a) at 2. apply string_take_app. Qed.




(** *** The length fields *)

Lemma N_of_byte_of z : Z.of_N (N_of_ascii (byte_of z)) = z mod 256.
Proof.
  unfold byte_of.
  assert (0 <= z mod 256 < 256) by (apply Z.mod_pos_bound; lia).
  rewrite N_ascii_embedding by lia. lia.
Qed.

Lemma read_uint32_bytes n rest :
  0 <= n < 2 ^ 32 -> read_uint32 (uint32_bytes n +:+ rest) = n.
Proof.
  intros Hn. unfold uint32_bytes. rewrite !append_cons. cbn [read_uint32].
  rewrite !N_of_byte_of.
  change (2 ^ 32) with 4294967296 in Hn.
  Z.div_mod_to_equations. lia.
Qed.


Lemma uint32_wrap_small z : 0 <= z < 2 ^ 32 -> uint32_wrap z = z.
Proof. intros Hz. unfold uint32_wrap. apply Z.mod_small. exact Hz. Qed.

Lemma size_nonneg a : 0 <= size a.
Proof. unfold size. lia. Qed.

Lemma size_append a b : size (a +:+ b) = size a + size b.
Proof. unfold size. rewrite length_append. lia. Qed.

(** Reading one length-prefixed field back. *)
Lemma read_field body rest :
  size body < 2 ^ 32 ->
  let input := uint32_bytes (size body) +:+ body +:+ rest in
  (size input <? 4) = false
  /\ read_uint32 input = size body
  /\ string_drop 4 input = body +:+ rest
  /\ (size (body +:+ rest) <? size body) = false
  /\ string_take (Z.to_nat (size body)) (body +:+ rest) = body
  /\ string_drop (Z.to_nat (size body)) (body +:+ rest) = rest.
Proof.
  intros Hfit input. subst input. pose proof (size_nonneg body) as H0.
  pose proof (size_nonneg rest) as H1.
  refine (conj _ (conj _ (conj _ (conj _ (conj _ _))))).
  - apply Z.ltb_ge. rewrite size_append. pose proof (size_nonneg (body +:+ rest)).
    change (size (uint32_bytes (size body))) with 4. lia.
  - apply read_uint32_bytes. lia.
  - change 4%nat with (String.length (uint32_bytes (size body))).
    apply string_drop_app.
  - apply Z.ltb_ge. rewrite size_append. lia.
  - unfold size. rewrite Nat2Z.id. apply string_take_app.
  - unfold size. rewrite Nat2Z.id. apply string_drop_app.
Qed.

Lemma write_pair_fits cv :
  fits_uint32 cv ->
  write_pair cv
  = uint32_bytes (size (column cv)) +:+ column cv
    +:+ uint32_bytes (size (value cv)) +:+ value cv.
Proof.
  intros [Hc Hv]. unfold write_pair.
  rewrite !uint32_wrap_small by (split; [apply size_nonneg | assumption]).
  unfold size. rewrite !Nat2Z.id, !string_take_all. reflexivity.
Qed.

Lemma read_pair_write_pair cv rest :
  fits_uint32 cv -> read_pair (write_pair cv +:+ rest) = Some (cv, rest).
Proof.
  intros Hfit. rewrite write_pair_fits by exact Hfit. destruct Hfit as [Hc Hv].
  rewrite !append_assoc.
  destruct (read_field (column cv)
              (uint32_bytes (size (value cv)) +:+ value cv +:+ rest) Hc)
    as (E1 & E2 & E3 & E4 & E5 & E6).
  destruct (read_field (value cv) rest Hv) as (F1 & F2 & F3 & F4 & F5 & F6).
  unfold read_pair.
  rewrite E1, E2, E3, E4, E5, E6, F1, F2, F3, F4, F5, F6.
  destruct cv; reflexivity.
Qed.

Lemma read_pairs_frame_body columns : forall n rest result,
  Forall fits_uint32 columns ->
  read_pairs (length columns + n) (frame_body columns +:+ rest) result
  = read_pairs n rest (result ++ columns).
Proof.
  induction columns as [|cv tl IH]; intros n rest result Hfit.
  - cbn [length frame_body Nat.add]. rewrite append_nil_l, app_nil_r. reflexivity.
  - apply Forall_cons in Hfit as [Hcv Htl].
    cbn [length frame_body Nat.add read_pairs].
    rewrite append_assoc, read_pair_write_pair by exact Hcv.
    rewrite IH by exact Htl. rewrite <- app_assoc. reflexivity.
Qed.

Lemma write_pairs_frame_body columns : forall ss,
  write_pairs columns ss = ss +:+ frame_body columns.
Proof.
  induction columns as [|cv tl IH]; intros ss; cbn [write_pairs frame_body].
  - rewrite append_nil_r. reflexivity.
  - rewrite IH, append_assoc. reflexivity.
Qed.

Lemma frame_not_empty columns : String.eqb (frame columns) "" = false.
Proof. reflexivity. Qed.

Lemma frame_size columns : (size (frame columns) <? 4) = false.
Proof.
  apply Z.ltb_ge. unfold frame. rewrite size_append.
  pose proof (size_nonneg (frame_body columns)).
  change (size (uint32_bytes _)) with 4. lia.
Qed.

Lemma parse_frame columns :
  frame_fits columns ->
  read_pairs (Z.to_nat (read_uint32 (frame columns))) (string_drop 4 (frame columns)) []
  = columns.
Proof.
  intros [Hlen Hfit]. unfold frame.
  rewrite uint32_wrap_small by lia.
  rewrite read_uint32_bytes by lia.
  change 4%nat with (String.length (uint32_bytes (Z.of_nat (length columns)))).
  rewrite string_drop_app, Nat2Z.id.
  rewrite <- (append_nil_r (frame_body columns)).
  rewrite <- (Nat.add_0_r (length columns)).
  rewrite read_pairs_frame_body by exact Hfit.
  reflexivity.
Qed.

(** The frame of a fitting, non-empty list is parsed back in full; the
    outcome then depends on the order check alone. *)
Lemma deserialize_frame columns :
  columns <> [] -> frame_fits columns ->
  deserialize_columns (frame columns)
  = if is_sorted columns then Ok columns
    else Throw (runtime_error "Columns Must Be sorted before deserialization").
Proof.
  intros Hne Hfit. unfold deserialize_columns.
  rewrite frame_not_empty, frame_size, parse_frame by exact Hfit.
  destruct columns as [|cv tl]; [contradiction|].
  destruct (is_sorted (cv :: tl)); reflexivity.
Qed.

Lemma serialize_frame columns :
  columns <> [] -> Z.of_nat (length columns) < 2 ^ 32 ->
  serialize_columns columns
  = if is_sorted columns then Ok (frame columns)
    else Throw (runtime_error "Columns Must Be sorted before serialization").
Proof.
  intros Hne Hlen. unfold serialize_columns, frame.
  rewrite uint32_wrap_small by lia.
  replace (0 <? Z.of_nat (length columns)) with true.
  2:{ symmetry. apply Z.ltb_lt. destruct columns; [contradiction | cbn; lia]. }
  cbn [negb]. destruct (is_sorted columns); cbn [negb]; [|reflexivity].
  rewrite write_pairs_frame_body. reflexivity.
Qed.

Lemma ltb_asym a b : String.ltb a b = true -> String.ltb b a = false.
Proof.
  unfold String.ltb. rewrite (String.compare_antisym a b).
  destruct (String.compare b a); cbn; congruence.
Qed.

Lemma strictly_sorted_is_sorted l : strictly_sorted l = true -> is_sorted l = true.
Proof.
  induction l as [|a tl IH]; [reflexivity|].
  cbn [strictly_sorted is_sorted]. destruct tl as [|b tl']; [reflexivity|].
  intros H. apply andb_prop in H as [Hab Htl].
  unfold cv_lt in *. rewrite (ltb_asym _ _ Hab). cbn [negb andb]. auto.
Qed.

(** C6, within the range of the frame's length fields.  For every sequence
    [S] of column-value pairs with at least one and fewer than 2^32 pairs,
    each column and value shorter than 2^32 bytes, sorted by column with
    distinct columns, [serialize_columns] succeeds and [deserialize_columns]
    of its output is [S]: the same pairs in the same order. *)
Theorem serialize_deserialize_roundtrip (S : list ColumnValue) :
  S <> [] -> strictly_sorted S = true -> frame_fits S ->
  exists data,
    serialize_columns S = Ok data /\ deserialize_columns data = Ok S.
Proof.
  intros Hne Hsorted Hfit. apply strictly_sorted_is_sorted in Hsorted.
  exists (frame S). split.
  - rewrite serialize_frame by (auto; apply Hfit). rewrite Hsorted. reflexivity.
  - rewrite deserialize_frame by auto. rewrite Hsorted. reflexivity.
Qed.

Lemma serialize_deserialize_roundtrip_witness :
  let S := [ {| column := "age"; value := "30" |};
             {| column := "name"; value := "alice" |} ] in
  exists data,
    serialize_columns S = Ok data /\ deserialize_columns data = Ok S.
Proof.
  intros S. apply (serialize_deserialize_roundtrip S).
  - discriminate.
  - reflexivity.
  - split; [cbn; lia|].
    repeat constructor; cbn; lia.
Defined.

(** *** A column too long for its length field *)

Lemma string_fill_length n c : String.length (string_fill n c) = n.
Proof. induction n as [|n IH]; cbn; [reflexivity | rewrite IH; reflexivity]. Qed.

Lemma oversize_column n c :
  n <> 0%nat -> Z.of_nat n mod 2 ^ 32 = 0 ->
  let S := [ {| column := string_fill n c; value := "" |} ] in
  let data := uint32_bytes 1 +:+ uint32_bytes 0 +:+ uint32_bytes 0 in
  serialize_columns S = Ok data
  /\ deserialize_columns data = Ok [ {| column := ""; value := "" |} ]
  /\ deserialize_columns data <> Ok S.
Proof.
  intros Hn Hmod S data. split; [|split].
  - unfold serialize_columns, S. cbn [length is_sorted negb].
    change (uint32_wrap (Z.of_nat 1)) with 1. cbn [Z.ltb Z.compare negb].
    rewrite write_pairs_frame_body. cbn [frame_body]. rewrite append_nil_r.
    unfold write_pair. cbn [column value]. unfold size.
    rewrite string_fill_length. unfold uint32_wrap at 1 2. rewrite Hmod.
    change (uint32_wrap (Z.of_nat (String.length ""))) with 0.
    change (Z.to_nat 0) with 0%nat. rewrite !string_take_0.
    rewrite append_nil_r. reflexivity.
  - reflexivity.
  - change (deserialize_columns data) with (Ok [ {| column := ""; value := "" |} ]).
    unfold S. intros Heq.
    assert (Hc : "" = string_fill n c) by congruence.
    apply (f_equal String.length) in Hc. rewrite string_fill_length in Hc.
    cbn in Hc. congruence.
Qed.

(** C6 as stated does not hold for every sequence: a single pair whose
    column is 2^32 bytes long is sorted and non-empty, its column length is
    narrowed to the 32-bit field as 0, and the frame reads back as one pair
    with an empty column. *)
Lemma oversize_column_counterexample :
  exists S data,
    S = [ {| column := string_fill (Z.to_nat (2 ^ 32)) "a"; value := "" |} ]
    /\ S <> [] /\ strictly_sorted S = true
    /\ serialize_columns S = Ok data
    /\ deserialize_columns data <> Ok S.
Proof.
  assert (Hn : Z.to_nat (2 ^ 32) <> 0%nat) by lia.
  assert (Hmod : Z.of_nat (Z.to_nat (2 ^ 32)) mod 2 ^ 32 = 0).
  { rewrite Z2Nat.id by lia. apply Z.mod_same. lia. }
  destruct (oversize_column (Z.to_nat (2 ^ 32)) "a" Hn Hmod) as (Hser & _ & Hne).
  eexists _, _. split; [reflexivity|].
  split; [discriminate|]. split; [reflexivity|].
  split; [exact Hser | exact Hne].
Qed.

(** *** Truncated and unsorted frames *)


Lemma string_drop_uint32 n x : string_drop 4 (uint32_bytes n +:+ x) = x.
Proof. exact (string_drop_app (uint32_bytes n) x). Qed.

Lemma size_uint32_append n x : (size (uint32_bytes n +:+ x) <? 4) = false.
Proof.
  apply Z.ltb_ge. rewrite size_append. pose proof (size_nonneg x).
  change (size (uint32_bytes n)) with 4. lia.
Qed.


Lemma string_take_size a b : string_take (Z.to_nat (size a)) (a +:+ b) = a.
Proof. unfold size. rewrite Nat2Z.id. apply string_take_app. Qed.




Lemma is_sorted_cons a b tl :
  is_sorted (a :: b :: tl) = negb (cv_lt b a) && is_sorted (b :: tl).
Proof. reflexivity. Qed.

Lemma is_sorted_take m : forall l, is_sorted l = true -> is_sorted (take m l) = true.
Proof.
  induction m as [|m IH]; intros l Hl; [destruct l; reflexivity|].
  destruct l as [|a [|b tl]]; [reflexivity | destruct m; reflexivity |].
  rewrite is_sorted_cons in Hl. apply andb_prop in Hl as [Hab Htl].
  specialize (IH _ Htl). destruct m as [|m]; [reflexivity|].
  change (take (S (S m)) (a :: b :: tl)) with (a :: b :: take m tl).
  change (take (S m) (b :: tl)) with (b :: take m tl) in IH.
  rewrite is_sorted_cons, Hab, IH. reflexivity.
Qed.







End framing.

(** ** The composite-key layout of [get_all_columns] *)

Section composite_layout.
Import Serialization.

Lemma make_composite_key_empty_column sep key :
  make_composite_key sep key ""
  = Throw (invalid_argument "Key or column contains separator or is empty").
Proof.
  unfold make_composite_key. cbn [String.eqb].
  rewrite Bool.orb_true_r. reflexivity.
Qed.

(** C7 at its failing input, and at every other one.  In the in-memory
    adapter the composite-key branch of [get_all_columns] builds its start
    key with [make_composite_key(key, "")], which rejects an empty column:
    whatever the engine, the transaction, the table and the key, the call
    ends in [std::invalid_argument] before the scan is issued, and the engine
    state and the message are left as they were. *)
Theorem in_memory_get_all_columns_composite_throws {E : Type}
    (kvt_scan : E -> Z -> string -> string -> string -> Z -> list (string * string) ->
                string -> E * (bool * list (string * string) * string))
    (kvt_get : E -> Z -> string -> string -> string -> string ->
               E * (bool * string * string))
    (e : E) (tx_id : Z) (table_name key error_msg : string) :
  InMemoryAdapter.get_all_columns kvt_scan kvt_get true e tx_id table_name key error_msg
  = (e, (Throw (invalid_argument "Key or column contains separator or is empty"),
         error_msg)).
Proof.
  unfold InMemoryAdapter.get_all_columns.
  rewrite make_composite_key_empty_column. reflexivity.
Qed.

Lemma find_char_append sep key rest :
  find_char sep key = None ->
  find_char sep (key +:+ String sep rest) = Some (String.length key).
Proof.
  induction key as [|c key IH]; intros Hnone.
  - rewrite append_nil_l. cbn. rewrite Ascii.eqb_refl. reflexivity.
  - rewrite append_cons. cbn in *. destruct (Ascii.eqb c sep); [discriminate|].
    destruct (find_char sep key); [discriminate|].
    rewrite IH by reflexivity. reflexivity.
Qed.

Lemma split_make_composite_key sep key column :
  find_char sep key = None ->
  split_composite_key sep (key +:+ string1 sep +:+ column) = Ok (key, column).
Proof.
  intros Hkey. unfold split_composite_key, string1. rewrite append_cons, append_nil_l.
  rewrite find_char_append by exact Hkey.
  rewrite string_take_app.
  change (S (String.length key)) with (String.length key + 1)%nat || idtac.
  replace (S (String.length key)) with (String.length (key +:+ string1 sep)).
  2:{ rewrite length_append. cbn. lia. }
  change (String sep column) with (string1 sep +:+ column).
  rewrite <- append_assoc, string_drop_app. reflexivity.
Qed.

Lemma collect_composite_columns sep key columns : forall result,
  find_char sep key = None ->
  collect_columns sep key
    (map (fun cv => (key +:+ string1 sep +:+ column cv, value cv)) columns) result
  = Ok (result ++ columns).
Proof.
  induction columns as [|[c v] tl IH]; intros result Hkey; cbn [map collect_columns].
  - rewrite app_nil_r. reflexivity.
  - cbn [column value]. rewrite split_make_composite_key by exact Hkey.
    rewrite String.eqb_refl. cbn [negb].
    rewrite IH by exact Hkey. rewrite <- app_assoc. reflexivity.
Qed.

(** The table-id adapter does what the in-memory one misses: it scans from
    [key + SEP] to [key + (SEP + 1)] with limit 10000, and when the scan
    returns the composite keys of [key] it returns their columns and values
    in the order of the scan. *)
Lemma kvt_get_all_columns_composite {E : Type}
    (kvt_scan : E -> Z -> Z -> string -> string -> Z -> list (string * string) ->
                string -> E * (Kvt.KVTError * list (string * string) * string))
    (kvt_get : E -> Z -> Z -> string -> string -> string ->
               E * (Kvt.KVTError * string * string))
    (e e' : E) (tx_id table_id : Z) (key error_msg error_msg' : string)
    (columns : list ColumnValue) :
  find_char KvtAdapter.KEY_COLUMN_SEPARATOR key = None ->
  kvt_scan e tx_id table_id
           (key +:+ string1 KvtAdapter.KEY_COLUMN_SEPARATOR)
           (key +:+ string1 (ascii_of_N 32)) 10000 [] error_msg
  = (e', (Kvt.SUCCESS,
          map (fun cv => (key +:+ string1 KvtAdapter.KEY_COLUMN_SEPARATOR +:+ column cv,
                          value cv)) columns,
          error_msg')) ->
  KvtAdapter.get_all_columns kvt_scan kvt_get true e tx_id table_id key error_msg
  = (e', (Ok columns, error_msg')).
Proof.
  intros Hkey Hscan. unfold KvtAdapter.get_all_columns.
  change (separator_succ KvtAdapter.KEY_COLUMN_SEPARATOR) with (ascii_of_N 32).
  rewrite Hscan. cbn [bool_decide decide_rel].
  rewrite bool_decide_eq_true_2 by reflexivity.
  rewrite collect_composite_columns by exact Hkey. reflexivity.
Qed.

End composite_layout.

(** ** Optimistic commit *)

Section occ_commit.
Import Kvt OCC.

Lemma changed_not_valid current o :
  changed_since current o -> still_valid current o = false.
Proof.
  destruct o as [v|]; cbn.
  - intros (e & -> & Hne). apply Z.eqb_neq. exact Hne.
  - intros (e & ->). reflexivity.
Qed.

Lemma validate_stale st tx k o :
  holds_observation tx k o -> changed_since (st !! k) o -> validate st tx = false.
Proof.
  intros Hobs Hch. apply changed_not_valid in Hch. unfold validate.
  destruct Hobs as [Hr | (w & Hw & Ho)].
  - apply Bool.andb_false_intro1.
    apply Bool.not_true_is_false. intros Hall.
    rewrite forallb_forall in Hall.
    apply elem_of_map_to_list in Hr. apply list_elem_of_In in Hr.
    specialize (Hall _ Hr). cbn in Hall. congruence.
  - apply Bool.andb_false_intro2.
    apply Bool.not_true_is_false. intros Hall.
    rewrite forallb_forall in Hall.
    apply elem_of_map_to_list in Hw. apply list_elem_of_In in Hw.
    specialize (Hall _ Hw). cbn in Hall. unfold write_still_valid in Hall.
    rewrite Ho in Hall. congruence.
Qed.

(** C9: under the optimistic engine, when a live transaction holds an
    observation of some key, in its read-set or lifted into its write-set,
    and the store no longer matches it (the entry's version differs from the
    observed one, or a key observed absent now has an entry), [commit] returns
    [TRANSACTION_HAS_STALE_DATA], the store is exactly what it was (no write
    or deletion installed) and the transaction's context is gone while the
    other contexts are kept. *)
Theorem occ_commit_stale_data (m : KVTManagerWrapperOCC) (id : Z) (tx : Transaction)
    (k : Z * string) (o : observation) (error_msg : string) :
  transactions m !! id = Some tx ->
  holds_observation tx k o ->
  changed_since (store m !! k) o ->
  let out := commit_transaction m id error_msg in
  fst (snd out) = TRANSACTION_HAS_STALE_DATA
  /\ store (fst out) = store m
  /\ transactions (fst out) !! id = None
  /\ (forall id', id' <> id -> transactions (fst out) !! id' = transactions m !! id').
Proof.
  intros Htx Hobs Hch out. subst out. unfold commit_transaction.
  rewrite Htx, (validate_stale _ _ _ _ Hobs Hch). cbn [fst snd store transactions].
  split; [reflexivity|]. split; [reflexivity|]. split.
  - apply lookup_delete_eq.
  - intros id' Hne. apply lookup_delete_ne. congruence.
Qed.

Lemma occ_commit_stale_data_witness :
  let k := (1, "k") in
  let tx := {| tx_id := 2; read_set := {[ k := ObservedVersion 1 ]};
               write_set := {[ k := {| new_value := "b"; observed := None |} ]};
               delete_set := ∅ |} in
  let m := {| store := {[ k := {| data := "a"; metadata := 2 |} ]};
              transactions := {[ 2 := tx ]};
              next_tx_id := 3 |} in
  let out := commit_transaction m 2 "" in
  fst (snd out) = TRANSACTION_HAS_STALE_DATA
  /\ store (fst out) = store m
  /\ transactions (fst out) !! 2 = None
  /\ (forall id', id' <> 2 -> transactions (fst out) !! id' = transactions m !! id').
Proof.
  intros k tx m.
  apply (occ_commit_stale_data m 2 tx k (ObservedVersion 1) "").
  - reflexivity.
  - left. reflexivity.
  - exists {| data := "a"; metadata := 2 |}. split; [reflexivity | cbn; lia].
Defined.

End occ_commit.

(** ** The serialized engine: transactions, one-shot calls and scans *)

Section simple_engine_calls.
Import Simple.

(** X1: in every state the engine can reach, no key is both in the write-set
    and in the delete-set, and while no transaction is live both buffers are
    empty. *)
Theorem reachable_buffers_disjoint s :
  reachable s ->
  (forall k v, write_set s !! k = Some v -> k ∉ delete_set s)
  /\ (forall k, k ∈ delete_set s -> write_set s !! k = None)
  /\ (current_tx_id s = 0 -> write_set s = ∅ /\ delete_set s = ∅).
Proof.
  intros Hr. destruct (reachable_consistent s Hr) as [Hdisj Hidle].
  split; [|split].
  - intros k v Hw Hd. rewrite (Hdisj k Hd) in Hw. discriminate.
  - exact Hdisj.
  - exact Hidle.
Qed.

Lemma reachable_buffers_disjoint_witness :
  let s := fst (del (fst (set (fst (start_transaction init "")) 1 "t" "a" "1" ""))
                    1 "t" "b" "") in
  (forall k v, write_set s !! k = Some v -> k ∉ delete_set s)
  /\ (forall k, k ∈ delete_set s -> write_set s !! k = None)
  /\ (current_tx_id s = 0 -> write_set s = ∅ /\ delete_set s = ∅).
Proof.
  intros s. apply (reachable_buffers_disjoint s).
  exists [StartTransaction; Set_ 1 "t" "a" "1"; Del 1 "t" "b"]. reflexivity.
Defined.

Lemma live_guard s tx_id :
  tx_id <> 0 -> current_tx_id s = tx_id ->
  negb (tx_id =? 0) && negb (current_tx_id s =? tx_id) = false
  /\ (tx_id =? 0) = false.
Proof.
  intros Htx Hcur. destruct (Z.eqb_spec tx_id 0); [contradiction|].
  destruct (Z.eqb_spec (current_tx_id s) tx_id); [auto | contradiction].
Qed.

(** X2: a transaction reads its own write.  For the live transaction, [set]
    succeeds, a following [get] of the same key returns the value just set
    (also when the key had been deleted in the transaction: the key leaves
    the delete-set), and the committed data are not touched. *)
Theorem transaction_reads_its_write s tx_id t k v value e1 e2 :
  tx_id <> 0 -> current_tx_id s = tx_id ->
  let s' := fst (set s tx_id t k v e1) in
  snd (set s tx_id t k v e1) = (true, e1)
  /\ get s' tx_id t k value e2 = (s', (true, v, e2))
  /\ (make_table_key t k ∉ delete_set s')
  /\ table_data s' = table_data s.
Proof.
  intros Htx Hcur s'. subst s'.
  destruct (live_guard s tx_id Htx Hcur) as [Hg H0].
  unfold set. rewrite Hg, H0. cbn [fst snd].
  split; [reflexivity|]. split; [|split; [|reflexivity]].
  - unfold get. cbn [current_tx_id write_set]. rewrite Hg, H0. cbn [negb].
    rewrite lookup_insert_eq. reflexivity.
  - cbn [delete_set]. intros Hin. apply elem_of_difference in Hin as [_ Hin].
    apply Hin, elem_of_singleton. reflexivity.
Qed.

Lemma transaction_reads_its_write_witness :
  let s := fst (del (fst (start_transaction init "")) 1 "t" "k" "") in
  let s' := fst (set s 1 "t" "k" "v" "") in
  snd (set s 1 "t" "k" "v" "") = (true, "")
  /\ get s' 1 "t" "k" "" "" = (s', (true, "v", ""))
  /\ (make_table_key "t" "k" ∉ delete_set s')
  /\ table_data s' = table_data s.
Proof.
  intros s. apply (transaction_reads_its_write s 1 "t" "k" "v" "" "" "").
  - lia.
  - reflexivity.
Defined.

(** X3: a one-shot [set] is read back by a one-shot [get], whether or not a
    table of that name was created and whether or not a transaction is live;
    every other table key reads as before and the buffers are untouched. *)
Theorem one_shot_set_then_get s t k v value e1 e2 :
  let s' := fst (set s 0 t k v e1) in
  snd (set s 0 t k v e1) = (true, e1)
  /\ get s' 0 t k value e2 = (s', (true, v, e2))
  /\ (forall t' k', make_table_key t' k' <> make_table_key t k ->
        snd (get s' 0 t' k' value e2) = snd (get s 0 t' k' value e2))
  /\ write_set s' = write_set s
  /\ delete_set s' = delete_set s.
Proof.
  intros s'. subst s'. unfold set. cbn [Z.eqb negb andb fst snd].
  split; [reflexivity|]. split; [|split; [|split; reflexivity]].
  - unfold get. cbn [Z.eqb negb andb table_data].
    rewrite find_assign_same. reflexivity.
  - intros t' k' Hne. unfold get. cbn [Z.eqb negb andb table_data].
    rewrite find_assign_other by exact Hne.
    destruct (StdMap.find _ _); reflexivity.
Qed.

(** X4: after a one-shot [del], a one-shot [get] of the key fails with
    ["Key <key> not found"] and leaves [value] alone; the call succeeds also
    when the key was absent, and every other table key reads as before. *)
Theorem one_shot_del_then_get s t k value e1 e2 :
  reachable s ->
  let s' := fst (del s 0 t k e1) in
  snd (del s 0 t k e1) = (true, e1)
  /\ get s' 0 t k value e2 = (s', (false, value, key_not_found_msg k))
  /\ (forall t' k', make_table_key t' k' <> make_table_key t k ->
        snd (get s' 0 t' k' value e2) = snd (get s 0 t' k' value e2)).
Proof.
  intros Hr s'. subst s'. pose proof (reachable_ordered s Hr) as Ho.
  unfold del. cbn [Z.eqb negb andb fst snd].
  split; [reflexivity|]. split.
  - unfold get. cbn [Z.eqb negb andb table_data].
    rewrite find_erase_same by exact Ho. reflexivity.
  - intros t' k' Hne. unfold get. cbn [Z.eqb negb andb table_data].
    rewrite find_erase_other by auto.
    destruct (StdMap.find _ _); reflexivity.
Qed.

Lemma one_shot_del_then_get_witness :
  let s := fst (set init 0 "t" "k" "v" "") in
  let s' := fst (del s 0 "t" "k" "") in
  snd (del s 0 "t" "k" "") = (true, "")
  /\ get s' 0 "t" "k" "" "" = (s', (false, "", key_not_found_msg "k"))
  /\ (forall t' k', make_table_key t' k' <> make_table_key "t" "k" ->
        snd (get s' 0 t' k' "" "") = snd (get s 0 t' k' "" "")).
Proof.
  intros s. apply (one_shot_del_then_get s "t" "k" "" "" "").
  exists [Set_ 0 "t" "k" "v"]. reflexivity.
Defined.

Lemma get_keeps_state s tx_id t k value e :
  fst (get s tx_id t k value e) = s.
Proof.
  unfold get.
  repeat (match goal with
          | |- context [if ?b then _ else _] => destruct b
          | |- context [match ?o with Some _ => _ | None => _ end] => destruct o
          end); reflexivity.
Qed.

Lemma with_buffers_same s : with_buffers s (write_set s) (delete_set s) = s.
Proof. destruct s; reflexivity. Qed.

(** Calls buffered under the live transaction change the two buffers only. *)
Lemma buffered_calls_run tx (cs : list call) : forall st rest,
  tx <> 0 -> current_tx_id st = tx ->
  forallb (buffered_call tx) cs = true ->
  exists ws ds, run st (cs ++ rest) = run (with_buffers st ws ds) rest.
Proof.
  induction cs as [|c cs IH]; intros st rest Htx Hcur Hall.
  - exists (write_set st), (delete_set st). rewrite with_buffers_same. reflexivity.
  - cbn [forallb] in Hall. apply andb_prop in Hall as [Hc Hall].
    assert (Hstep : exists ws1 ds1, step st c = Some (with_buffers st ws1 ds1)).
    { destruct (live_guard st tx Htx Hcur) as [Hg H0].
      destruct c; cbn [buffered_call] in Hc; try discriminate;
        apply Z.eqb_eq in Hc; subst tx_id; cbn [step].
      - exists (write_set st), (delete_set st).
        rewrite get_keeps_state, with_buffers_same. reflexivity.
      - unfold set. rewrite Hg, H0. cbn [fst]. eexists _, _. reflexivity.
      - unfold del. rewrite Hg, H0. cbn [fst]. eexists _, _. reflexivity. }
    destruct Hstep as (ws1 & ds1 & Hstep).
    cbn [app run]. rewrite Hstep.
    destruct (IH (with_buffers st ws1 ds1) rest Htx Hcur Hall) as (ws & ds & ->).
    exists ws, ds. reflexivity.
Qed.

(** X5: rollback undoes a transaction.  From a reachable state with no live
    transaction, starting a transaction, issuing any sequence of [get], [set]
    and [del] calls under it and rolling it back leaves the engine as it was
    before the start, the transaction counter apart: committed data, table
    ids and buffers are the same and no transaction is live. *)
Theorem rollback_undoes_transaction s (cs : list call) :
  reachable s -> current_tx_id s = 0 -> next_tx_id s <> 0 ->
  forallb (buffered_call (next_tx_id s)) cs = true ->
  exists s',
    run s (StartTransaction :: cs ++ [RollbackTransaction (next_tx_id s)]) = Some s'
    /\ table_data s' = table_data s
    /\ table_to_id s' = table_to_id s
    /\ next_table_id s' = next_table_id s
    /\ current_tx_id s' = 0
    /\ write_set s' = write_set s
    /\ delete_set s' = delete_set s
    /\ next_tx_id s' = uint64_wrap (next_tx_id s + 1).
Proof.
  intros Hr Hidle Hnext Hall.
  destruct (proj2 (reachable_consistent s Hr) Hidle) as [Hws Hds].
  cbn [run step]. unfold start_transaction. rewrite Hidle. cbn [Z.eqb negb fst].
  set (s1 := {| table_data := table_data s; table_to_id := table_to_id s;
                next_table_id := next_table_id s;
                next_tx_id := uint64_wrap (next_tx_id s + 1);
                current_tx_id := next_tx_id s;
                write_set := write_set s; delete_set := delete_set s |}).
  destruct (buffered_calls_run (next_tx_id s) cs s1
              [RollbackTransaction (next_tx_id s)] Hnext eq_refl Hall)
    as (ws & ds & ->).
  cbn [run step]. unfold rollback_transaction.
  cbn [with_buffers current_tx_id s1]. rewrite Z.eqb_refl. cbn [negb fst].
  eexists. split; [reflexivity|]. cbn. rewrite Hws, Hds. repeat split; reflexivity.
Qed.

Lemma rollback_undoes_transaction_witness :
  let s := fst (set init 0 "t" "a" "1" "") in
  exists s',
    run s (StartTransaction
             :: [Set_ 1 "t" "a" "2"; Del 1 "t" "a"; Get 1 "t" "a"; Set_ 1 "t" "b" "3"]
             ++ [RollbackTransaction (next_tx_id s)]) = Some s'
    /\ table_data s' = table_data s
    /\ table_to_id s' = table_to_id s
    /\ next_table_id s' = next_table_id s
    /\ current_tx_id s' = 0
    /\ write_set s' = write_set s
    /\ delete_set s' = delete_set s
    /\ next_tx_id s' = uint64_wrap (next_tx_id s + 1).
Proof.
  intros s.
  apply (rollback_undoes_transaction s
           [Set_ 1 "t" "a" "2"; Del 1 "t" "a"; Get 1 "t" "a"; Set_ 1 "t" "b" "3"]).
  - exists [Set_ 0 "t" "a" "1"]. reflexivity.
  - reflexivity.
  - cbn. lia.
  - reflexivity.
Defined.

Lemma foreign_transaction_rejected s tx_id t k v value e :
  tx_id <> 0 -> current_tx_id s <> tx_id ->
  get s tx_id t k value e = (s, (false, value, not_found_msg tx_id))
  /\ set s tx_id t k v e = (s, (false, not_found_msg tx_id))
  /\ del s tx_id t k e = (s, (false, not_found_msg tx_id))
  /\ commit_transaction s tx_id e = (s, (false, not_found_msg tx_id))
  /\ rollback_transaction s tx_id e = (s, (false, not_found_msg tx_id)).
Proof.
  intros Htx Hcur.
  unfold get, set, del, commit_transaction, rollback_transaction.
  destruct (Z.eqb_spec tx_id 0); [contradiction|].
  destruct (Z.eqb_spec (current_tx_id s) tx_id); [contradiction|].
  cbn [negb andb]. repeat split; reflexivity.
Qed.

(** The ids handed out are between [lo] and the counter, which [n] calls
    have moved by [n] at most. *)
Lemma step_tx_ids lo n s c s' :
  0 < lo -> lo + n + 1 < 2 ^ 64 ->
  step s c = Some s' ->
  lo <= next_tx_id s <= lo + n
  /\ (current_tx_id s = 0 \/ lo <= current_tx_id s < next_tx_id s) ->
  lo <= next_tx_id s' <= lo + (n + 1)
  /\ (current_tx_id s' = 0 \/ lo <= current_tx_id s' < next_tx_id s').
Proof.
  intros Hlo Hn Hstep [Hnext Hcur].
  assert (Hkeep : forall s1, next_tx_id s1 = next_tx_id s ->
            current_tx_id s1 = current_tx_id s \/ current_tx_id s1 = 0 ->
            lo <= next_tx_id s1 <= lo + (n + 1)
            /\ (current_tx_id s1 = 0 \/ lo <= current_tx_id s1 < next_tx_id s1)).
  { intros s1 Hn1 Hc1. rewrite Hn1. split; [lia|].
    destruct Hc1 as [Hc1 | Hc1]; rewrite Hc1; tauto. }
  destruct c; cbn [step] in Hstep.
  - injection Hstep as <-. apply Hkeep; unfold create_table;
      destruct (table_to_id s !! table_name); cbn; auto.
  - injection Hstep as <-. unfold start_transaction.
    destruct (current_tx_id s =? 0); cbn [negb fst]; [|apply Hkeep; auto].
    cbn [next_tx_id current_tx_id]. unfold uint64_wrap.
    rewrite Z.mod_small by lia. split; [lia|]. right. lia.
  - injection Hstep as <-. apply Hkeep; unfold commit_transaction;
      destruct (negb _); cbn; auto.
  - injection Hstep as <-. apply Hkeep; unfold rollback_transaction;
      destruct (negb _); cbn; auto.
  - injection Hstep as <-. rewrite get_keeps_state. apply Hkeep; auto.
  - injection Hstep as <-. apply Hkeep; unfold set;
      (destruct (_ && _); [| destruct (_ =? _)]); cbn; auto.
  - injection Hstep as <-. apply Hkeep; unfold del;
      (destruct (_ && _); [| destruct (_ =? _)]); cbn; auto.
  - destruct (scan s tx_id table_name key_start key_end num_item_limit [] "")
      as [[s2 out]|] eqn:Hscan; [|discriminate].
    injection Hstep as <-. cbn [fst].
    rewrite (scan_state _ _ _ _ _ _ _ _ _ _ Hscan). apply Hkeep; auto.
Qed.

Lemma run_tx_ids lo (cs : list call) : forall n s s',
  0 < lo -> lo + n + Z.of_nat (length cs) < 2 ^ 64 -> 0 <= n ->
  run s cs = Some s' ->
  lo <= next_tx_id s <= lo + n
  /\ (current_tx_id s = 0 \/ lo <= current_tx_id s < next_tx_id s) ->
  lo <= next_tx_id s' <= lo + (n + Z.of_nat (length cs))
  /\ (current_tx_id s' = 0 \/ lo <= current_tx_id s' < next_tx_id s').
Proof.
  induction cs as [|c cs IH]; intros n s s' Hlo Hlen Hn Hrun Hs; cbn [run length] in *.
  - injection Hrun as <-. rewrite Z.add_0_r. exact Hs.
  - destruct (step s c) as [s1|] eqn:Hstep; [|discriminate].
    replace (n + Z.of_nat (S (length cs))) with ((n + 1) + Z.of_nat (length cs)) by lia.
    apply (IH (n + 1) s1 s'); try lia; [exact Hrun|].
    eapply step_tx_ids; eauto. lia.
Qed.

(** X6: a finished transaction id is dead.  In a run of fewer than 2^64 - 2
    calls from the constructor's state, once the live transaction has been
    committed or rolled back its id is not handed out again: whatever calls
    follow, [start_transaction] among them, every [get], [set], [del],
    [commit_transaction] and [rollback_transaction] with that id fails with
    ["Transaction <id> not found"] and leaves the engine state and [value]
    unchanged. *)
Theorem finished_transaction_is_rejected (cs0 cs : list call) s (committed : bool) s2
    tx_id t k v value e0 e :
  run init cs0 = Some s ->
  current_tx_id s = tx_id -> tx_id <> 0 ->
  run (if committed then fst (commit_transaction s tx_id e0)
       else fst (rollback_transaction s tx_id e0)) cs = Some s2 ->
  Z.of_nat (length cs0) + Z.of_nat (length cs) + 2 < 2 ^ 64 ->
  get s2 tx_id t k value e = (s2, (false, value, not_found_msg tx_id))
  /\ set s2 tx_id t k v e = (s2, (false, not_found_msg tx_id))
  /\ del s2 tx_id t k e = (s2, (false, not_found_msg tx_id))
  /\ commit_transaction s2 tx_id e = (s2, (false, not_found_msg tx_id))
  /\ rollback_transaction s2 tx_id e = (s2, (false, not_found_msg tx_id)).
Proof.
  intros Hrun0 Hlive Htx Hrun Hlen.
  assert (Hs : 1 <= next_tx_id s <= 1 + (0 + Z.of_nat (length cs0))
               /\ (current_tx_id s = 0 \/ 1 <= current_tx_id s < next_tx_id s)).
  { apply (run_tx_ids 1 cs0 0 init s); [lia | lia | lia | exact Hrun0 |].
    cbn. split; [lia | auto]. }
  destruct Hs as [Hnext [Hcur | Hcur]]; [congruence|].
  set (s1 := if committed then fst (commit_transaction s tx_id e0)
             else fst (rollback_transaction s tx_id e0)) in *.
  assert (Hs1 : next_tx_id s1 = next_tx_id s /\ current_tx_id s1 = 0).
  { subst s1. unfold commit_transaction, rollback_transaction.
    rewrite Hlive, Z.eqb_refl. destruct committed; cbn; auto. }
  destruct Hs1 as [Hn1 Hc1].
  assert (Hs2 : next_tx_id s <= next_tx_id s2 <= next_tx_id s + (0 + Z.of_nat (length cs))
                /\ (current_tx_id s2 = 0
                    \/ next_tx_id s <= current_tx_id s2 < next_tx_id s2)).
  { apply (run_tx_ids (next_tx_id s) cs 0 s1 s2); [lia | lia | lia | exact Hrun |].
    rewrite Hn1, Hc1. split; [lia | auto]. }
  apply foreign_transaction_rejected; [exact Htx|].
  destruct Hs2 as [_ [H0 | Hge]]; lia.
Qed.

Lemma finished_transaction_is_rejected_witness :
  let s := fst (set (fst (start_transaction init "")) 1 "t" "k" "v" "") in
  let s2 := fst (start_transaction
                   (fst (commit_transaction
                           (fst (set (fst (start_transaction
                                             (fst (commit_transaction s 1 "")) ""))
                                     2 "t" "k" "w" "")) 2 "")) "") in
  get s2 1 "t" "k" "" "" = (s2, (false, "", not_found_msg 1))
  /\ set s2 1 "t" "k" "x" "" = (s2, (false, not_found_msg 1))
  /\ del s2 1 "t" "k" "" = (s2, (false, not_found_msg 1))
  /\ commit_transaction s2 1 "" = (s2, (false, not_found_msg 1))
  /\ rollback_transaction s2 1 "" = (s2, (false, not_found_msg 1)).
Proof.
  intros s s2.
  apply (finished_transaction_is_rejected
           [StartTransaction; Set_ 1 "t" "k" "v"]
           [StartTransaction; Set_ 2 "t" "k" "w"; CommitTransaction 2; StartTransaction]
           s true s2 1 "t" "k" "x" "" "" "").
  - reflexivity.
  - reflexivity.
  - lia.
  - reflexivity.
  - cbn. lia.
Defined.

Lemma scan_loop_view rest : forall itr end_itr lim ds ws results,
  (itr <= end_itr)%nat -> (end_itr - itr <= length rest)%nat ->
  scan_loop rest itr end_itr lim ds ws results
  = Some (ws, results ++ take (Z.to_nat lim - length results)
                              (scan_view ds ws (take (end_itr - itr) rest))).
Proof.
  induction rest as [|[k v] rest IH]; intros itr end_itr lim ds ws results Hle Hlen;
    cbn [scan_loop].
  - cbn in Hlen. replace (itr =? end_itr)%nat with true
      by (symmetry; apply Nat.eqb_eq; lia).
    rewrite take_nil. cbn [scan_view]. rewrite take_nil, app_nil_r. reflexivity.
  - destruct (Nat.eqb_spec itr end_itr) as [->|Hne].
    { rewrite Nat.sub_diag. cbn [take scan_view]. rewrite take_nil, app_nil_r.
      reflexivity. }
    cbn [length] in Hlen.
    replace (end_itr - itr)%nat with (S (end_itr - S itr)) by lia.
    cbn [take scan_view].
    destruct (Z.ltb_spec (Z.of_nat (length results)) lim) as [Hlim|Hlim]; cbn [negb].
    2:{ replace (Z.to_nat lim - length results)%nat with 0%nat by lia.
        cbn [take]. rewrite app_nil_r. reflexivity. }
    destruct (bool_decide (k ∈ ds)); [apply IH; lia|].
    unfold write_set_index. destruct (ws !! k) as [w|] eqn:Hk;
      rewrite IH by lia; rewrite length_app; cbn [length];
      replace (Z.to_nat lim - length results)%nat
        with (S (Z.to_nat lim - (length results + 1))) by lia;
      cbn [take]; rewrite <- app_assoc; reflexivity.
Qed.

(** X7: what a scan returns.  In a reachable state, for [key_start] not above
    [key_end], a scan that passes the transaction check succeeds, changes
    nothing, and returns, cut to [num_item_limit] items, the committed
    bindings whose table key lies in the closed range, in ascending key
    order, without the keys of the delete-set and with the buffered value for
    the keys of the write-set. *)
Theorem scan_returns_merged_range s tx_id t ks ke lim e :
  reachable s -> String.leb ks ke = true ->
  tx_id <> 0 \/ current_tx_id s = 0 ->
  scan s tx_id t ks ke lim [] e
  = Some (s, (true,
              take (Z.to_nat lim)
                (scan_view (delete_set s) (write_set s)
                   (List.filter
                      (StdMap.in_range (make_table_key t ks) (make_table_key t ke))
                      (table_data s))),
              e)).
Proof.
  intros Hr Hle Hcheck.
  pose proof (reachable_ordered _ Hr) as Ho.
  assert (Hkeys : String.leb (make_table_key t ks) (make_table_key t ke) = true).
  { unfold String.leb, make_table_key in *.
    rewrite compare_append_l, compare_append_l. exact Hle. }
  destruct (bounds_segment _ _ _ Ho Hkeys) as [Hbounds Hseg].
  unfold scan.
  replace ((tx_id =? 0) && negb (current_tx_id s =? tx_id)) with false.
  2:{ symmetry. destruct Hcheck as [Htx | Hidle].
      - destruct (Z.eqb_spec tx_id 0); [contradiction | reflexivity].
      - destruct (Z.eqb_spec tx_id 0) as [->|]; [|reflexivity].
        rewrite Hidle. reflexivity. }
  rewrite scan_loop_view.
  - cbn [length app]. rewrite Nat.sub_0_r, Hseg.
    destruct s; reflexivity.
  - exact Hbounds.
  - rewrite length_drop.
    pose proof (upper_bound_le (make_table_key t ke) (table_data s)). lia.
Qed.

Lemma scan_returns_merged_range_witness :
  let s := fst (del (fst (set (fst (start_transaction
             (fst (set (fst (set (fst (set init 0 "r" "a" "1" "")) 0 "r" "b" "2" ""))
                       0 "r" "c" "3" "")) "")) 1 "r" "a" "9" "")) 1 "r" "b" "") in
  scan s 1 "r" "a" "c" 10 [] ""
  = Some (s, (true,
              take (Z.to_nat 10)
                (scan_view (delete_set s) (write_set s)
                   (List.filter
                      (StdMap.in_range (make_table_key "r" "a") (make_table_key "r" "c"))
                      (table_data s))),
              "")).
Proof.
  intros s. apply (scan_returns_merged_range s 1 "r" "a" "c" 10 "").
  - exists [Set_ 0 "r" "a" "1"; Set_ 0 "r" "b" "2"; Set_ 0 "r" "c" "3";
            StartTransaction; Set_ 1 "r" "a" "9"; Del 1 "r" "b"].
    reflexivity.
  - reflexivity.
  - left. lia.
Defined.

Lemma scan_loop_bounded rest : forall itr end_itr lim ds ws results ws' results',
  scan_loop rest itr end_itr lim ds ws results = Some (ws', results') ->
  exists extra,
    results' = results ++ extra
    /\ ((length results <= Z.to_nat lim)%nat -> (length results' <= Z.to_nat lim)%nat)
    /\ map fst extra `sublist_of` map fst rest.
Proof.
  induction rest as [|[k v] rest IH]; intros itr end_itr lim ds ws results ws' results';
    cbn [scan_loop].
  - destruct (itr =? end_itr)%nat;
      [intros [= _ <-]; exists []; rewrite app_nil_r; repeat split; auto; constructor|].
    destruct (negb _);
      [intros [= _ <-]; exists []; rewrite app_nil_r; repeat split; auto; constructor
      | discriminate].
  - destruct (itr =? end_itr)%nat;
      [intros [= _ <-]; exists []; rewrite app_nil_r; repeat split; auto;
       apply sublist_nil_l|].
    destruct (Z.ltb_spec (Z.of_nat (length results)) lim) as [Hlim|Hlim]; cbn [negb];
      [|intros [= _ <-]; exists []; rewrite app_nil_r; repeat split; auto;
        apply sublist_nil_l].
    assert (Hadd : forall w ws0,
      scan_loop rest (S itr) end_itr lim ds ws0 (results ++ [(k, w)]) = Some (ws', results') ->
      exists extra,
        results' = results ++ extra
        /\ ((length results <= Z.to_nat lim)%nat -> (length results' <= Z.to_nat lim)%nat)
        /\ map fst extra `sublist_of` map fst ((k, v) :: rest)).
    { intros w ws0 Hl. destruct (IH _ _ _ _ _ _ _ _ Hl) as (extra & -> & Hlen & Hsub).
      exists ((k, w) :: extra). split; [rewrite <- app_assoc; reflexivity|].
      split.
      - intros _. apply Hlen. rewrite length_app. cbn. lia.
      - cbn. apply sublist_skip, Hsub. }
    destruct (bool_decide (k ∈ ds)).
    + intros Hl. destruct (IH _ _ _ _ _ _ _ _ Hl) as (extra & -> & Hlen & Hsub).
      exists extra. split; [reflexivity|]. split; [exact Hlen|].
      cbn. apply sublist_cons, Hsub.
    + unfold write_set_index. destruct (ws !! k) as [w|]; apply Hadd.
Qed.

(** X8: every scan that returns reports at most [num_item_limit] items and
    leaves the engine state unchanged, and the keys it reports are a
    subsequence of the committed table keys: they come in the order of the
    ordered map and none is reported twice. *)
Theorem scan_is_bounded_and_ordered s tx_id t ks ke lim e s' ok results e' :
  scan s tx_id t ks ke lim [] e = Some (s', (ok, results, e')) ->
  s' = s
  /\ (length results <= Z.to_nat lim)%nat
  /\ map fst results `sublist_of` StdMap.keys (table_data s).
Proof.
  intros Hscan. split; [eapply scan_state; eauto|].
  revert Hscan. unfold scan.
  destruct (_ && _);
    [intros [= _ _ <- _]; split; [cbn; lia | apply sublist_nil_l]|].
  destruct (scan_loop _ _ _ _ _ _ _) as [[ws' r']|] eqn:Hl; [|discriminate].
  intros [= _ _ <- _].
  destruct (scan_loop_bounded _ _ _ _ _ _ _ _ _ Hl) as (extra & -> & Hlen & Hsub).
  cbn [app] in *. split; [apply Hlen; cbn; lia|].
  unfold StdMap.keys. etransitivity; [exact Hsub|].
  apply fmap_sublist, sublist_drop.
Qed.

Lemma scan_is_bounded_and_ordered_witness :
  let s := fst (set (fst (set (fst (set init 0 "r" "a" "1" "")) 0 "r" "b" "2" ""))
                    0 "r" "c" "3" "") in
  let results := [(make_table_key "r" "a", "1"); (make_table_key "r" "b", "2")] in
  s = s
  /\ (length results <= Z.to_nat 2)%nat
  /\ map fst results `sublist_of` StdMap.keys (table_data s).
Proof.
  intros s results.
  apply (scan_is_bounded_and_ordered s 0 "r" "a" "c" 2 "" s true results "").
  reflexivity.
Defined.

(** X10: what a commit leaves.  In a reachable state the commit of the live
    transaction succeeds, empties both buffers and frees the transaction
    slot; afterwards a key of the delete-set has no committed value, a key
    that had a committed value still has that value, and a key that had none
    has the value buffered for it in the write-set, if any. *)
Theorem commit_outcome s e :
  reachable s ->
  let out := commit_transaction s (current_tx_id s) e in
  snd out = (true, e)
  /\ current_tx_id (fst out) = 0
  /\ write_set (fst out) = ∅
  /\ delete_set (fst out) = ∅
  /\ (forall k,
        StdMap.find k (table_data (fst out))
        = if bool_decide (k ∈ delete_set s) then None
          else match StdMap.find k (table_data s) with
               | Some v0 => Some v0
               | None => write_set s !! k
               end).
Proof.
  intros Hr out. subst out.
  split; [|split; [|split; [|split]]];
    try (unfold commit_transaction; rewrite Z.eqb_refl; reflexivity).
  intros k. apply commit_transaction_table_data, reachable_ordered, Hr.
Qed.

Lemma commit_outcome_witness :
  let s := fst (del (fst (set (fst (start_transaction
                    (fst (set init 0 "t" "a" "1" "")) "")) 1 "t" "b" "2" ""))
                    1 "t" "a" "") in
  let out := commit_transaction s (current_tx_id s) "" in
  snd out = (true, "")
  /\ current_tx_id (fst out) = 0
  /\ write_set (fst out) = ∅
  /\ delete_set (fst out) = ∅
  /\ (forall k,
        StdMap.find k (table_data (fst out))
        = if bool_decide (k ∈ delete_set s) then None
          else match StdMap.find k (table_data s) with
               | Some v0 => Some v0
               | None => write_set s !! k
               end).
Proof.
  intros s. apply (commit_outcome s "").
  exists [Set_ 0 "t" "a" "1"; StartTransaction; Set_ 1 "t" "b" "2"; Del 1 "t" "a"].
  reflexivity.
Defined.

(** X11: one transaction at a time.  When no transaction is live,
    [start_transaction] hands out the counter's value; while that
    transaction is live every further [start_transaction] fails with id 0 and
    ["A transaction is already running"] and changes nothing; once it is
    committed or rolled back the next start succeeds with the following id. *)
Theorem one_transaction_at_a_time s (committed : bool) e :
  current_tx_id s = 0 -> next_tx_id s <> 0 ->
  let tx := next_tx_id s in
  let s1 := fst (start_transaction s e) in
  let s2 := if committed then fst (commit_transaction s1 tx e)
            else fst (rollback_transaction s1 tx e) in
  snd (start_transaction s e) = (tx, e)
  /\ current_tx_id s1 = tx
  /\ start_transaction s1 e = (s1, (0, "A transaction is already running"))
  /\ snd (start_transaction s2 e) = (uint64_wrap (tx + 1), e).
Proof.
  intros Hidle Hnext tx s1 s2. subst tx s1 s2.
  assert (Hstart : start_transaction s e
                   = (with_buffers
                        {| table_data := table_data s; table_to_id := table_to_id s;
                           next_table_id := next_table_id s;
                           next_tx_id := uint64_wrap (next_tx_id s + 1);
                           current_tx_id := next_tx_id s;
                           write_set := write_set s; delete_set := delete_set s |}
                        (write_set s) (delete_set s),
                      (next_tx_id s, e))).
  { unfold start_transaction. rewrite Hidle. reflexivity. }
  rewrite Hstart. cbn [fst snd].
  split; [reflexivity|]. split; [reflexivity|]. split.
  - unfold start_transaction. cbn [with_buffers current_tx_id].
    destruct (Z.eqb_spec (next_tx_id s) 0); [contradiction | reflexivity].
  - unfold commit_transaction, rollback_transaction.
    cbn [with_buffers current_tx_id].
    rewrite Z.eqb_refl. cbn [negb fst].
    destruct committed; reflexivity.
Qed.

Lemma one_transaction_at_a_time_witness :
  let s := init in
  let tx := next_tx_id s in
  let s1 := fst (start_transaction s "") in
  let s2 := fst (commit_transaction s1 tx "") in
  snd (start_transaction s "") = (tx, "")
  /\ current_tx_id s1 = tx
  /\ start_transaction s1 "" = (s1, (0, "A transaction is already running"))
  /\ snd (start_transaction s2 "") = (uint64_wrap (tx + 1), "").
Proof.
  apply (one_transaction_at_a_time init true "").
  - reflexivity.
  - cbn. lia.
Defined.

Lemma make_table_key_injective t k t' k' :
  Serialization.find_char NUL t = None -> Serialization.find_char NUL t' = None ->
  make_table_key t k = make_table_key t' k' -> t = t' /\ k = k'.
Proof.
  intros Ht Ht' Heq.
  pose proof (split_make_composite_key NUL t k Ht) as H1.
  pose proof (split_make_composite_key NUL t' k' Ht') as H2.
  unfold make_table_key in Heq. rewrite Heq, H2 in H1.
  injection H1 as -> ->. auto.
Qed.

Lemma get_after_set_other s tx t k v e1 t' k' value e2 :
  make_table_key t' k' <> make_table_key t k ->
  snd (get (fst (set s tx t k v e1)) tx t' k' value e2) = snd (get s tx t' k' value e2).
Proof.
  intros Hne. unfold set.
  destruct (tx =? 0) eqn:H0;
    (destruct (negb _ && negb (current_tx_id s =? tx)) eqn:Hg; [reflexivity|]);
    cbn [fst]; unfold get; cbn [current_tx_id]; rewrite H0, Hg;
    cbn [negb table_data write_set delete_set].
  - rewrite find_assign_other by exact Hne. destruct (StdMap.find _ _); reflexivity.
  - rewrite lookup_insert_ne by (intros Heq; apply Hne; symmetry; exact Heq).
    destruct (write_set s !! make_table_key t' k'); [reflexivity|].
    rewrite (bool_decide_ext (make_table_key t' k' ∈ delete_set s ∖ {[make_table_key t k]})
               (make_table_key t' k' ∈ delete_set s)).
    2:{ rewrite elem_of_difference, elem_of_singleton. tauto. }
    destruct (bool_decide _); [reflexivity|].
    destruct (StdMap.find _ _); reflexivity.
Qed.

Lemma get_after_del_other s tx t k e1 t' k' value e2 :
  StdMap.ordered (table_data s) = true ->
  make_table_key t' k' <> make_table_key t k ->
  snd (get (fst (del s tx t k e1)) tx t' k' value e2) = snd (get s tx t' k' value e2).
Proof.
  intros Ho Hne. unfold del.
  destruct (tx =? 0) eqn:H0;
    (destruct (negb _ && negb (current_tx_id s =? tx)) eqn:Hg; [reflexivity|]);
    cbn [fst]; unfold get; cbn [current_tx_id]; rewrite H0, Hg;
    cbn [negb table_data write_set delete_set].
  - rewrite find_erase_other by (exact Hne || exact Ho).
    destruct (StdMap.find _ _); reflexivity.
  - rewrite lookup_delete_ne by (intros Heq; apply Hne; symmetry; exact Heq).
    destruct (write_set s !! make_table_key t' k'); [reflexivity|].
    rewrite (bool_decide_ext (make_table_key t' k' ∈ delete_set s ∪ {[make_table_key t k]})
               (make_table_key t' k' ∈ delete_set s)).
    2:{ rewrite elem_of_union, elem_of_singleton. tauto. }
    destruct (bool_decide _); [reflexivity|].
    destruct (StdMap.find _ _); reflexivity.
Qed.

(** X12: tables are isolated.  In a reachable state, for table names without
    a NUL byte, a [set] or a [del] on one table and key, one-shot or under a
    transaction, whether it succeeds or not, does not change what a [get]
    with the same transaction id reports for any other table or key: the
    flag, the value and the message are the same as before. *)
Theorem tables_are_isolated s tx_id t k v t' k' value e1 e2 :
  reachable s ->
  Serialization.find_char NUL t = None -> Serialization.find_char NUL t' = None ->
  (t', k') <> (t, k) ->
  snd (get (fst (set s tx_id t k v e1)) tx_id t' k' value e2)
  = snd (get s tx_id t' k' value e2)
  /\ snd (get (fst (del s tx_id t k e1)) tx_id t' k' value e2)
     = snd (get s tx_id t' k' value e2).
Proof.
  intros Hr Ht Ht' Hne.
  assert (Hkeys : make_table_key t' k' <> make_table_key t k).
  { intros Heq. apply Hne.
    destruct (make_table_key_injective _ _ _ _ Ht' Ht Heq) as [-> ->]. reflexivity. }
  split.
  - apply get_after_set_other, Hkeys.
  - apply get_after_del_other; [apply reachable_ordered, Hr | exact Hkeys].
Qed.

Lemma tables_are_isolated_witness :
  let s := fst (set (fst (set init 0 "users" "a" "1" "")) 0 "edges" "a" "2" "") in
  snd (get (fst (set s 0 "users" "a" "9" "")) 0 "edges" "a" "" "")
  = snd (get s 0 "edges" "a" "" "")
  /\ snd (get (fst (del s 0 "users" "a" "")) 0 "edges" "a" "" "")
     = snd (get s 0 "edges" "a" "" "").
Proof.
  intros s. apply (tables_are_isolated s 0 "users" "a" "9" "edges" "a" "" "" "").
  - exists [Set_ 0 "users" "a" "1"; Set_ 0 "edges" "a" "2"]. reflexivity.
  - reflexivity.
  - reflexivity.
  - discriminate.
Defined.

(** X13: a NUL byte in a table name breaks the isolation.  The table key is
    the table name, a NUL byte and the key, and nothing rejects a NUL byte in
    either: the key [k] of table [t NUL x] and the key [x NUL k] of table [t]
    are the same binding, so a value written through one is read through the
    other. *)
Theorem nul_in_table_name_aliases s t x k v value e1 e2 :
  let s' := fst (set s 0 (t +:+ string1 NUL +:+ x) k v e1) in
  make_table_key (t +:+ string1 NUL +:+ x) k = make_table_key t (x +:+ string1 NUL +:+ k)
  /\ get s' 0 t (x +:+ string1 NUL +:+ k) value e2 = (s', (true, v, e2)).
Proof.
  intros s'.
  assert (Hk : make_table_key (t +:+ string1 NUL +:+ x) k
               = make_table_key t (x +:+ string1 NUL +:+ k)).
  { unfold make_table_key. rewrite !append_assoc. reflexivity. }
  split; [exact Hk|].
  subst s'. unfold set, get. cbn [Z.eqb negb andb fst table_data].
  rewrite <- Hk, find_assign_same. reflexivity.
Qed.

Lemma reachable_next_table_id s :
  reachable s -> next_table_id s = uint64_wrap (1 + Z.of_nat (size (table_to_id s))).
Proof.
  intros [cs Hrun].
  assert (Hinit : next_table_id init
                  = uint64_wrap (1 + Z.of_nat (size (table_to_id init)))) by reflexivity.
  revert Hrun Hinit. generalize init as s0.
  induction cs as [|c cs IH]; intros s0 Hrun Hs0; cbn [run] in Hrun.
  - injection Hrun as <-. exact Hs0.
  - destruct (step s0 c) as [s1|] eqn:Hstep; [|discriminate].
    eapply IH; [exact Hrun|]. clear IH Hrun.
    destruct c; cbn [step] in Hstep.
    + injection Hstep as <-. unfold create_table.
      destruct (table_to_id s0 !! table_name) eqn:Hl; cbn [fst]; [exact Hs0|].
      cbn [next_table_id table_to_id]. rewrite map_size_insert_None by exact Hl.
      rewrite Hs0. unfold uint64_wrap. rewrite Nat2Z.inj_succ.
      rewrite Zplus_mod_idemp_l. f_equal. lia.
    + injection Hstep as <-. unfold start_transaction.
      destruct (negb _); exact Hs0.
    + injection Hstep as <-. unfold commit_transaction.
      destruct (negb _); exact Hs0.
    + injection Hstep as <-. unfold rollback_transaction.
      destruct (negb _); exact Hs0.
    + injection Hstep as <-. rewrite get_keeps_state. exact Hs0.
    + injection Hstep as <-. unfold set.
      destruct (_ && _); [exact Hs0|]. destruct (_ =? _); exact Hs0.
    + injection Hstep as <-. unfold del.
      destruct (_ && _); [exact Hs0|]. destruct (_ =? _); exact Hs0.
    + destruct (scan s0 tx_id table_name key_start key_end num_item_limit [] "")
        as [[s2 out]|] eqn:Hscan; [|discriminate].
      injection Hstep as <-. cbn [fst].
      rewrite (scan_state _ _ _ _ _ _ _ _ _ _ Hscan). exact Hs0.
Qed.

(** X14: table ids count the tables.  In a reachable state holding [n]
    tables, fewer than 2^64 - 1, [create_table] with a new name returns
    [n + 1], which is not the failure value 0, whatever the partition method;
    it records the name and touches nothing else, so that a second
    [create_table] with that name returns 0 with ["Table <name> already
    exists"] and changes nothing. *)
Theorem create_table_counts_tables s t pm pm' e e' :
  reachable s -> table_to_id s !! t = None ->
  Z.of_nat (size (table_to_id s)) + 1 < 2 ^ 64 ->
  let s' := fst (create_table s t pm e) in
  snd (create_table s t pm e) = (Z.of_nat (size (table_to_id s)) + 1, e)
  /\ size (table_to_id s') = S (size (table_to_id s))
  /\ (forall t', t' <> t -> table_to_id s' !! t' = table_to_id s !! t')
  /\ table_data s' = table_data s
  /\ current_tx_id s' = current_tx_id s
  /\ write_set s' = write_set s
  /\ delete_set s' = delete_set s
  /\ create_table s' t pm' e' = (s', (0, "Table " +:+ t +:+ " already exists")).
Proof.
  intros Hr Hnew Hsize s'. subst s'.
  pose proof (reachable_next_table_id s Hr) as Hnext.
  destruct (create_table s t pm e) as [s' [i m]] eqn:Hc.
  unfold create_table in Hc. rewrite Hnew in Hc. injection Hc as <- <- <-.
  cbn [fst snd table_to_id table_data current_tx_id write_set delete_set].
  split.
  { f_equal. rewrite Hnext. unfold uint64_wrap.
    rewrite (Z.mod_small (1 + Z.of_nat (size (table_to_id s)))) by lia.
    rewrite Zminus_mod_idemp_l.
    replace (1 + Z.of_nat (size (table_to_id s)) + 1 - 1)
      with (Z.of_nat (size (table_to_id s)) + 1) by lia.
    apply Z.mod_small. lia. }
  split; [apply map_size_insert_None, Hnew|].
  split; [intros t' Hne; apply lookup_insert_ne; congruence|].
  repeat (split; [reflexivity|]).
  unfold create_table. cbn [table_to_id]. rewrite lookup_insert_eq. reflexivity.
Qed.

Lemma create_table_counts_tables_witness :
  let s := fst (create_table init "vertices" "hash" "") in
  let s' := fst (create_table s "edges" "range" "") in
  snd (create_table s "edges" "range" "") = (Z.of_nat (size (table_to_id s)) + 1, "")
  /\ size (table_to_id s') = S (size (table_to_id s))
  /\ (forall t', t' <> "edges" -> table_to_id s' !! t' = table_to_id s !! t')
  /\ table_data s' = table_data s
  /\ current_tx_id s' = current_tx_id s
  /\ write_set s' = write_set s
  /\ delete_set s' = delete_set s
  /\ create_table s' "edges" "hash" "" = (s', (0, "Table " +:+ "edges" +:+ " already exists")).
Proof.
  intros s.
  apply (create_table_counts_tables s "edges" "range" "hash" "" "").
  - exists [CreateTable "vertices" "hash"]. reflexivity.
  - reflexivity.
  - vm_compute. reflexivity.
Defined.

Lemma scan_loop_overrun rest : forall itr end_itr lim ds ws results,
  (end_itr < itr)%nat ->
  Z.of_nat (length results) + Z.of_nat (length rest) < lim ->
  scan_loop rest itr end_itr lim ds ws results = None.
Proof.
  induction rest as [|[k v] rest IH]; intros itr end_itr lim ds ws results Hlt Hlim;
    cbn [scan_loop length] in *.
  - replace (itr =? end_itr)%nat with false by (symmetry; apply Nat.eqb_neq; lia).
    replace (Z.of_nat (length results) <? lim) with true
      by (symmetry; apply Z.ltb_lt; lia).
    reflexivity.
  - replace (itr =? end_itr)%nat with false by (symmetry; apply Nat.eqb_neq; lia).
    replace (Z.of_nat (length results) <? lim) with true
      by (symmetry; apply Z.ltb_lt; lia).
    cbn [negb].
    destruct (bool_decide (k ∈ ds)); [apply IH; lia|].
    unfold write_set_index.
    destruct (ws !! k); apply IH; try lia; rewrite length_app; cbn [length]; lia.
Qed.

Lemma bounds_reversed (m : list (string * string)) a b k :
  StdMap.ordered m = true -> k ∈ StdMap.keys m ->
  String.ltb b k = true -> String.ltb k a = true ->
  (StdMap.upper_bound b m < StdMap.lower_bound a m)%nat.
Proof.
  intros Ho Hk Hbk Hka. induction m as [|[k0 v0] m IH].
  - apply elem_of_nil in Hk. contradiction.
  - cbn [StdMap.upper_bound StdMap.lower_bound].
    apply elem_of_cons in Hk as [Hk|Hk].
    + cbn [fst] in Hk. subst k0. rewrite Hbk, Hka. lia.
    + assert (Hk0 : String.ltb k0 k = true).
      { apply ltb_compare. eapply keys_above;
          [eapply ordered_tail; eauto | eapply ordered_head; eauto | exact Hk]. }
      assert (Hk0a : String.ltb k0 a = true).
      { apply ltb_compare. eapply compare_lt_trans; apply ltb_compare; eauto. }
      rewrite Hk0a. destruct (String.ltb b k0); [lia|].
      apply -> Nat.succ_lt_mono. apply IH; [eapply ordered_tail; eauto | exact Hk].
Qed.

(** X9: a scan over a reversed range runs off the map.  In a reachable
    state, when a committed key of the table lies strictly between
    [key_end] and [key_start], the loop of [scan] starts behind the position
    where it is to stop; with a limit of at least the number of committed
    bindings it steps to [end()] and reads there, which has no defined
    behaviour. *)
Theorem scan_reversed_range_overruns s tx_id t ks ke k lim results e :
  reachable s ->
  tx_id <> 0 \/ current_tx_id s = 0 ->
  make_table_key t k ∈ StdMap.keys (table_data s) ->
  String.ltb ke k = true -> String.ltb k ks = true ->
  Z.of_nat (length (table_data s)) <= lim ->
  scan s tx_id t ks ke lim results e = None.
Proof.
  intros Hr Hcheck Hk Hek Hks Hlim.
  assert (Hlt : (StdMap.upper_bound (make_table_key t ke) (table_data s)
                 < StdMap.lower_bound (make_table_key t ks) (table_data s))%nat).
  { apply (bounds_reversed _ _ _ (make_table_key t k)).
    - apply reachable_ordered, Hr.
    - exact Hk.
    - unfold String.ltb, make_table_key in *. rewrite compare_append_l, compare_append_l.
      exact Hek.
    - unfold String.ltb, make_table_key in *. rewrite compare_append_l, compare_append_l.
      exact Hks. }
  unfold scan.
  replace ((tx_id =? 0) && negb (current_tx_id s =? tx_id)) with false.
  2:{ symmetry. destruct Hcheck as [Htx | Hidle].
      - destruct (Z.eqb_spec tx_id 0); [contradiction | reflexivity].
      - destruct (Z.eqb_spec tx_id 0) as [->|]; [|reflexivity].
        rewrite Hidle. reflexivity. }
  rewrite scan_loop_overrun; [reflexivity | exact Hlt |].
  rewrite length_drop. cbn [length].
  pose proof (lower_bound_le (make_table_key t ks) (table_data s)). lia.
Qed.

Lemma scan_reversed_range_overruns_witness :
  scan (fst (set (fst (set init 0 "r" "a" "1" "")) 0 "r" "b" "2" ""))
       0 "r" "c" "a" 10 [] ""
  = None.
Proof.
  apply (scan_reversed_range_overruns
           (fst (set (fst (set init 0 "r" "a" "1" "")) 0 "r" "b" "2" ""))
           0 "r" "c" "a" "b" 10 [] "").
  - exists [Set_ 0 "r" "a" "1"; Set_ 0 "r" "b" "2"]. reflexivity.
  - right. reflexivity.
  - apply list_elem_of_further, list_elem_of_here.
  - reflexivity.
  - reflexivity.
  - vm_compute. discriminate.
Defined.

End simple_engine_calls.

(** ** Batches, one after the other *)

Section batch_composition.
Import Kvt.
Context {M : Type} `{KVTManagerWrapperInterface M}.

Lemma run_ops_app (tx_id : Z) (ops1 ops2 : list KVTOp) : forall m : M,
  run_ops (ops1 ++ ops2) m tx_id
  = (fst (run_ops ops2 (fst (run_ops ops1 m tx_id)) tx_id),
     snd (run_ops ops1 m tx_id) ++ snd (run_ops ops2 (fst (run_ops ops1 m tx_id)) tx_id)).
Proof.
  induction ops1 as [|o ops1 IH]; intros m; cbn [app run_ops].
  - cbn. destruct (run_ops ops2 m tx_id); reflexivity.
  - destruct (batch_op m tx_id o) as [m' [r e]].
    rewrite IH. destruct (run_ops ops1 m' tx_id) as [m1 r1]. reflexivity.
Qed.

(** X15: splitting a batch.  [batch_execute] on [ops1 ++ ops2] leaves the
    engine in the state that [batch_execute] on [ops1] followed by
    [batch_execute] on [ops2] leaves, its results are the results of the two
    batches one after the other, and it returns [SUCCESS] exactly when both
    do; the results passed in are discarded. *)
Theorem batch_execute_app (m : M) (tx_id : Z) (ops1 ops2 : list KVTOp)
    (results0 results1 results2 : list KVTOpResult) (e0 e1 e2 : string) :
  let out := batch_execute m tx_id (ops1 ++ ops2) results0 e0 in
  let out1 := batch_execute m tx_id ops1 results1 e1 in
  let out2 := batch_execute (fst out1) tx_id ops2 results2 e2 in
  fst out = fst out2
  /\ snd (fst (snd out)) = snd (fst (snd out1)) ++ snd (fst (snd out2))
  /\ (fst (fst (snd out)) = SUCCESS
      <-> fst (fst (snd out1)) = SUCCESS /\ fst (fst (snd out2)) = SUCCESS).
Proof.
  intros out out1 out2. subst out out1 out2.
  destruct (batch_execute_run_ops m tx_id (ops1 ++ ops2) results0 e0) as (-> & -> & ->).
  destruct (batch_execute_run_ops m tx_id ops1 results1 e1) as (-> & -> & ->).
  destruct (batch_execute_run_ops (fst (run_ops ops1 m tx_id)) tx_id ops2 results2 e2)
    as (-> & -> & ->).
  rewrite run_ops_app. cbn [fst snd]. rewrite forallb_app.
  split; [reflexivity|]. split; [reflexivity|].
  destruct (forallb succeeded (snd (run_ops ops1 m tx_id)));
    destruct (forallb succeeded _); cbn [andb]; split;
    try (intros [? ?]); try split; congruence.
Qed.

End batch_composition.

(** ** The shared base of the engines *)

Section base_engine.
Import Kvt Base.

(** X16: the table key can be taken apart again.  When [make_table_key]
    passes its assertions, which demand a non-empty table name and key
    without NUL bytes, [parse_table_key] of its result passes its own and
    gives back the table name and the key; so two pairs with the same table
    key are the same pair. *)
Theorem parse_table_key_make_table_key t k tk :
  make_table_key t k = Some tk ->
  parse_table_key tk = Some (t, k)
  /\ t <> "" /\ k <> ""
  /\ Serialization.find_char NUL t = None /\ Serialization.find_char NUL k = None
  /\ (forall t' k', make_table_key t' k' = Some tk -> t' = t /\ k' = k).
Proof.
  assert (Hparse : forall t k tk, make_table_key t k = Some tk ->
            parse_table_key tk = Some (t, k)
            /\ t <> "" /\ k <> ""
            /\ Serialization.find_char NUL t = None
            /\ Serialization.find_char NUL k = None).
  { clear. intros t k tk. unfold make_table_key.
    destruct (String.eqb_spec t ""); [discriminate|].
    destruct (Serialization.find_char NUL t) eqn:Ht; [discriminate|].
    destruct (String.eqb_spec k ""); [discriminate|].
    destruct (Serialization.find_char NUL k) eqn:Hk; [discriminate|].
    cbn [orb Serialization.found]. intros [= <-]. split; [|auto].
    pose proof (split_make_composite_key NUL t k Ht) as Hsplit.
    unfold Serialization.split_composite_key in Hsplit. unfold parse_table_key.
    destruct (Serialization.find_char NUL (t +:+ string1 NUL +:+ k)); [|discriminate].
    injection Hsplit as H1 H2. f_equal. f_equal; [exact H1 | exact H2]. }
  intros Hmake. destruct (Hparse _ _ _ Hmake) as (Hp & Ht & Hk & Hnt & Hnk).
  repeat (split; [assumption|]).
  intros t' k' Hmake'. destruct (Hparse _ _ _ Hmake') as (Hp' & _).
  rewrite Hp in Hp'. injection Hp' as -> ->. auto.
Qed.

Lemma parse_table_key_make_table_key_witness :
  parse_table_key ("edges" +:+ string1 NUL +:+ "v1") = Some ("edges", "v1")
  /\ "edges" <> "" /\ "v1" <> ""
  /\ Serialization.find_char NUL "edges" = None /\ Serialization.find_char NUL "v1" = None
  /\ (forall t' k', make_table_key t' k' = Some ("edges" +:+ string1 NUL +:+ "v1") ->
        t' = "edges" /\ k' = "v1").
Proof.
  apply (parse_table_key_make_table_key "edges" "v1"). reflexivity.
Defined.

Lemma base_invariant_step n m c :
  n + 2 < 2 ^ 64 -> base_invariant n m -> base_invariant (n + 1) (step m c).
Proof.
  intros Hn (Hnt & Hnx & Hsync & Htbl & Huniq & Htx).
  assert (Hkeep : base_invariant (n + 1) m).
  { refine (conj _ (conj _ (conj Hsync (conj Htbl (conj Huniq Htx))))); lia. }
  destruct c as [t pm|]; cbn [step].
  - unfold create_table. destruct (tables m !! t) eqn:Hl; [exact Hkeep|].
    destruct (String.eqb_spec pm "hash") as [Hh|Hh]; cbn [negb andb].
    2: destruct (String.eqb_spec pm "range") as [Hg|Hg]; cbn [negb andb];
         [|exact Hkeep].
    all: cbn [fst]; unfold base_invariant;
      cbn [next_table_id next_tx_id tablename_to_id tables transactions];
      unfold uint64_wrap; rewrite Z.mod_small by lia.
    all: refine (conj _ (conj _ (conj _ (conj _ (conj _ _))))); try lia.
    all: try (intros t'; destruct (decide (t' = t)) as [->|Hne];
              [rewrite !lookup_insert_eq; reflexivity
              |rewrite !lookup_insert_ne by congruence; apply Hsync]).
    all: try (intros t' tbl; destruct (decide (t' = t)) as [->|Hne];
              [rewrite lookup_insert_eq; intros [= <-]; cbn; repeat split; auto; lia
              |rewrite lookup_insert_ne by congruence; intros Hl';
               destruct (Htbl _ _ Hl') as (? & ? & ?); repeat split; auto; lia]).
    all: try (intros t1 t2 tbl1 tbl2;
              destruct (decide (t1 = t)) as [->|Hne1];
              destruct (decide (t2 = t)) as [->|Hne2];
              rewrite ?lookup_insert_eq, ?lookup_insert_ne by congruence;
              [reflexivity
              |intros [= <-] H2 Hid; cbn in Hid; destruct (Htbl _ _ H2) as (_ & _ & ?); lia
              |intros H1 [= <-] Hid; cbn in Hid; destruct (Htbl _ _ H1) as (_ & _ & ?); lia
              |apply Huniq]).
    all: intros i tx Hi; destruct (Htx _ _ Hi); split; auto; lia.
  - unfold start_transaction. cbn [fst]. unfold base_invariant.
    cbn [next_table_id next_tx_id tablename_to_id tables transactions].
    unfold uint64_wrap. rewrite Z.mod_small by lia.
    refine (conj _ (conj _ (conj Hsync (conj Htbl (conj Huniq _))))); try lia.
    intros i tx. destruct (decide (i = next_tx_id m)) as [->|Hne].
    + rewrite lookup_insert_eq. intros [= <-]. cbn. split; [reflexivity | lia].
    + rewrite lookup_insert_ne by congruence. intros Hi.
      destruct (Htx _ _ Hi). split; auto; lia.
Qed.

Lemma base_invariant_run cs :
  Z.of_nat (length cs) + 1 < 2 ^ 64 -> base_invariant (Z.of_nat (length cs)) (run cs).
Proof.
  induction cs as [|c cs IH] using rev_ind; intros Hlen.
  - cbn. unfold base_invariant, run. cbn.
    refine (conj _ (conj _ (conj _ (conj _ (conj _ _))))); try lia.
    + intros t. rewrite !lookup_empty. reflexivity.
    + intros t tbl Hl. rewrite lookup_empty in Hl. discriminate.
    + intros t1 t2 tbl1 tbl2 Hl. rewrite lookup_empty in Hl. discriminate.
    + intros i tx Hl. rewrite lookup_empty in Hl. discriminate.
  - rewrite length_app in *. cbn [length] in *.
    unfold run. rewrite fold_left_app. cbn [fold_left].
    replace (Z.of_nat (length cs + 1)) with (Z.of_nat (length cs) + 1) by lia.
    apply base_invariant_step; [lia|]. apply IH. lia.
Qed.

(** X17: table and transaction ids of the base class.  After fewer than
    2^64 - 1 calls of [create_table] and [start_transaction] on a new engine,
    [tablename_to_id] holds for every table name the id of its [Table]
    record; every record carries its own name, the partition method ["hash"]
    or ["range"] and an id of at least 1 below the counter; two tables never
    share an id; and every transaction is filed under its own id. *)
Theorem base_ids_are_unique (cs : list call) :
  Z.of_nat (length cs) + 1 < 2 ^ 64 ->
  let m := run cs in
  (forall t, tablename_to_id m !! t = id <$> get_table m t)
  /\ (forall t tbl, get_table m t = Some tbl ->
        name tbl = t
        /\ (partition_method tbl = "hash" \/ partition_method tbl = "range")
        /\ 1 <= id tbl < next_table_id m)
  /\ (forall t1 t2 tbl1 tbl2,
        get_table m t1 = Some tbl1 -> get_table m t2 = Some tbl2 ->
        id tbl1 = id tbl2 -> t1 = t2)
  /\ (forall i tx, get_transaction m i = Some tx ->
        tx_id tx = i /\ 1 <= i < next_tx_id m).
Proof.
  intros Hlen m. subst m.
  destruct (base_invariant_run cs Hlen) as (_ & _ & Hsync & Htbl & Huniq & Htx).
  unfold get_table, get_transaction. auto.
Qed.

Lemma base_ids_are_unique_witness :
  let m := run [CreateTable "vertices" "hash"; StartTransaction;
                CreateTable "edges" "range"; CreateTable "edges" "hash";
                CreateTable "index" "btree"] in
  (forall t, tablename_to_id m !! t = id <$> get_table m t)
  /\ (forall t tbl, get_table m t = Some tbl ->
        name tbl = t
        /\ (partition_method tbl = "hash" \/ partition_method tbl = "range")
        /\ 1 <= id tbl < next_table_id m)
  /\ (forall t1 t2 tbl1 tbl2,
        get_table m t1 = Some tbl1 -> get_table m t2 = Some tbl2 ->
        id tbl1 = id tbl2 -> t1 = t2)
  /\ (forall i tx, get_transaction m i = Some tx ->
        tx_id tx = i /\ 1 <= i < next_tx_id m).
Proof.
  apply (base_ids_are_unique
           [CreateTable "vertices" "hash"; StartTransaction;
            CreateTable "edges" "range"; CreateTable "edges" "hash";
            CreateTable "index" "btree"]).
  vm_compute. reflexivity.
Defined.

(** X18: the order of the checks in [create_table] of the base class.  An
    existing name is reported as [TABLE_ALREADY_EXISTS] even when the
    partition method is not valid; a new name with a partition method other
    than ["hash"] and ["range"] gives [INVALID_PARTITION_METHOD]; both leave
    the engine and [table_id] as they were.  Otherwise the call returns
    [SUCCESS] with the counter's value in [table_id] and leaves [error_msg]
    alone, the table can be looked up with that id, that name and no
    entries, and the same call made again reports [TABLE_ALREADY_EXISTS]. *)
Theorem base_create_table_outcome m t pm table_id e :
  let out := create_table m t pm table_id e in
  match get_table m t with
  | Some _ =>
      out = (m, (TABLE_ALREADY_EXISTS, table_id, "Table '" +:+ t +:+ "' already exists"))
  | None =>
      if bool_decide (pm = "hash" \/ pm = "range") then
        snd out = (SUCCESS, next_table_id m, e)
        /\ get_table (fst out) t
           = Some {| id := next_table_id m; name := t; partition_method := pm;
                     entries := [] |}
        /\ (forall t', t' <> t -> get_table (fst out) t' = get_table m t')
        /\ transactions (fst out) = transactions m
        /\ fst (fst (snd (create_table (fst out) t pm table_id e))) = TABLE_ALREADY_EXISTS
        /\ fst (create_table (fst out) t pm table_id e) = fst out
      else
        out = (m, (INVALID_PARTITION_METHOD, table_id,
                   "Invalid partition method. Must be 'hash' or 'range'"))
  end.
Proof.
  intros out. subst out. unfold get_table.
  destruct (tables m !! t) eqn:Hl.
  { unfold create_table. rewrite Hl. reflexivity. }
  assert (Hpm : negb (String.eqb pm "hash") && negb (String.eqb pm "range")
                = negb (bool_decide (pm = "hash" \/ pm = "range"))).
  { destruct (String.eqb_spec pm "hash") as [->|Hh];
      [rewrite bool_decide_eq_true_2 by auto; reflexivity|].
    destruct (String.eqb_spec pm "range") as [->|Hg];
      [rewrite bool_decide_eq_true_2 by auto; reflexivity|].
    rewrite bool_decide_eq_false_2 by tauto. reflexivity. }
  destruct (create_table m t pm table_id e) as [m' [[err i] msg]] eqn:Hc.
  unfold create_table in Hc. rewrite Hl, Hpm in Hc.
  destruct (bool_decide (pm = "hash" \/ pm = "range")); cbn [negb] in Hc;
    [|symmetry; exact Hc].
  injection Hc as <- <- <- <-.
  cbn [fst snd tables transactions].
  split; [reflexivity|]. split; [apply lookup_insert_eq|].
  split; [intros t' Hne; apply lookup_insert_ne; congruence|].
  split; [reflexivity|].
  unfold create_table. cbn [tables]. rewrite lookup_insert_eq. split; reflexivity.
Qed.

End base_engine.

(** ** The serialized-columns layout over the serialized engine *)

Section in_memory_columns.
Import Serialization InMemoryAdapter.

Lemma ltb_irrefl a : String.ltb a a = false.
Proof. unfold String.ltb. rewrite compare_refl. reflexivity. Qed.

Lemma ltb_trans a b c :
  String.ltb a b = true -> String.ltb b c = true -> String.ltb a c = true.
Proof.
  rewrite !ltb_compare. apply compare_lt_trans.
Qed.

Lemma ltb_total a b :
  String.ltb a b = false -> String.eqb a b = false -> String.ltb b a = true.
Proof.
  intros Hlt Hne. apply ltb_compare.
  destruct (String.compare a b) eqn:E.
  - apply String.compare_eq_iff in E. subst b. rewrite String.eqb_refl in Hne. discriminate.
  - apply ltb_compare in E. congruence.
  - apply compare_gt_lt, E.
Qed.

Lemma ltb_not_eqb a b : String.ltb a b = true -> String.eqb a b = false.
Proof.
  intros Hlt. destruct (String.eqb_spec a b) as [->|]; [|reflexivity].
  rewrite ltb_irrefl in Hlt. discriminate.
Qed.

Lemma ltb_le_trans a b c :
  String.ltb a b = true -> String.ltb c b = false -> String.ltb a c = true.
Proof.
  intros Hab Hcb. destruct (String.eqb_spec c b) as [->|Hne]; [exact Hab|].
  eapply ltb_trans; [exact Hab|]. apply ltb_total.
  - exact Hcb.
  - apply String.eqb_neq, Hne.
Qed.

Lemma upsert_nil col val : upsert [] col val = [{| column := col; value := val |}].
Proof. reflexivity. Qed.

Lemma upsert_cons a tl col val :
  upsert (a :: tl) col val
  = if String.ltb (column a) col then a :: upsert tl col val
    else if String.eqb (column a) col then {| column := column a; value := val |} :: tl
    else {| column := col; value := val |} :: a :: tl.
Proof.
  unfold upsert, at_column, emplace. cbn [lower_bound].
  destruct (String.ltb (column a) col).
  - cbn [lookup list_lookup]. change ((a :: tl) !! S (lower_bound tl col))
      with (tl !! lower_bound tl col).
    destruct (tl !! lower_bound tl col) as [cv|]; [|reflexivity].
    destruct (String.eqb (column cv) col); reflexivity.
  - cbn. destruct (String.eqb (column a) col); reflexivity.
Qed.

Lemma column_value_nil col : column_value [] col = None.
Proof. reflexivity. Qed.

Lemma column_value_cons a tl col :
  column_value (a :: tl) col
  = if String.ltb (column a) col then column_value tl col
    else if String.eqb (column a) col then Some (value a) else None.
Proof.
  unfold column_value, at_column. cbn [lower_bound].
  destruct (String.ltb (column a) col); [reflexivity|].
  cbn. destruct (String.eqb (column a) col); reflexivity.
Qed.

Lemma column_value_upsert columns col val col' :
  column_value (upsert columns col val) col'
  = if String.eqb col' col then Some val else column_value columns col'.
Proof.
  induction columns as [|a tl IH].
  - rewrite upsert_nil, column_value_cons, column_value_nil. cbn [column value].
    rewrite (String.eqb_sym col' col).
    destruct (String.ltb col col') eqn:Hlt; [|reflexivity].
    rewrite (ltb_not_eqb _ _ Hlt). reflexivity.
  - rewrite upsert_cons.
    destruct (String.ltb (column a) col) eqn:Hac.
    + rewrite !column_value_cons, IH.
      destruct (String.ltb (column a) col') eqn:Hac'; [reflexivity|].
      destruct (String.eqb_spec col' col) as [Heq|Hne]; [|reflexivity].
      rewrite Heq in Hac'. congruence.
    + destruct (String.eqb_spec (column a) col) as [Heq|Hne].
      * rewrite !column_value_cons. cbn [column value]. subst col.
        destruct (String.ltb (column a) col') eqn:Hac'.
        { rewrite (String.eqb_sym col'), (ltb_not_eqb _ _ Hac'). reflexivity. }
        rewrite (String.eqb_sym col').
        destruct (String.eqb (column a) col'); reflexivity.
      * rewrite (column_value_cons {| column := col; value := val |}).
        cbn [column value]. rewrite (String.eqb_sym col' col).
        destruct (String.ltb col col') eqn:Hcc'.
        { rewrite (ltb_not_eqb _ _ Hcc'). reflexivity. }
        destruct (String.eqb_spec col col') as [Heq|Hne']; [reflexivity|].
        rewrite column_value_cons.
        assert (Hlt : String.ltb col' col = true).
        { apply ltb_total; [exact Hcc' | apply String.eqb_neq, Hne']. }
        assert (Hlt2 : String.ltb col (column a) = true).
        { apply ltb_total; [exact Hac | apply String.eqb_neq, Hne]. }
        pose proof (ltb_trans _ _ _ Hlt Hlt2) as Hlt3.
        rewrite (ltb_asym _ _ Hlt3).
        rewrite String.eqb_sym, (ltb_not_eqb _ _ Hlt3). reflexivity.
Qed.

Lemma is_sorted_cons2 a b tl :
  is_sorted (a :: b :: tl) = negb (cv_lt b a) && is_sorted (b :: tl).
Proof. reflexivity. Qed.

Lemma strictly_sorted_cons2 a b tl :
  strictly_sorted (a :: b :: tl) = cv_lt a b && strictly_sorted (b :: tl).
Proof. reflexivity. Qed.

Lemma is_sorted_upsert columns col val :
  is_sorted columns = true -> is_sorted (upsert columns col val) = true.
Proof.
  induction columns as [|a tl IH]; intros Hs; [reflexivity|].
  rewrite upsert_cons.
  destruct (String.ltb (column a) col) eqn:Hac.
  - destruct tl as [|b tl'].
    + rewrite upsert_nil, is_sorted_cons2. unfold cv_lt. cbn [column].
      rewrite (ltb_asym _ _ Hac). reflexivity.
    + rewrite is_sorted_cons2 in Hs. apply andb_prop in Hs as [Hba Htl].
      specialize (IH Htl). rewrite upsert_cons in IH |- *.
      unfold cv_lt in *.
      destruct (String.ltb (column b) col);
        [|destruct (String.eqb (column b) col)];
        rewrite is_sorted_cons2, IH; unfold cv_lt; cbn [column];
        rewrite ?Hba, ?(ltb_asym _ _ Hac); reflexivity.
  - destruct (String.eqb (column a) col).
    + destruct tl as [|b tl']; [reflexivity|].
      rewrite is_sorted_cons2 in Hs |- *. exact Hs.
    + rewrite is_sorted_cons2, Hs. unfold cv_lt. cbn [column]. rewrite Hac. reflexivity.
Qed.

Lemma strictly_sorted_upsert columns col val :
  strictly_sorted columns = true -> strictly_sorted (upsert columns col val) = true.
Proof.
  induction columns as [|a tl IH]; intros Hs; [reflexivity|].
  rewrite upsert_cons.
  destruct (String.ltb (column a) col) eqn:Hac.
  - destruct tl as [|b tl'].
    + rewrite upsert_nil, strictly_sorted_cons2. unfold cv_lt. cbn [column].
      rewrite Hac. reflexivity.
    + rewrite strictly_sorted_cons2 in Hs. apply andb_prop in Hs as [Hab Htl].
      specialize (IH Htl). rewrite upsert_cons in IH |- *.
      unfold cv_lt in *.
      destruct (String.ltb (column b) col);
        [|destruct (String.eqb (column b) col)];
        rewrite strictly_sorted_cons2, IH; unfold cv_lt; cbn [column];
        rewrite ?Hab, ?Hac; reflexivity.
  - destruct (String.eqb (column a) col) eqn:Heq.
    + destruct tl as [|b tl']; [reflexivity|].
      rewrite strictly_sorted_cons2 in Hs |- *. exact Hs.
    + rewrite strictly_sorted_cons2, Hs. unfold cv_lt. cbn [column].
      rewrite (ltb_total _ _ Hac Heq). reflexivity.
Qed.

Lemma upsert_not_nil columns col val : upsert columns col val <> [].
Proof.
  destruct columns as [|a tl]; [discriminate|]. rewrite upsert_cons.
  destruct (String.ltb _ _); [discriminate|].
  destruct (String.eqb _ _); discriminate.
Qed.

Lemma deserialize_columns_sorted data columns :
  deserialize_columns data = Ok columns -> is_sorted columns = true.
Proof.
  unfold deserialize_columns.
  destruct (String.eqb data ""); [discriminate|].
  destruct (size data <? 4); [intros [= <-]; reflexivity|].
  destruct (read_pairs _ _ _) as [|cv tl]; [intros [= <-]; reflexivity|].
  destruct (is_sorted (cv :: tl)) eqn:Hs; cbn [negb]; [|discriminate].
  intros [= <-]. exact Hs.
Qed.

Lemma update_or_add_sorted columns col val :
  is_sorted columns = true -> update_or_add columns col val = Ok (upsert columns col val).
Proof.
  intros Hs. unfold update_or_add. destruct columns as [|a tl]; [reflexivity|].
  rewrite Hs. reflexivity.
Qed.

Lemma guard_passes (m : Simple.KVTManagerWrapperSimple) tx_id :
  tx_id = 0 \/ Simple.current_tx_id m = tx_id ->
  negb (tx_id =? 0) && negb (Simple.current_tx_id m =? tx_id) = false.
Proof.
  intros [-> | <-]; [reflexivity|].
  rewrite Z.eqb_refl, Bool.andb_false_r. reflexivity.
Qed.

(** A value stored through [kvt_set] is what [kvt_get] reads back under the
    same transaction id. *)
Lemma kvt_set_then_get m tx_id t k v e1 :
  tx_id = 0 \/ Simple.current_tx_id m = tx_id ->
  exists m',
    Global.kvt_set (Some m) tx_id t k v e1 = (Some m', (true, e1))
    /\ (tx_id = 0 \/ Simple.current_tx_id m' = tx_id)
    /\ (forall value e2,
          Global.kvt_get (Some m') tx_id t k value e2 = (Some m', (true, v, e2))).
Proof.
  intros Hg. pose proof (guard_passes m tx_id Hg) as Hguard.
  unfold Global.kvt_set, Simple.set. rewrite Hguard.
  destruct (tx_id =? 0) eqn:H0; eexists; (split; [reflexivity|]);
    (split; [exact Hg|]); intros value e2;
    unfold Global.kvt_get, Simple.get; cbn [Simple.current_tx_id];
    rewrite H0, Hguard; cbn [negb Simple.table_data Simple.write_set].
  - rewrite find_assign_same. reflexivity.
  - rewrite lookup_insert_eq. reflexivity.
Qed.

Section engine_scan.
Variable kvt_scan :
  option Simple.KVTManagerWrapperSimple -> Z -> string -> string -> string -> Z ->
  list (string * string) -> string ->
  option Simple.KVTManagerWrapperSimple * (bool * list (string * string) * string).

Lemma read_columns m tx_id t key err0 columns err1 :
  snd (get_all_columns kvt_scan Global.kvt_get false (Some m) tx_id t key err0)
  = (Ok columns, err1) ->
  get_all_columns kvt_scan Global.kvt_get false (Some m) tx_id t key err0
  = (Some m, (Ok columns, err1))
  /\ is_sorted columns = true.
Proof.
  unfold get_all_columns, Global.kvt_get.
  pose proof (get_keeps_state m tx_id t key "" err0) as Hst.
  destruct (Simple.get m tx_id t key "" err0) as [m0 [[ok ser] msg]].
  cbn [fst] in Hst. subst m0.
  destruct ok; cbn [snd]; intros [= Hd <-].
  - rewrite Hd. split; [reflexivity|]. eapply deserialize_columns_sorted, Hd.
  - subst columns. split; reflexivity.
Qed.

Lemma read_stored_columns m tx_id t key columns e :
  columns <> [] -> frame_fits columns -> is_sorted columns = true ->
  (forall value e2,
     Global.kvt_get (Some m) tx_id t key value e2 = (Some m, (true, frame columns, e2))) ->
  get_all_columns kvt_scan Global.kvt_get false (Some m) tx_id t key e
  = (Some m, (Ok columns, e)).
Proof.
  intros Hne Hfit Hs Hget. unfold get_all_columns. rewrite Hget.
  rewrite deserialize_frame by assumption. rewrite Hs. reflexivity.
Qed.

Lemma get_stored_column m tx_id t key columns col value e :
  key <> "" -> col <> "" ->
  columns <> [] -> frame_fits columns -> is_sorted columns = true ->
  (forall value e2,
     Global.kvt_get (Some m) tx_id t key value e2 = (Some m, (true, frame columns, e2))) ->
  get_column Global.kvt_get false (Some m) tx_id t key col value e
  = (Some m, match column_value columns col with
             | Some v => (Ok true, v, e)
             | None => (Ok false, value, "Column not found: " +:+ col)
             end).
Proof.
  intros Hkey Hcol Hne Hfit Hs Hget. unfold get_column.
  apply String.eqb_neq in Hkey, Hcol. rewrite Hkey, Hcol. cbn [orb].
  rewrite Hget. cbn [negb].
  rewrite deserialize_frame by assumption. rewrite Hs.
  unfold column_value. destruct (at_column _ _ _); reflexivity.
Qed.

(** X19: a column written is the column read, in the serialized layout.
    With the transaction check passed, the stored columns of the key
    readable and the updated list within the range of the frame's 32-bit
    fields, [set_column] succeeds (leaving in [error_msg] what the read of
    the old columns left there); afterwards [get_all_columns] gives the old
    columns with the new binding at its sorted place, [get_column] gives the
    new value for the column and for every other column what the old list
    held, and a list without repeated columns stays one. *)
Theorem set_column_then_get_column m tx_id t key col val columns err0 err1 :
  key <> "" -> col <> "" ->
  tx_id = 0 \/ Simple.current_tx_id m = tx_id ->
  snd (get_all_columns kvt_scan Global.kvt_get false (Some m) tx_id t key err0)
  = (Ok columns, err1) ->
  frame_fits (upsert columns col val) ->
  exists m',
    set_column kvt_scan Global.kvt_get Global.kvt_set false (Some m)
               tx_id t key col val err0
    = (Some m', (Ok true, err1))
    /\ (forall e,
          get_all_columns kvt_scan Global.kvt_get false (Some m') tx_id t key e
          = (Some m', (Ok (upsert columns col val), e)))
    /\ (forall value e,
          get_column Global.kvt_get false (Some m') tx_id t key col value e
          = (Some m', (Ok true, val, e)))
    /\ (forall col' value e, col' <> "" -> col' <> col ->
          get_column Global.kvt_get false (Some m') tx_id t key col' value e
          = (Some m', match column_value columns col' with
                      | Some v => (Ok true, v, e)
                      | None => (Ok false, value, "Column not found: " +:+ col')
                      end))
    /\ (strictly_sorted columns = true ->
        strictly_sorted (upsert columns col val) = true).
Proof.
  intros Hkey Hcol Hg Hread Hfit.
  destruct (read_columns _ _ _ _ _ _ _ Hread) as [Hall Hs].
  pose proof (is_sorted_upsert columns col val Hs) as Hs'.
  pose proof (upsert_not_nil columns col val) as Hne.
  destruct (kvt_set_then_get m tx_id t key (frame (upsert columns col val)) err1 Hg)
    as (m' & Hset & Hg' & Hget).
  exists m'. split.
  { unfold set_column.
    pose proof Hkey as Hk. pose proof Hcol as Hc.
    apply String.eqb_neq in Hk, Hc. rewrite Hk, Hc. cbn [orb].
    rewrite Hall, update_or_add_sorted by exact Hs.
    rewrite serialize_frame by (exact Hne || apply Hfit). rewrite Hs', Hset.
    reflexivity. }
  split; [intros e; apply read_stored_columns; assumption|].
  split.
  { intros value e. rewrite (get_stored_column m' tx_id t key (upsert columns col val) col value e)
      by assumption.
    rewrite column_value_upsert, String.eqb_refl. reflexivity. }
  split; [|apply strictly_sorted_upsert].
  intros col' value e Hcol' Hne'.
  rewrite (get_stored_column m' tx_id t key (upsert columns col val) col' value e)
    by assumption.
  rewrite column_value_upsert.
  apply String.eqb_neq in Hne'. rewrite Hne'. reflexivity.
Qed.

Lemma delete_lower_bound_cons a tl col :
  delete (lower_bound (a :: tl) col) (a :: tl)
  = if String.ltb (column a) col then a :: delete (lower_bound tl col) tl else tl.
Proof.
  cbn [lower_bound]. destruct (String.ltb (column a) col); reflexivity.
Qed.

Lemma column_value_above a tl col :
  strictly_sorted (a :: tl) = true -> String.ltb (column a) col = false ->
  column_value tl col = None.
Proof.
  intros Hs Hac. destruct tl as [|b tl']; [reflexivity|].
  rewrite strictly_sorted_cons2 in Hs. apply andb_prop in Hs as [Hab _].
  unfold cv_lt in Hab. rewrite column_value_cons.
  destruct (String.ltb (column b) col) eqn:Hbc.
  { rewrite (ltb_trans _ _ _ Hab Hbc) in Hac. discriminate. }
  destruct (String.eqb_spec (column b) col) as [Heq|]; [|reflexivity].
  rewrite <- Heq, Hab in Hac. discriminate.
Qed.

Lemma strictly_sorted_tail a tl :
  strictly_sorted (a :: tl) = true -> strictly_sorted tl = true.
Proof.
  destruct tl as [|b tl']; [reflexivity|]. rewrite strictly_sorted_cons2.
  intros H. apply andb_prop in H as [_ H]. exact H.
Qed.

Lemma column_value_delete columns col v col' :
  strictly_sorted columns = true -> column_value columns col = Some v ->
  column_value (delete (lower_bound columns col) columns) col'
  = if String.eqb col' col then None else column_value columns col'.
Proof.
  induction columns as [|a tl IH]; intros Hs Hv; [discriminate|].
  rewrite delete_lower_bound_cons. rewrite column_value_cons in Hv.
  destruct (String.ltb (column a) col) eqn:Hac.
  - rewrite !column_value_cons, IH by (eauto using strictly_sorted_tail).
    destruct (String.ltb (column a) col') eqn:Hac'; [reflexivity|].
    destruct (String.eqb_spec col' col) as [Heq|Hne]; [|reflexivity].
    rewrite Heq in Hac'. congruence.
  - destruct (String.eqb_spec (column a) col) as [Heq|]; [|discriminate].
    destruct (String.eqb_spec col' col) as [Heq'|Hne'].
    + subst col'. eapply column_value_above; eauto.
    + rewrite column_value_cons.
      destruct (String.ltb (column a) col') eqn:Hac'; [reflexivity|].
      rewrite (column_value_above a tl col' Hs Hac').
      destruct (String.eqb_spec (column a) col'); [congruence | reflexivity].
Qed.

Lemma strictly_sorted_delete columns : forall i,
  strictly_sorted columns = true -> strictly_sorted (delete i columns) = true.
Proof.
  induction columns as [|a tl IH]; intros i Hs; [destruct i; reflexivity|].
  destruct i as [|i]; [cbn; eauto using strictly_sorted_tail|].
  change (delete (S i) (a :: tl)) with (a :: delete i tl).
  pose proof (IH i (strictly_sorted_tail _ _ Hs)) as Htl.
  destruct tl as [|b tl']; [destruct i; reflexivity|].
  rewrite strictly_sorted_cons2 in Hs. apply andb_prop in Hs as [Hab Hbt].
  destruct i as [|i].
  - change (delete 0%nat (b :: tl')) with tl' in *.
    destruct tl' as [|c tl'']; [reflexivity|].
    rewrite strictly_sorted_cons2 in Hbt |- *. apply andb_prop in Hbt as [Hbc Hct].
    unfold cv_lt in *. rewrite (ltb_trans _ _ _ Hab Hbc), Hct. reflexivity.
  - change (delete (S i) (b :: tl')) with (b :: delete i tl') in *.
    rewrite strictly_sorted_cons2, Hab, Htl. reflexivity.
Qed.

Lemma frame_fits_delete columns i : frame_fits columns -> frame_fits (delete i columns).
Proof.
  intros [Hlen Hfit]. split; [|apply Forall_delete, Hfit].
  pose proof (sublist_length _ _ (sublist_delete columns i)). lia.
Qed.

(** A key deleted through [kvt_del] is not found by [kvt_get] under the
    same transaction id. *)
Lemma kvt_del_then_get m tx_id t k e1 :
  StdMap.ordered (Simple.table_data m) = true ->
  tx_id = 0 \/ Simple.current_tx_id m = tx_id ->
  exists m',
    Global.kvt_del (Some m) tx_id t k e1 = (Some m', (true, e1))
    /\ (forall value e2,
          Global.kvt_get (Some m') tx_id t k value e2
          = (Some m', (false, value, Simple.key_not_found_msg k))).
Proof.
  intros Ho Hg. pose proof (guard_passes m tx_id Hg) as Hguard.
  unfold Global.kvt_del, Simple.del. rewrite Hguard.
  destruct (tx_id =? 0) eqn:H0; eexists; (split; [reflexivity|]); intros value e2;
    unfold Global.kvt_get, Simple.get; cbn [Simple.current_tx_id];
    rewrite H0, Hguard;
    cbn [negb Simple.table_data Simple.write_set Simple.delete_set].
  - rewrite find_erase_same by exact Ho. reflexivity.
  - rewrite lookup_delete_eq.
    rewrite bool_decide_eq_true_2; [reflexivity|].
    apply elem_of_union_r, elem_of_singleton. reflexivity.
Qed.

(** X20: a column deleted is gone, and only that one, in the serialized
    layout.  In a reachable engine state, with the transaction check passed
    and the stored columns of the key readable, without repeated columns and
    within the range of the frame's 32-bit fields, [delete_column] of a
    column that the key has succeeds; afterwards [get_all_columns] gives the
    old list without that column, [get_column] fails for it and gives for
    every other column what the old list held; and when it was the last
    column the key itself is deleted from the store. *)
Theorem delete_column_removes_column m tx_id t key col v columns err0 err1 :
  key <> "" -> col <> "" ->
  Simple.reachable m ->
  tx_id = 0 \/ Simple.current_tx_id m = tx_id ->
  snd (get_all_columns kvt_scan Global.kvt_get false (Some m) tx_id t key err0)
  = (Ok columns, err1) ->
  strictly_sorted columns = true -> frame_fits columns ->
  column_value columns col = Some v ->
  let remaining := delete (lower_bound columns col) columns in
  exists m',
    delete_column kvt_scan Global.kvt_get Global.kvt_set Global.kvt_del false (Some m)
                  tx_id t key col err0
    = (Some m', (Ok true, err1))
    /\ (forall e,
          fst (get_all_columns kvt_scan Global.kvt_get false (Some m') tx_id t key e)
          = Some m'
          /\ fst (snd (get_all_columns kvt_scan Global.kvt_get false (Some m')
                                       tx_id t key e))
             = Ok remaining)
    /\ (forall col' value e, col' <> "" ->
          fst (snd (get_column Global.kvt_get false (Some m') tx_id t key col' value e))
          = match (if String.eqb col' col then None else column_value columns col') with
            | Some v' => (Ok true, v')
            | None => (Ok false, value)
            end)
    /\ (remaining = [] ->
        forall value e,
          Global.kvt_get (Some m') tx_id t key value e
          = (Some m', (false, value, Simple.key_not_found_msg key))).
Proof.
  intros Hkey Hcol Hr Hg Hread Hss Hfit Hv remaining.
  destruct (read_columns _ _ _ _ _ _ _ Hread) as [Hall Hs].
  assert (Hat : exists cv, at_column columns (lower_bound columns col) col = Some cv).
  { unfold column_value in Hv. destruct (at_column _ _ _) as [cv|]; [eauto | discriminate]. }
  destruct Hat as [cv Hat].
  assert (Hss' : strictly_sorted remaining = true) by (apply strictly_sorted_delete, Hss).
  pose proof (strictly_sorted_is_sorted _ Hss') as Hs'.
  assert (Hfit' : frame_fits remaining) by (apply frame_fits_delete, Hfit).
  assert (Hcv : forall col', column_value remaining col'
                             = if String.eqb col' col then None
                               else column_value columns col').
  { intros col'. eapply column_value_delete; eauto. }
  pose proof Hkey as Hk. pose proof Hcol as Hc.
  apply String.eqb_neq in Hk, Hc.
  assert (Hhead : delete_column kvt_scan Global.kvt_get Global.kvt_set Global.kvt_del false
                    (Some m) tx_id t key col err0
                  = match remaining with
                    | [] =>
                        let '(e2, (ok, error_msg2)) :=
                          Global.kvt_del (Some m) tx_id t key err1 in
                        (e2, (Ok ok, error_msg2))
                    | _ :: _ =>
                        let '(e2, (ok, error_msg2)) :=
                          Global.kvt_set (Some m) tx_id t key (frame remaining) err1 in
                        (e2, (Ok ok, error_msg2))
                    end).
  { unfold delete_column. rewrite Hk, Hc. cbn [orb]. rewrite Hall, Hs. cbn [negb].
    rewrite Hat. change (delete (lower_bound columns col) columns) with remaining.
    clearbody remaining. destruct remaining as [|r rs]; [reflexivity|].
    rewrite serialize_frame by (discriminate || apply Hfit'). rewrite Hs'. reflexivity. }
  rewrite Hhead. clear Hhead. clearbody remaining.
  destruct remaining as [|r rs].
  - destruct (kvt_del_then_get m tx_id t key err1 (reachable_ordered _ Hr) Hg)
      as (m' & Hdel & Hget).
    exists m'. rewrite Hdel. split; [reflexivity|].
    split.
    { intros e. unfold get_all_columns. rewrite Hget. split; reflexivity. }
    split; [|intros _; exact Hget].
    intros col' value e Hcol'. unfold get_column.
    apply String.eqb_neq in Hcol'. rewrite Hk, Hcol'. cbn [orb]. rewrite Hget.
    cbn [negb fst snd]. rewrite <- Hcv, column_value_nil. reflexivity.
  - destruct (kvt_set_then_get m tx_id t key (frame (r :: rs)) err1 Hg)
      as (m' & Hset & Hg' & Hget).
    exists m'. rewrite Hset. split; [reflexivity|].
    split.
    { intros e.
      rewrite (read_stored_columns m' tx_id t key (r :: rs) e)
        by (assumption || discriminate).
      split; reflexivity. }
    split; [|discriminate].
    intros col' value e Hcol'.
    rewrite (get_stored_column m' tx_id t key (r :: rs) col' value e)
      by (assumption || discriminate).
    cbn [fst snd]. rewrite Hcv.
    destruct (if String.eqb col' col then None else column_value columns col');
      reflexivity.
Qed.

Lemma column_value_map (m0 : list (string * string)) col :
  column_value (map (fun '(c, v) => {| column := c; value := v |}) m0) col
  = StdMap.find col m0.
Proof.
  induction m0 as [|[k v] m0 IH]; [reflexivity|].
  cbn [map StdMap.find]. rewrite column_value_cons. cbn [column value].
  unfold String.ltb. rewrite (String.compare_antisym col k).
  destruct (String.compare k col) eqn:E; cbn [CompOpp].
  - apply String.compare_eq_iff in E. subst k. rewrite String.eqb_refl. reflexivity.
  - exact IH.
  - destruct (String.eqb_spec k col) as [Heq|]; [|reflexivity].
    rewrite Heq, compare_refl in E. discriminate.
Qed.

Lemma find_assign k c (v : string) m0 :
  StdMap.find k (StdMap.assign c v m0) = if String.eqb c k then Some v else StdMap.find k m0.
Proof.
  destruct (String.eqb_spec c k) as [->|Hne].
  - apply find_assign_same.
  - apply find_assign_other. congruence.
Qed.

Lemma find_assign_columns columns k : forall m0,
  StdMap.find k (assign_columns columns m0)
  = match last_value columns k with
    | Some v => Some v
    | None => StdMap.find k m0
    end.
Proof.
  induction columns as [|cv tl IH]; intros m0; [reflexivity|].
  unfold assign_columns in *. cbn [fold_left last_value]. rewrite IH.
  destruct (last_value tl k); [reflexivity|]. rewrite find_assign.
  destruct (String.eqb _ _); reflexivity.
Qed.

Lemma last_value_app a b k :
  last_value (a ++ b) k
  = match last_value b k with
    | Some v => Some v
    | None => last_value a k
    end.
Proof.
  induction a as [|cv a IH]; cbn [app last_value].
  - destruct (last_value b k); reflexivity.
  - rewrite IH. destruct (last_value b k); reflexivity.
Qed.

Lemma ordered_assign_columns columns : forall m0 : list (string * string),
  StdMap.ordered m0 = true -> StdMap.ordered (assign_columns columns m0) = true.
Proof.
  induction columns as [|cv tl IH]; intros m0 Ho; [exact Ho|].
  unfold assign_columns in *. cbn [fold_left]. apply IH, ordered_assign, Ho.
Qed.

Lemma strictly_sorted_map (m0 : list (string * string)) :
  strictly_sorted (map (fun '(c, v) => {| column := c; value := v |}) m0)
  = StdMap.ordered m0.
Proof.
  induction m0 as [|[k v] m0 IH]; [reflexivity|].
  destruct m0 as [|[k' v'] m0]; [reflexivity|].
  cbn [map] in *. rewrite strictly_sorted_cons2, IH. reflexivity.
Qed.

Lemma assign_columns_not_nil columns : forall m0 : list (string * string),
  columns <> [] \/ m0 <> [] -> assign_columns columns m0 <> [].
Proof.
  induction columns as [|cv tl IH]; intros m0 H.
  - destruct H as [H|H]; [contradiction | exact H].
  - unfold assign_columns in *. cbn [fold_left]. apply IH. right.
    destruct m0 as [|[k v] m0]; cbn [StdMap.assign]; [discriminate|].
    destruct (String.compare _ _); discriminate.
Qed.

(** X21: [set_columns] merges, the new columns winning.  In the serialized
    layout, with the transaction check passed, the stored columns of the key
    readable and the merged list within the range of the frame's 32-bit
    fields, [set_columns] with at least one column succeeds; afterwards the
    key holds the merged list, which has no repeated column, and
    [get_column] gives for a column the value of its last occurrence in the
    old list followed by the new one. *)
Theorem set_columns_merges m tx_id t key columns existing err0 err1 :
  key <> "" -> columns <> [] ->
  tx_id = 0 \/ Simple.current_tx_id m = tx_id ->
  snd (get_all_columns kvt_scan Global.kvt_get false (Some m) tx_id t key err0)
  = (Ok existing, err1) ->
  frame_fits (merge_columns existing columns) ->
  exists m',
    set_columns kvt_scan Global.kvt_get Global.kvt_set false (Some m)
                tx_id t key columns err0
    = (Some m', (Ok true, err1))
    /\ (forall e,
          get_all_columns kvt_scan Global.kvt_get false (Some m') tx_id t key e
          = (Some m', (Ok (merge_columns existing columns), e)))
    /\ strictly_sorted (merge_columns existing columns) = true
    /\ (forall col value e, col <> "" ->
          get_column Global.kvt_get false (Some m') tx_id t key col value e
          = (Some m', match last_value (existing ++ columns) col with
                      | Some v => (Ok true, v, e)
                      | None => (Ok false, value, "Column not found: " +:+ col)
                      end)).
Proof.
  intros Hkey Hcols Hg Hread Hfit.
  destruct (read_columns _ _ _ _ _ _ _ Hread) as [Hall _].
  assert (Hss : strictly_sorted (merge_columns existing columns) = true).
  { unfold merge_columns. rewrite strictly_sorted_map.
    apply ordered_assign_columns, ordered_assign_columns. reflexivity. }
  pose proof (strictly_sorted_is_sorted _ Hss) as Hs.
  assert (Hne : merge_columns existing columns <> []).
  { unfold merge_columns. intros Hnil. apply map_eq_nil in Hnil.
    revert Hnil. apply assign_columns_not_nil. left. exact Hcols. }
  destruct (kvt_set_then_get m tx_id t key (frame (merge_columns existing columns)) err1 Hg)
    as (m' & Hset & Hg' & Hget).
  exists m'. split.
  { unfold set_columns. pose proof Hkey as Hk. apply String.eqb_neq in Hk.
    rewrite Hk, bool_decide_eq_false_2 by exact Hcols. cbn [orb].
    rewrite Hall.
    change (map _ (assign_columns columns (assign_columns existing [])))
      with (merge_columns existing columns).
    rewrite serialize_frame by (exact Hne || apply Hfit). rewrite Hs, Hset.
    reflexivity. }
  split; [intros e; apply read_stored_columns; assumption|].
  split; [exact Hss|].
  intros col value e Hcol.
  rewrite (get_stored_column m' tx_id t key (merge_columns existing columns) col value e)
    by assumption.
  unfold merge_columns at 1. rewrite column_value_map, find_assign_columns.
  rewrite find_assign_columns, last_value_app. cbn [StdMap.find].
  destruct (last_value columns col); [reflexivity|].
  destruct (last_value existing col); reflexivity.
Qed.

Lemma composite_key_valid key col :
  key <> "" -> col <> "" ->
  find_char KEY_COLUMN_SEPARATOR key = None ->
  find_char KEY_COLUMN_SEPARATOR col = None ->
  make_composite_key KEY_COLUMN_SEPARATOR key col
  = Ok (key +:+ string1 KEY_COLUMN_SEPARATOR +:+ col).
Proof.
  intros Hk Hc Hfk Hfc. unfold make_composite_key.
  apply String.eqb_neq in Hk, Hc. rewrite Hfk, Hfc, Hk, Hc. reflexivity.
Qed.

Lemma append_cancel_l p a b : p +:+ a = p +:+ b -> a = b.
Proof.
  induction p as [|c p IH]; [rewrite !append_nil_l; auto|].
  rewrite !append_cons. intros [= H]. auto.
Qed.

(** X22: a column is a binding of its own in the composite-key layout.  For
    a key and a column that are not empty and hold no separator, with the
    transaction check passed, [set_column] stores the value under the
    composite key and succeeds, [get_column] then reads it back, and what
    [get_column] reports for any other valid key and column of the table is
    what it reported before. *)
Theorem composite_column_round_trip m tx_id t key col val err :
  key <> "" -> col <> "" ->
  find_char KEY_COLUMN_SEPARATOR key = None ->
  find_char KEY_COLUMN_SEPARATOR col = None ->
  tx_id = 0 \/ Simple.current_tx_id m = tx_id ->
  exists m',
    set_column kvt_scan Global.kvt_get Global.kvt_set true (Some m)
               tx_id t key col val err
    = (Some m', (Ok true, err))
    /\ (forall value e,
          get_column Global.kvt_get true (Some m') tx_id t key col value e
          = (Some m', (Ok true, val, e)))
    /\ (forall key' col' value e,
          key' <> "" -> col' <> "" ->
          find_char KEY_COLUMN_SEPARATOR key' = None ->
          find_char KEY_COLUMN_SEPARATOR col' = None ->
          (key', col') <> (key, col) ->
          snd (get_column Global.kvt_get true (Some m') tx_id t key' col' value e)
          = snd (get_column Global.kvt_get true (Some m) tx_id t key' col' value e)).
Proof.
  intros Hkey Hcol Hfk Hfc Hg.
  pose proof Hkey as Hk. pose proof Hcol as Hc. apply String.eqb_neq in Hk, Hc.
  destruct (kvt_set_then_get m tx_id t
              (key +:+ string1 KEY_COLUMN_SEPARATOR +:+ col) val err Hg)
    as (m' & Hset & Hg' & Hget).
  exists m'. split.
  { unfold set_column. rewrite Hk, Hc. cbn [orb].
    rewrite composite_key_valid by assumption. rewrite Hset. reflexivity. }
  split.
  { intros value e. unfold get_column. rewrite Hk, Hc. cbn [orb].
    rewrite composite_key_valid by assumption. rewrite Hget. reflexivity. }
  intros key' col' value e Hkey' Hcol' Hfk' Hfc' Hne.
  unfold get_column.
  apply String.eqb_neq in Hkey', Hcol'. rewrite Hkey', Hcol'. cbn [orb].
  rewrite composite_key_valid by (assumption || apply String.eqb_neq; assumption).
  assert (Hkeys : Simple.make_table_key t (key' +:+ string1 KEY_COLUMN_SEPARATOR +:+ col')
                  <> Simple.make_table_key t (key +:+ string1 KEY_COLUMN_SEPARATOR +:+ col)).
  { unfold Simple.make_table_key. intros Heq.
    apply append_cancel_l, append_cancel_l in Heq. apply Hne.
    pose proof (split_make_composite_key KEY_COLUMN_SEPARATOR key' col' Hfk') as H1.
    rewrite Heq, split_make_composite_key in H1 by exact Hfk.
    injection H1 as -> ->. reflexivity. }
  pose proof (get_after_set_other m tx_id t
                (key +:+ string1 KEY_COLUMN_SEPARATOR +:+ col) val err t
                (key' +:+ string1 KEY_COLUMN_SEPARATOR +:+ col') value e Hkeys) as Hother.
  assert (Hm' : m' = fst (Simple.set m tx_id t
                            (key +:+ string1 KEY_COLUMN_SEPARATOR +:+ col) val err)).
  { unfold Global.kvt_set in Hset.
    destruct (Simple.set m tx_id t _ val err) as [m2 r]. injection Hset as -> _.
    reflexivity. }
  rewrite <- Hm' in Hother. unfold Global.kvt_get.
  destruct (Simple.get m' tx_id t _ value e) as [m1 [[ok1 v1] e1]].
  destruct (Simple.get m tx_id t _ value e) as [m2 [[ok2 v2] e2]].
  cbn [snd] in *. injection Hother as -> -> ->. reflexivity.
Qed.

End engine_scan.

(** X23: [delete_key] in the composite-key layout.  It reads the columns of
    the key with [get_all_columns], which in that layout ends in
    [std::invalid_argument] before the engine is asked: for every key that
    is not empty [delete_key] ends in that exception and deletes nothing,
    whatever the engine holds; an empty key is refused with its message. *)
Theorem delete_key_composite_throws {E : Type}
    (kvt_scan : E -> Z -> string -> string -> string -> Z -> list (string * string) ->
                string -> E * (bool * list (string * string) * string))
    (kvt_get : E -> Z -> string -> string -> string -> string ->
               E * (bool * string * string))
    (kvt_del : E -> Z -> string -> string -> string -> E * (bool * string))
    (e : E) (tx_id : Z) (table_name key error_msg : string) :
  delete_key kvt_scan kvt_get kvt_del true e tx_id table_name key error_msg
  = if String.eqb key "" then (e, (Ok false, "Key cannot be empty"))
    else (e, (Throw (invalid_argument "Key or column contains separator or is empty"),
              error_msg)).
Proof.
  unfold delete_key, get_all_columns.
  rewrite make_composite_key_empty_column. reflexivity.
Qed.

(** X24: the life cycle of the global engine.  Before [kvt_initialize] and
    after [kvt_shutdown] every entry point fails with ["KVT system not
    initialized"], returning 0 or [false] and leaving [value] and [results]
    alone; [kvt_initialize] always succeeds and installs a new engine,
    whatever was there: no key of the old one is found, no transaction of
    the old one is live, and the first transaction gets the id 1. *)
Theorem kvt_life_cycle g t pm k v ks ke lim results tx_id value e :
  let off := Global.kvt_shutdown g in
  let on := fst (Global.kvt_initialize g) in
  (Global.kvt_create_table off t pm e = (None, (0, "KVT system not initialized"))
   /\ Global.kvt_start_transaction off e = (None, (0, "KVT system not initialized"))
   /\ Global.kvt_get off tx_id t k value e
      = (None, (false, value, "KVT system not initialized"))
   /\ Global.kvt_set off tx_id t k v e = (None, (false, "KVT system not initialized"))
   /\ Global.kvt_del off tx_id t k e = (None, (false, "KVT system not initialized"))
   /\ Global.kvt_scan off tx_id t ks ke lim results e
      = Some (None, (false, results, "KVT system not initialized"))
   /\ Global.kvt_commit_transaction off tx_id e
      = (None, (false, "KVT system not initialized"))
   /\ Global.kvt_rollback_transaction off tx_id e
      = (None, (false, "KVT system not initialized")))
  /\ snd (Global.kvt_initialize g) = true
  /\ Global.kvt_get on 0 t k value e = (on, (false, value, Simple.key_not_found_msg k))
  /\ Global.kvt_scan on 0 t ks ke lim results e = Some (on, (true, [], e))
  /\ snd (Global.kvt_start_transaction on e) = (1, e)
  /\ (tx_id <> 0 ->
      Global.kvt_commit_transaction on tx_id e = (on, (false, Simple.not_found_msg tx_id))).
Proof.
  cbn zeta. split; [repeat split|].
  split; [reflexivity|]. split; [reflexivity|].
  split.
  { unfold Global.kvt_initialize, Global.kvt_scan, Simple.scan. cbn.
    destruct (Z.of_nat 0 <? lim); reflexivity. }
  split; [reflexivity|].
  intros Htx. unfold Global.kvt_initialize, Global.kvt_commit_transaction,
    Simple.commit_transaction. cbn [fst Simple.current_tx_id Simple.init].
  destruct (Z.eqb_spec 0 tx_id); [congruence | reflexivity].
Qed.

Lemma set_column_then_get_column_witness :
  let kvt_scan := fun (e : option Simple.KVTManagerWrapperSimple) (_ : Z)
                      (_ _ _ : string) (_ : Z) (r : list (string * string))
                      (msg : string) => (e, (false, r, msg)) in
  let columns := [{| column := "a"; value := "1" |}; {| column := "c"; value := "3" |};
                  {| column := "d"; value := "4" |}] in
  let m := fst (Simple.set Simple.init 0 "t" "k" (frame columns) "") in
  (exists m',
     set_column kvt_scan Global.kvt_get Global.kvt_set false (Some m)
                0 "t" "k" "b" "2" "seen"
     = (Some m', (Ok true, "seen"))
     /\ (forall e,
           get_all_columns kvt_scan Global.kvt_get false (Some m') 0 "t" "k" e
           = (Some m', (Ok (upsert columns "b" "2"), e)))
     /\ (forall value e,
           get_column Global.kvt_get false (Some m') 0 "t" "k" "b" value e
           = (Some m', (Ok true, "2", e)))
     /\ (forall col' value e, col' <> "" -> col' <> "b" ->
           get_column Global.kvt_get false (Some m') 0 "t" "k" col' value e
           = (Some m', match column_value columns col' with
                       | Some v => (Ok true, v, e)
                       | None => (Ok false, value, "Column not found: " +:+ col')
                       end))
     /\ (strictly_sorted columns = true ->
         strictly_sorted (upsert columns "b" "2") = true))
  /\ upsert columns "b" "2"
     = [{| column := "a"; value := "1" |}; {| column := "b"; value := "2" |};
        {| column := "c"; value := "3" |}; {| column := "d"; value := "4" |}]
  /\ (exists m',
        set_column kvt_scan Global.kvt_get Global.kvt_set false (Some m)
                   0 "t" "k" "c" "9" "seen"
        = (Some m', (Ok true, "seen"))
        /\ (forall e,
              get_all_columns kvt_scan Global.kvt_get false (Some m') 0 "t" "k" e
              = (Some m', (Ok (upsert columns "c" "9"), e)))
        /\ (forall value e,
              get_column Global.kvt_get false (Some m') 0 "t" "k" "c" value e
              = (Some m', (Ok true, "9", e)))
        /\ (forall col' value e, col' <> "" -> col' <> "c" ->
              get_column Global.kvt_get false (Some m') 0 "t" "k" col' value e
              = (Some m', match column_value columns col' with
                          | Some v => (Ok true, v, e)
                          | None => (Ok false, value, "Column not found: " +:+ col')
                          end))
        /\ (strictly_sorted columns = true ->
            strictly_sorted (upsert columns "c" "9") = true))
  /\ upsert columns "c" "9"
     = [{| column := "a"; value := "1" |}; {| column := "c"; value := "9" |};
        {| column := "d"; value := "4" |}].
Proof.
  intros kvt_scan columns m.
  split; [|split; [reflexivity|split; [|reflexivity]]].
  - apply (set_column_then_get_column kvt_scan m 0 "t" "k" "b" "2" columns "seen" "seen").
    + discriminate.
    + discriminate.
    + left. reflexivity.
    + vm_compute. reflexivity.
    + split; [vm_compute; reflexivity|]. repeat constructor; vm_compute; reflexivity.
  - apply (set_column_then_get_column kvt_scan m 0 "t" "k" "c" "9" columns "seen" "seen").
    + discriminate.
    + discriminate.
    + left. reflexivity.
    + vm_compute. reflexivity.
    + split; [vm_compute; reflexivity|]. repeat constructor; vm_compute; reflexivity.
Defined.

Lemma delete_column_removes_column_witness :
  let kvt_scan := fun (e : option Simple.KVTManagerWrapperSimple) (_ : Z)
                      (_ _ _ : string) (_ : Z) (r : list (string * string))
                      (msg : string) => (e, (false, r, msg)) in
  let columns := [{| column := "a"; value := "1" |}; {| column := "c"; value := "v" |}] in
  let m := fst (Simple.set Simple.init 0 "t" "k" (frame columns) "") in
  let remaining := delete (lower_bound columns "c") columns in
  exists m',
    delete_column kvt_scan Global.kvt_get Global.kvt_set Global.kvt_del false (Some m)
                  0 "t" "k" "c" ""
    = (Some m', (Ok true, ""))
    /\ (forall e,
          fst (get_all_columns kvt_scan Global.kvt_get false (Some m') 0 "t" "k" e)
          = Some m'
          /\ fst (snd (get_all_columns kvt_scan Global.kvt_get false (Some m')
                                       0 "t" "k" e))
             = Ok remaining)
    /\ (forall col' value e, col' <> "" ->
          fst (snd (get_column Global.kvt_get false (Some m') 0 "t" "k" col' value e))
          = match (if String.eqb col' "c" then None else column_value columns col') with
            | Some v' => (Ok true, v')
            | None => (Ok false, value)
            end)
    /\ (remaining = [] ->
        forall value e,
          Global.kvt_get (Some m') 0 "t" "k" value e
          = (Some m', (false, value, Simple.key_not_found_msg "k"))).
Proof.
  intros kvt_scan columns m.
  apply (delete_column_removes_column kvt_scan m 0 "t" "k" "c" "v" columns "" "").
  - discriminate.
  - discriminate.
  - exists [Simple.Set_ 0 "t" "k" (frame columns)]. reflexivity.
  - left. reflexivity.
  - vm_compute. reflexivity.
  - reflexivity.
  - split; [cbn; lia|]. repeat constructor; cbn; lia.
  - reflexivity.
Defined.

Lemma set_columns_merges_witness :
  let kvt_scan := fun (e : option Simple.KVTManagerWrapperSimple) (_ : Z)
                      (_ _ _ : string) (_ : Z) (r : list (string * string))
                      (msg : string) => (e, (false, r, msg)) in
  let existing := [{| column := "a"; value := "1" |}; {| column := "c"; value := "v" |}] in
  let columns := [{| column := "c"; value := "w" |}; {| column := "b"; value := "2" |};
                  {| column := "c"; value := "x" |}] in
  let m := fst (Simple.set Simple.init 0 "t" "k" (frame existing) "") in
  exists m',
    set_columns kvt_scan Global.kvt_get Global.kvt_set false (Some m)
                0 "t" "k" columns ""
    = (Some m', (Ok true, ""))
    /\ (forall e,
          get_all_columns kvt_scan Global.kvt_get false (Some m') 0 "t" "k" e
          = (Some m', (Ok (merge_columns existing columns), e)))
    /\ strictly_sorted (merge_columns existing columns) = true
    /\ (forall col value e, col <> "" ->
          get_column Global.kvt_get false (Some m') 0 "t" "k" col value e
          = (Some m', match last_value (existing ++ columns) col with
                      | Some v => (Ok true, v, e)
                      | None => (Ok false, value, "Column not found: " +:+ col)
                      end)).
Proof.
  intros kvt_scan existing columns m.
  apply (set_columns_merges kvt_scan m 0 "t" "k" columns existing "" "").
  - discriminate.
  - discriminate.
  - left. reflexivity.
  - vm_compute. reflexivity.
  - split; [vm_compute; reflexivity|]. repeat constructor; cbn; lia.
Defined.

Lemma composite_column_round_trip_witness :
  let kvt_scan := fun (e : option Simple.KVTManagerWrapperSimple) (_ : Z)
                      (_ _ _ : string) (_ : Z) (r : list (string * string))
                      (msg : string) => (e, (false, r, msg)) in
  let m := fst (Simple.start_transaction Simple.init "") in
  exists m',
    set_column kvt_scan Global.kvt_get Global.kvt_set true (Some m)
               1 "t" "k" "c" "v" ""
    = (Some m', (Ok true, ""))
    /\ (forall value e,
          get_column Global.kvt_get true (Some m') 1 "t" "k" "c" value e
          = (Some m', (Ok true, "v", e)))
    /\ (forall key' col' value e,
          key' <> "" -> col' <> "" ->
          find_char KEY_COLUMN_SEPARATOR key' = None ->
          find_char KEY_COLUMN_SEPARATOR col' = None ->
          (key', col') <> ("k", "c") ->
          snd (get_column Global.kvt_get true (Some m') 1 "t" key' col' value e)
          = snd (get_column Global.kvt_get true (Some m) 1 "t" key' col' value e)).
Proof.
  intros kvt_scan m.
  apply (composite_column_round_trip kvt_scan m 1 "t" "k" "c" "v" "").
  - discriminate.
  - discriminate.
  - reflexivity.
  - reflexivity.
  - right. reflexivity.
Defined.

End in_memory_columns.

(** ** More on the frame and on composite keys *)

Section framing_extras.
Import Serialization.

(** X25: the reader takes what the writer wrote, and no more.  For a list of
    at least one and fewer than 2^32 pairs, each column and value shorter
    than 2^32 bytes, in ascending order of the columns, repeated columns
    allowed, [serialize_columns] gives the frame and [deserialize_columns]
    gives the list back from the frame followed by any bytes: what comes
    after the announced pairs is not looked at. *)
Theorem deserialize_columns_ignores_trailing_bytes columns junk :
  columns <> [] -> frame_fits columns -> is_sorted columns = true ->
  serialize_columns columns = Ok (frame columns)
  /\ deserialize_columns (frame columns +:+ junk) = Ok columns.
Proof.
  intros Hne Hfit Hs. split.
  { rewrite serialize_frame by (exact Hne || apply Hfit). rewrite Hs. reflexivity. }
  destruct Hfit as [Hlen Hfit].
  unfold deserialize_columns, frame.
  rewrite append_assoc.
  rewrite uint32_wrap_small by lia.
  rewrite size_uint32_append, read_uint32_bytes, string_drop_uint32 by lia.
  replace (String.eqb _ "") with false by reflexivity.
  rewrite Nat2Z.id.
  rewrite <- (Nat.add_0_r (length columns)).
  rewrite read_pairs_frame_body by exact Hfit.
  cbn [read_pairs app].
  destruct columns as [|cv tl]; [contradiction|].
  rewrite Hs. reflexivity.
Qed.

Lemma deserialize_columns_ignores_trailing_bytes_witness :
  let columns := [{| column := "a"; value := "1" |}; {| column := "a"; value := "2" |};
                  {| column := "b"; value := "" |}] in
  serialize_columns columns = Ok (frame columns)
  /\ deserialize_columns (frame columns +:+ "trailing bytes") = Ok columns.
Proof.
  intros columns.
  apply (deserialize_columns_ignores_trailing_bytes columns "trailing bytes").
  - discriminate.
  - split; [cbn; lia|]. repeat constructor; cbn; lia.
  - reflexivity.
Defined.

(** X26: a composite key can be taken apart again.  Whatever the separator,
    when [make_composite_key] accepts a key and a column, which it does
    exactly when both are not empty and hold no separator,
    [split_composite_key] of its result gives them back, so two pairs with
    the same composite key are the same pair; and the loop of
    [get_all_columns] turns a scan result under that composite key into the
    column with its value. *)
Theorem split_composite_key_make_composite_key sep key col composite_key v :
  make_composite_key sep key col = Ok composite_key ->
  split_composite_key sep composite_key = Ok (key, col)
  /\ key <> "" /\ col <> ""
  /\ find_char sep key = None /\ find_char sep col = None
  /\ (forall key' col',
        make_composite_key sep key' col' = Ok composite_key -> key' = key /\ col' = col)
  /\ collect_columns sep key [(composite_key, v)] []
     = Ok [{| column := col; value := v |}].
Proof.
  assert (Hsplit : forall key col composite_key,
            make_composite_key sep key col = Ok composite_key ->
            split_composite_key sep composite_key = Ok (key, col)
            /\ key <> "" /\ col <> ""
            /\ find_char sep key = None /\ find_char sep col = None).
  { clear. intros key col ck. unfold make_composite_key.
    destruct (find_char sep key) eqn:Hk; [discriminate|].
    destruct (find_char sep col) eqn:Hc; [discriminate|].
    destruct (String.eqb_spec key ""); [discriminate|].
    destruct (String.eqb_spec col ""); [discriminate|].
    cbn [found orb]. intros [= <-].
    rewrite split_make_composite_key by exact Hk. auto. }
  intros Hmake. destruct (Hsplit _ _ _ Hmake) as (Hs & Hk & Hc & Hfk & Hfc).
  repeat (split; [assumption|]).
  split.
  - intros key' col' Hmake'. destruct (Hsplit _ _ _ Hmake') as (Hs' & _).
    rewrite Hs in Hs'. injection Hs' as -> ->. auto.
  - cbn [collect_columns]. rewrite Hs, String.eqb_refl. reflexivity.
Qed.

Lemma split_composite_key_make_composite_key_witness :
  let sep := KvtAdapter.KEY_COLUMN_SEPARATOR in
  let composite_key := "row" +:+ string1 sep +:+ "col" in
  split_composite_key sep composite_key = Ok ("row", "col")
  /\ "row" <> "" /\ "col" <> ""
  /\ find_char sep "row" = None /\ find_char sep "col" = None
  /\ (forall key' col',
        make_composite_key sep key' col' = Ok composite_key ->
        key' = "row" /\ col' = "col")
  /\ collect_columns sep "row" [(composite_key, "v")] []
     = Ok [{| column := "col"; value := "v" |}].
Proof.
  intros sep composite_key.
  apply (split_composite_key_make_composite_key sep "row" "col" composite_key "v").
  reflexivity.
Defined.

End framing_extras.

(** ** The adapter's batch *)

Section adapter_batch.
Import Serialization Kvt KvtAdapter.
Context {E : Type}.
Variable kvt_batch_execute :
  E -> Z -> list KVTIdOp -> list KVTOpResult -> string ->
  E * (KVTError * list KVTOpResult * string).

(** The operations that the composite-key layout hands to the engine. *)
Lemma convert_ops_valid table_id jg_ops : forall kvt_ops,
  Forall (fun o => exists k,
            make_composite_key KEY_COLUMN_SEPARATOR (jg_key o) (jg_column o) = Ok k) jg_ops ->
  exists converted,
    convert_ops true table_id jg_ops kvt_ops = Converted (kvt_ops ++ converted)
    /\ length converted = length jg_ops
    /\ (forall i o, jg_ops !! i = Some o ->
          exists k,
            make_composite_key KEY_COLUMN_SEPARATOR (jg_key o) (jg_column o) = Ok k
            /\ converted !! i = Some (to_kvt_op table_id o k)).
Proof.
  induction jg_ops as [|o tl IH]; intros kvt_ops Hall.
  - exists []. rewrite app_nil_r. repeat split. intros i o Hi. destruct i; discriminate.
  - apply Forall_cons in Hall as [[k Hk] Hall]. cbn [convert_ops]. rewrite Hk.
    destruct (IH (kvt_ops ++ [to_kvt_op table_id o k]) Hall) as (conv & -> & Hlen & Hat).
    exists (to_kvt_op table_id o k :: conv). rewrite <- app_assoc.
    split; [reflexivity|]. split; [cbn; lia|].
    intros [|i] o' Hi.
    + injection Hi as <-. exists k. auto.
    + apply (Hat i o' Hi).
Qed.

Lemma convert_ops_invalid table_id jg_ops : forall kvt_ops,
  Exists (fun o => forall k,
            make_composite_key KEY_COLUMN_SEPARATOR (jg_key o) (jg_column o) <> Ok k) jg_ops ->
  convert_ops true table_id jg_ops kvt_ops
  = Invalid (invalid_argument "Key or column contains separator or is empty").
Proof.
  induction jg_ops as [|o tl IH]; intros kvt_ops Hex.
  - apply Exists_nil in Hex. contradiction.
  - cbn [convert_ops].
    destruct (make_composite_key KEY_COLUMN_SEPARATOR (jg_key o) (jg_column o))
      as [k|ex] eqn:Hk.
    + apply IH. apply Exists_cons in Hex as [Hbad|Hex]; [|exact Hex].
      exfalso. exact (Hbad k Hk).
    + unfold make_composite_key in Hk.
      destruct (_ || _); [|discriminate]. injection Hk as <-. reflexivity.
Qed.

Lemma convert_results_some jg_ops kvt_results : forall i jg_results,
  (i + length kvt_results <= length jg_ops)%nat ->
  exists converted,
    convert_results jg_ops kvt_results i jg_results = Some (jg_results ++ converted)
    /\ length converted = length kvt_results
    /\ (forall j r, kvt_results !! j = Some r ->
          exists o, jg_ops !! (i + j)%nat = Some o
                    /\ converted !! j = Some (to_jg_result o (i + j) r)).
Proof.
  induction kvt_results as [|r tl IH]; intros i jg_results Hlen.
  - exists []. rewrite app_nil_r. repeat split. intros j r Hj. destruct j; discriminate.
  - cbn [convert_results length] in *.
    destruct (lookup_lt_is_Some_2 jg_ops i) as [o Ho]; [lia|]. rewrite Ho.
    destruct (IH (S i) (jg_results ++ [to_jg_result o i r])) as (conv & -> & Hl & Hat);
      [lia|].
    exists (to_jg_result o i r :: conv). rewrite <- app_assoc.
    split; [reflexivity|]. split; [cbn; lia|].
    intros [|j] r' Hj.
    + injection Hj as <-. exists o. rewrite Nat.add_0_r. auto.
    + destruct (Hat j r' Hj) as (o' & Ho' & Hc).
      exists o'. replace (i + S j)%nat with (S i + j)%nat by lia. auto.
Qed.

Lemma convert_results_none jg_ops kvt_results : forall i jg_results,
  (i <= length jg_ops)%nat -> (length jg_ops < i + length kvt_results)%nat ->
  convert_results jg_ops kvt_results i jg_results = None.
Proof.
  induction kvt_results as [|r tl IH]; intros i jg_results Hi Hlen;
    cbn [convert_results length] in *; [lia|].
  destruct (jg_ops !! i) as [o|] eqn:Ho; [|reflexivity].
  apply lookup_lt_Some in Ho. apply IH; lia.
Qed.

(** X27: the adapter's batch is checked before it is run.  In the
    serialized layout a batch with at least one operation is refused with
    its message, and in the composite-key layout a batch with an operation
    whose key or column is empty or holds the separator ends in
    [std::invalid_argument]; in both cases the engine is not called and
    [jg_results] is left as it was, also when the operations before the
    offending one are valid.  A batch of valid operations is handed to the
    engine as one operation each, with the composite key and the table id;
    when the engine returns no more results than operations, each result is
    converted under the operation of the same index and the call returns
    [true] exactly for the codes [SUCCESS] and [BATCH_NOT_FULLY_SUCCESS];
    with more results than operations the conversion reads beyond the end of
    [jg_ops]. *)
Theorem adapter_batch_execute_outcome (e : E) (tx_id table_id : Z)
    (jg_ops : list JanusGraphBatchOp) (jg_results : list JanusGraphBatchResult)
    (error_msg : string) :
  (jg_ops <> [] ->
   batch_execute kvt_batch_execute false e tx_id table_id jg_ops jg_results error_msg
   = Some (e, (Ok false, jg_results,
               "Batch operations not yet fully supported for serialized column method")))
  /\ (Exists (fun o => forall k,
                make_composite_key KEY_COLUMN_SEPARATOR (jg_key o) (jg_column o) <> Ok k)
             jg_ops ->
      batch_execute kvt_batch_execute true e tx_id table_id jg_ops jg_results error_msg
      = Some (e, (Throw (invalid_argument "Key or column contains separator or is empty"),
                  jg_results, error_msg)))
  /\ (Forall (fun o => exists k,
                make_composite_key KEY_COLUMN_SEPARATOR (jg_key o) (jg_column o) = Ok k)
             jg_ops ->
      exists kvt_ops,
        length kvt_ops = length jg_ops
        /\ (forall i o, jg_ops !! i = Some o ->
              kvt_ops !! i
              = Some (to_kvt_op table_id o
                        (jg_key o +:+ string1 KEY_COLUMN_SEPARATOR +:+ jg_column o)))
        /\ (forall e' code kvt_results error_msg',
              kvt_batch_execute e tx_id kvt_ops [] error_msg
              = (e', (code, kvt_results, error_msg')) ->
              ((length kvt_results <= length jg_ops)%nat ->
               exists jg_results',
                 batch_execute kvt_batch_execute true e tx_id table_id jg_ops
                               jg_results error_msg
                 = Some (e', (Ok (bool_decide (code = SUCCESS)
                                  || bool_decide (code = BATCH_NOT_FULLY_SUCCESS)),
                              jg_results', error_msg'))
                 /\ length jg_results' = length kvt_results
                 /\ (forall j r, kvt_results !! j = Some r ->
                       exists o, jg_ops !! j = Some o
                                 /\ jg_results' !! j = Some (to_jg_result o j r)))
              /\ ((length jg_ops < length kvt_results)%nat ->
                  batch_execute kvt_batch_execute true e tx_id table_id jg_ops
                                jg_results error_msg
                  = None))).
Proof.
  split; [|split].
  - intros Hne. unfold batch_execute. destruct jg_ops as [|o tl]; [contradiction|].
    reflexivity.
  - intros Hex. unfold batch_execute. rewrite convert_ops_invalid by exact Hex.
    reflexivity.
  - intros Hall.
    destruct (convert_ops_valid table_id jg_ops [] Hall) as (kvt_ops & Hconv & Hlen & Hat).
    cbn [app] in Hconv. exists kvt_ops. split; [exact Hlen|]. split.
    { intros i o Hi. destruct (Hat i o Hi) as (k & Hk & ->). f_equal. f_equal.
      unfold make_composite_key in Hk. destruct (_ || _); [discriminate|].
      injection Hk as <-. reflexivity. }
    intros e' code kvt_results error_msg' Hrun. unfold batch_execute.
    rewrite Hconv, Hrun. split.
    + intros Hle.
      destruct (convert_results_some jg_ops kvt_results 0 []) as (conv & -> & Hl & Hc);
        [cbn; lia|].
      cbn [app]. exists conv. split; [reflexivity|]. split; [exact Hl|].
      intros j r Hj. destruct (Hc j r Hj) as (o & Ho & Hr). exists o. auto.
    + intros Hgt. rewrite convert_results_none by (cbn; lia). reflexivity.
Qed.

End adapter_batch.

(** ** The adapter under a transaction *)

Lemma delete_key_composite_state {E : Type}
    (kvt_scan : E -> Z -> string -> string -> string -> Z -> list (string * string) ->
                string -> E * (bool * list (string * string) * string))
    (kvt_get : E -> Z -> string -> string -> string -> string ->
               E * (bool * string * string))
    (kvt_del : E -> Z -> string -> string -> string -> E * (bool * string))
    (e : E) (tx_id : Z) (table_name key error_msg : string) :
  fst (InMemoryAdapter.delete_key kvt_scan kvt_get kvt_del true e tx_id table_name key
                                  error_msg) = e.
Proof.
  unfold InMemoryAdapter.delete_key, InMemoryAdapter.get_all_columns.
  rewrite make_composite_key_empty_column.
  destruct (String.eqb key ""); reflexivity.
Qed.

Section adapter_transaction.
Import Serialization InMemoryAdapter.
Variable kvt_scan :
  option Simple.KVTManagerWrapperSimple -> Z -> string -> string -> string -> Z ->
  list (string * string) -> string ->
  option Simple.KVTManagerWrapperSimple * (bool * list (string * string) * string).

Lemma only_buffers_differ_refl m : Global.only_buffers_differ m (Some m).
Proof.
  exists (Simple.write_set m), (Simple.delete_set m). rewrite with_buffers_same.
  reflexivity.
Qed.

Lemma kvt_get_state g tx_id t k v e : fst (Global.kvt_get g tx_id t k v e) = g.
Proof.
  destruct g as [m|]; [|reflexivity]. unfold Global.kvt_get.
  pose proof (get_keeps_state m tx_id t k v e) as Hst.
  destruct (Simple.get m tx_id t k v e) as [m' r]. cbn [fst] in *. congruence.
Qed.

Lemma kvt_set_buffered m0 g tx_id t k v e :
  tx_id <> 0 -> Global.only_buffers_differ m0 g ->
  Global.only_buffers_differ m0 (fst (Global.kvt_set g tx_id t k v e)).
Proof.
  intros Htx (ws & ds & ->). unfold Global.kvt_set, Simple.set.
  destruct (_ && _); [exists ws, ds; reflexivity|].
  destruct (Z.eqb_spec tx_id 0); [contradiction|].
  eexists _, _. reflexivity.
Qed.

Lemma kvt_del_buffered m0 g tx_id t k e :
  tx_id <> 0 -> Global.only_buffers_differ m0 g ->
  Global.only_buffers_differ m0 (fst (Global.kvt_del g tx_id t k e)).
Proof.
  intros Htx (ws & ds & ->). unfold Global.kvt_del, Simple.del.
  destruct (_ && _); [exists ws, ds; reflexivity|].
  destruct (Z.eqb_spec tx_id 0); [contradiction|].
  eexists _, _. reflexivity.
Qed.

Lemma get_all_columns_state layout g tx_id t key e :
  fst (get_all_columns kvt_scan Global.kvt_get layout g tx_id t key e) = g.
Proof.
  unfold get_all_columns. destruct layout.
  - rewrite make_composite_key_empty_column. reflexivity.
  - pose proof (kvt_get_state g tx_id t key "" e) as Hst.
    destruct (Global.kvt_get g tx_id t key "" e) as [g' [[ok ser] msg]].
    cbn [fst] in Hst. subst g'. destruct ok; reflexivity.
Qed.

Lemma get_column_state layout g tx_id t key col v e :
  fst (get_column Global.kvt_get layout g tx_id t key col v e) = g.
Proof.
  unfold get_column. destruct (_ || _); [reflexivity|]. destruct layout.
  - destruct (make_composite_key _ _ _) as [ck|ex]; [|reflexivity].
    pose proof (kvt_get_state g tx_id t ck v e) as Hst.
    destruct (Global.kvt_get g tx_id t ck v e) as [g' [[ok v'] msg]]. exact Hst.
  - pose proof (kvt_get_state g tx_id t key "" e) as Hst.
    destruct (Global.kvt_get g tx_id t key "" e) as [g' [[ok ser] msg]].
    cbn [fst] in Hst. subst g'. destruct ok; cbn [negb]; [|reflexivity].
    destruct (deserialize_columns ser); [|reflexivity].
    destruct (at_column _ _ _); reflexivity.
Qed.

Lemma set_column_buffered m0 layout g tx_id t key col v e :
  tx_id <> 0 -> Global.only_buffers_differ m0 g ->
  Global.only_buffers_differ m0
    (fst (set_column kvt_scan Global.kvt_get Global.kvt_set layout g tx_id t key col v e)).
Proof.
  intros Htx Hg.
  assert (Hset : forall g' t k v e, g' = g ->
            Global.only_buffers_differ m0 (fst (Global.kvt_set g' tx_id t k v e))).
  { intros g' t' k' v' e' ->. apply kvt_set_buffered; assumption. }
  unfold set_column. destruct (_ || _); [exact Hg|]. destruct layout.
  - destruct (make_composite_key _ _ _) as [ck|ex]; [|exact Hg].
    specialize (Hset g t ck v e eq_refl).
    destruct (Global.kvt_set g tx_id t ck v e) as [g' [ok msg]]. exact Hset.
  - pose proof (get_all_columns_state false g tx_id t key e) as Hst.
    destruct (get_all_columns kvt_scan Global.kvt_get false g tx_id t key e)
      as [g1 [existing msg1]].
    cbn [fst] in Hst. subst g1.
    destruct existing as [columns|ex]; [|exact Hg].
    destruct (update_or_add columns col v) as [columns'|ex]; [|exact Hg].
    destruct (serialize_columns columns') as [ser|ex]; [|exact Hg].
    specialize (Hset g t key ser msg1 eq_refl).
    destruct (Global.kvt_set g tx_id t key ser msg1) as [g' [ok msg]]. exact Hset.
Qed.

Lemma delete_column_buffered m0 layout g tx_id t key col e :
  tx_id <> 0 -> Global.only_buffers_differ m0 g ->
  Global.only_buffers_differ m0
    (fst (delete_column kvt_scan Global.kvt_get Global.kvt_set Global.kvt_del
                        layout g tx_id t key col e)).
Proof.
  intros Htx Hg.
  unfold delete_column. destruct (_ || _); [exact Hg|]. destruct layout.
  - destruct (make_composite_key _ _ _) as [ck|ex]; [|exact Hg].
    pose proof (kvt_del_buffered m0 g tx_id t ck e Htx Hg) as Hdel.
    destruct (Global.kvt_del g tx_id t ck e) as [g' [ok msg]]. exact Hdel.
  - pose proof (get_all_columns_state false g tx_id t key e) as Hst.
    destruct (get_all_columns kvt_scan Global.kvt_get false g tx_id t key e)
      as [g1 [existing msg1]].
    cbn [fst] in Hst. subst g1.
    destruct existing as [columns|ex]; [|exact Hg].
    destruct (negb (is_sorted columns)); [exact Hg|].
    destruct (at_column _ _ _); [|exact Hg].
    destruct (delete (lower_bound columns col) columns) as [|r rs].
    + pose proof (kvt_del_buffered m0 g tx_id t key msg1 Htx Hg) as Hdel.
      destruct (Global.kvt_del g tx_id t key msg1) as [g' [ok msg]]. exact Hdel.
    + destruct (serialize_columns (r :: rs)) as [ser|ex]; [|exact Hg].
      pose proof (kvt_set_buffered m0 g tx_id t key ser msg1 Htx Hg) as Hset.
      destruct (Global.kvt_set g tx_id t key ser msg1) as [g' [ok msg]]. exact Hset.
Qed.

Lemma set_composite_keys_buffered m0 tx_id t key columns : forall g e,
  tx_id <> 0 -> Global.only_buffers_differ m0 g ->
  Global.only_buffers_differ m0
    (fst (set_composite_keys Global.kvt_set columns g tx_id t key e)).
Proof.
  induction columns as [|cv tl IH]; intros g e Htx Hg; cbn [set_composite_keys];
    [exact Hg|].
  destruct (make_composite_key _ _ _) as [ck|ex]; [|exact Hg].
  pose proof (kvt_set_buffered m0 g tx_id t ck (value cv) e Htx Hg) as Hset.
  destruct (Global.kvt_set g tx_id t ck (value cv) e) as [g' [ok msg]].
  cbn [fst] in Hset. destruct ok; cbn [negb]; [|exact Hset].
  apply IH; assumption.
Qed.

Lemma set_columns_buffered m0 layout g tx_id t key columns e :
  tx_id <> 0 -> Global.only_buffers_differ m0 g ->
  Global.only_buffers_differ m0
    (fst (set_columns kvt_scan Global.kvt_get Global.kvt_set layout g tx_id t key
                      columns e)).
Proof.
  intros Htx Hg.
  unfold set_columns. destruct (_ || _); [exact Hg|].
  destruct (bool_decide _); [exact Hg|]. destruct layout.
  - apply set_composite_keys_buffered; assumption.
  - pose proof (get_all_columns_state false g tx_id t key e) as Hst.
    destruct (get_all_columns kvt_scan Global.kvt_get false g tx_id t key e)
      as [g1 [existing msg1]].
    cbn [fst] in Hst. subst g1.
    destruct existing as [existing|ex]; [|exact Hg].
    destruct (serialize_columns _) as [ser|ex]; [|exact Hg].
    pose proof (kvt_set_buffered m0 g tx_id t key ser msg1 Htx Hg) as Hset.
    destruct (Global.kvt_set g tx_id t key ser msg1) as [g' [ok msg]]. exact Hset.
Qed.

Lemma delete_key_buffered m0 layout g tx_id t key e :
  tx_id <> 0 -> Global.only_buffers_differ m0 g ->
  Global.only_buffers_differ m0
    (fst (delete_key kvt_scan Global.kvt_get Global.kvt_del layout g tx_id t key e)).
Proof.
  intros Htx Hg. destruct layout.
  - rewrite delete_key_composite_state. exact Hg.
  - unfold delete_key. destruct (String.eqb key ""); [exact Hg|].
    pose proof (kvt_del_buffered m0 g tx_id t key e Htx Hg) as Hdel.
    destruct (Global.kvt_del g tx_id t key e) as [g' [ok msg]]. exact Hdel.
Qed.

Lemma run_operation_buffered m0 layout g tx_id t o :
  tx_id <> 0 -> Global.only_buffers_differ m0 g ->
  Global.only_buffers_differ m0
    (run_operation kvt_scan Global.kvt_get Global.kvt_set Global.kvt_del
                   layout tx_id t g o).
Proof.
  intros Htx Hg. destruct o; cbn [run_operation].
  - apply set_column_buffered; assumption.
  - rewrite get_column_state. exact Hg.
  - apply delete_column_buffered; assumption.
  - rewrite get_all_columns_state. exact Hg.
  - apply delete_key_buffered; assumption.
  - apply set_columns_buffered; assumption.
Qed.

(** X28: the adapter's operations under a transaction touch the buffers
    only, and a rollback takes them back.  From a reachable engine with no
    live transaction, after [kvt_start_transaction], any sequence of
    [set_column], [get_column], [delete_column], [get_all_columns],
    [delete_key] and [set_columns] on a table under the new id, in either
    layout and whatever each of them returned or threw, and
    [kvt_rollback_transaction] of that id, the engine holds the committed
    data, the table ids and the buffers it held before, no transaction is
    live, and only the transaction counter has moved on. *)
Theorem adapter_transaction_rolled_back layout m t (ops : list operation) :
  Simple.reachable m -> Simple.current_tx_id m = 0 -> Simple.next_tx_id m <> 0 ->
  let tx_id := Simple.next_tx_id m in
  let g1 := fst (Global.kvt_start_transaction (Some m) "") in
  let g2 := fold_left (run_operation kvt_scan Global.kvt_get Global.kvt_set
                                     Global.kvt_del layout tx_id t) ops g1 in
  exists m',
    Global.kvt_rollback_transaction g2 tx_id "" = (Some m', (true, ""))
    /\ Simple.table_data m' = Simple.table_data m
    /\ Simple.table_to_id m' = Simple.table_to_id m
    /\ Simple.next_table_id m' = Simple.next_table_id m
    /\ Simple.current_tx_id m' = 0
    /\ Simple.write_set m' = Simple.write_set m
    /\ Simple.delete_set m' = Simple.delete_set m
    /\ Simple.next_tx_id m' = uint64_wrap (Simple.next_tx_id m + 1).
Proof.
  intros Hr Hidle Hnext tx_id g1 g2.
  destruct (proj2 (reachable_consistent m Hr) Hidle) as [Hws Hds].
  set (m1 := fst (Simple.start_transaction m "")).
  assert (Hg1 : g1 = Some m1).
  { subst g1 m1. unfold Global.kvt_start_transaction.
    destruct (Simple.start_transaction m "") as [m1 r]. reflexivity. }
  assert (Hg2 : Global.only_buffers_differ m1 g2).
  { subst g2. rewrite Hg1. generalize (only_buffers_differ_refl m1).
    generalize (Some m1). clear Hg1.
    induction ops as [|o ops IH]; intros g Hg; cbn [fold_left]; [exact Hg|].
    apply IH. apply run_operation_buffered; assumption. }
  destruct Hg2 as (ws & ds & ->).
  assert (Hm1 : m1 = {| Simple.table_data := Simple.table_data m;
                        Simple.table_to_id := Simple.table_to_id m;
                        Simple.next_table_id := Simple.next_table_id m;
                        Simple.next_tx_id := uint64_wrap (Simple.next_tx_id m + 1);
                        Simple.current_tx_id := Simple.next_tx_id m;
                        Simple.write_set := Simple.write_set m;
                        Simple.delete_set := Simple.delete_set m |}).
  { subst m1. unfold Simple.start_transaction. rewrite Hidle. reflexivity. }
  rewrite Hm1. unfold Global.kvt_rollback_transaction, Simple.rollback_transaction.
  cbn [Simple.with_buffers Simple.current_tx_id]. fold tx_id.
  rewrite Z.eqb_refl. cbn [negb].
  eexists. split; [reflexivity|]. cbn. rewrite Hws, Hds. repeat split; reflexivity.
Qed.

End adapter_transaction.

Lemma adapter_transaction_rolled_back_witness :
  let kvt_scan := fun (e : option Simple.KVTManagerWrapperSimple) (_ : Z)
                      (_ _ _ : string) (_ : Z) (r : list (string * string))
                      (msg : string) => (e, (false, r, msg)) in
  let m := fst (Simple.set Simple.init 0 "t" "k"
                  (Serialization.frame [{| Serialization.column := "a";
                                           Serialization.value := "1" |}]) "") in
  let ops := [InMemoryAdapter.SetColumn "k" "b" "2"; InMemoryAdapter.GetColumn "k" "b";
              InMemoryAdapter.DeleteColumn "k" "a"; InMemoryAdapter.DeleteKey "k";
              InMemoryAdapter.SetColumns "j" [{| Serialization.column := "c";
                                                 Serialization.value := "3" |}];
              InMemoryAdapter.GetAllColumns "j"] in
  let tx_id := Simple.next_tx_id m in
  let g1 := fst (Global.kvt_start_transaction (Some m) "") in
  let g2 := fold_left (InMemoryAdapter.run_operation kvt_scan Global.kvt_get
                         Global.kvt_set Global.kvt_del false tx_id "t") ops g1 in
  exists m',
    Global.kvt_rollback_transaction g2 tx_id "" = (Some m', (true, ""))
    /\ Simple.table_data m' = Simple.table_data m
    /\ Simple.table_to_id m' = Simple.table_to_id m
    /\ Simple.next_table_id m' = Simple.next_table_id m
    /\ Simple.current_tx_id m' = 0
    /\ Simple.write_set m' = Simple.write_set m
    /\ Simple.delete_set m' = Simple.delete_set m
    /\ Simple.next_tx_id m' = uint64_wrap (Simple.next_tx_id m + 1).
Proof.
  intros kvt_scan m ops.
  apply (adapter_transaction_rolled_back kvt_scan false m "t" ops).
  - exists [Simple.Set_ 0 "t" "k"
              (Serialization.frame [{| Serialization.column := "a";
                                       Serialization.value := "1" |}])].
    reflexivity.
  - reflexivity.
  - cbn. lia.
Defined.
